(** * Selections of the Dance modal editor

    A shallow embedding of the selection engine (the [selections] module of
    the API: batch transforms, rotation, overlap merging, end-of-selection
    queries and the caret/character mode translation), with the properties
    its specification states about it.  Further sections cover the earlier
    revision of the module, the registers of the editor state and the
    register argument of the commands. *)

From Stdlib Require Import ZArith Lia String DecimalString.
From stdpp Require Import base list strings gmap.

Local Open Scope nat_scope.

(** ** Positions and selections ([vscode.Position], [vscode.Selection])

    The editor API is external to the repository.  A position is a pair of
    non-negative integers; a selection is a pair (anchor, active) whose
    [start] and [end] are the smaller and the larger of the two, and which
    is reversed when its anchor is its end: when the anchor is not before
    the active position.  An empty selection is therefore reversed. *)

Record Position := mkPosition { line : nat; character : nat }.

Definition isBefore (a b : Position) : bool :=
  (line a <? line b) || ((line a =? line b) && (character a <? character b)).

Definition isEqual (a b : Position) : bool :=
  (line a =? line b) && (character a =? character b).

Definition isBeforeOrEqual (a b : Position) : bool :=
  (line a <? line b) || ((line a =? line b) && (character a <=? character b)).

Definition isAfter (a b : Position) : bool := negb (isBeforeOrEqual a b).

Definition isAfterOrEqual (a b : Position) : bool := negb (isBefore a b).

Record Selection := mkSelection { anchor : Position; active : Position }.

(** [new vscode.Range(anchor, active)] keeps its arguments in order when the
    first is before the second and swaps them otherwise. *)
Definition start (s : Selection) : Position :=
  if isBefore (anchor s) (active s) then anchor s else active s.

Definition end_ (s : Selection) : Position :=
  if isBefore (anchor s) (active s) then active s else anchor s.

(** [isReversed] is [anchor === end]: the range keeps the anchor as its end
    unless the anchor is before the active position. *)
Definition isReversed (s : Selection) : bool := negb (isBefore (anchor s) (active s)).

Definition isEmpty (s : Selection) : bool := isEqual (anchor s) (active s).

(** ** Documents ([vscode.TextDocument])

    A document is the list of the texts of its lines.  [lineAt] raises an
    error on a line that does not exist. *)

Inductive Error :=
| EmptySelectionsError
| NotASelectionError
| IllegalLineError.

Inductive result (A : Type) :=
| Ok (a : A)
| Throw (e : Error).
Arguments Ok {A} a.
Arguments Throw {A} e.

#[global] Instance result_ret : MRet result := fun A a => Ok a.
#[global] Instance result_bind : MBind result := fun A B f m =>
  match m with
  | Ok a => f a
  | Throw e => Throw e
  end.

Record TextDocument := mkDocument { lines : list string }.

Definition lineCount (document : TextDocument) : nat := length (lines document).

Definition lineAt (document : TextDocument) (n : nat) : result string :=
  match lines document !! n with
  | Some text => Ok text
  | None => Throw IllegalLineError
  end.

(** A position lies within a document when its line exists and its character
    is at most the length of the text of that line. *)
Definition validPosition (document : TextDocument) (p : Position) : Prop :=
  exists text, lines document !! line p = Some text /\ character p <= String.length text.

Module Lines.

(** Modelled from the spec: [Lines.length] (module [./lines], which is not
    among the sources) is the length of the text of the given line, the
    column that the spec calls the end of the line. *)
Definition length (n : nat) (document : TextDocument) : result nat :=
  text ← lineAt document n; mret (String.length text).

End Lines.

Module Selections.

Definition empty (position : Position) : Selection := mkSelection position position.

(** The overload of [fromAnchorActive] that takes four coordinates. *)
Definition fromAnchorActive (anchorLine anchorCharacter activeLine activeCharacter : nat)
  : Selection :=
  mkSelection (mkPosition anchorLine anchorCharacter)
              (mkPosition activeLine activeCharacter).

Definition fromStartEnd (start end_ : Position) (reversed : bool) : Selection :=
  if reversed then mkSelection end_ start else mkSelection start end_.

Definition endLine (selection : Selection) : nat :=
  let startLine := line (start selection) in
  let endLine := line (end_ selection) in
  let endCharacter := character (end_ selection) in
  if negb (startLine =? endLine) && (endCharacter =? 0)
  then endLine - 1
  else endLine.

Definition endCharacter (selection : Selection) (document : TextDocument) : result nat :=
  let startLine := line (start selection) in
  let endLine := line (end_ selection) in
  let endCharacter := character (end_ selection) in
  if negb (startLine =? endLine) && (endCharacter =? 0)
  then text ← lineAt document (endLine - 1); mret (String.length text + 1)
  else mret endCharacter.

Definition endPosition (selection : Selection) (document : TextDocument) : result Position :=
  let line_ := endLine selection in
  if negb (line_ =? line (end_ selection))
  then text ← lineAt document line_; mret (mkPosition line_ (String.length text))
  else mret (end_ selection).

(** One iteration of the loop of [toCharacterMode]. *)
Definition toCharacterMode1 (selection : Selection) (document : TextDocument)
  : result Selection :=
  let selectionActive := active selection in
  let selectionActiveLine := line selectionActive in
  let selectionActiveCharacter := character selectionActive in
  let selectionAnchor := anchor selection in
  let selectionAnchorLine := line selectionAnchor in
  let selectionAnchorCharacter := character selectionAnchor in
  if selectionAnchorLine =? selectionActiveLine then
    if selectionAnchorCharacter + 1 =? selectionActiveCharacter then
      (* one character long: make it empty *)
      mret (mkSelection selectionAnchor selectionAnchor)
    else if selectionAnchorCharacter =? selectionActiveCharacter + 1 then
      (* reversed and one character long ([anchor - 1 === active]) *)
      mret (mkSelection selectionActive selectionActive)
    else if selectionAnchorCharacter <? selectionActiveCharacter then
      mret (mkSelection selectionAnchor
              (mkPosition selectionActiveLine (selectionActiveCharacter - 1)))
    else mret selection
  else if selectionAnchorLine <? selectionActiveLine then
    if 0 <? selectionActiveCharacter then
      mret (mkSelection selectionAnchor
              (mkPosition selectionActiveLine (selectionActiveCharacter - 1)))
    else
      let activePrevLine := selectionActiveLine - 1 in
      text ← lineAt document activePrevLine;
      mret (mkSelection selectionAnchor (mkPosition activePrevLine (String.length text)))
  else if (selectionAnchorLine =? selectionActiveLine + 1)
          && (selectionAnchorCharacter =? 0) then
    len ← Lines.length selectionActiveLine document;
    if selectionActiveCharacter =? len
    then mret (mkSelection selectionActive selectionActive)
    else mret selection
  else mret selection.

Fixpoint toCharacterMode (selections : list Selection) (document : TextDocument)
  : result (list Selection) :=
  match selections with
  | [] => mret []
  | selection :: rest =>
      s ← toCharacterMode1 selection document;
      characterModeSelections ← toCharacterMode rest document;
      mret (s :: characterModeSelections)
  end.

(** One iteration of the loop of [fromCharacterMode]. *)
Definition fromCharacterMode1 (selection : Selection) (document : TextDocument)
  : result Selection :=
  let selectionActive := active selection in
  let selectionActiveLine := line selectionActive in
  let selectionActiveCharacter := character selectionActive in
  let selectionAnchor := anchor selection in
  let selectionAnchorLine := line selectionAnchor in
  let selectionAnchorCharacter := character selectionAnchor in
  let isEmptyOrForwardFacing :=
    (selectionAnchorLine <? selectionActiveLine)
    || ((selectionAnchorLine =? selectionActiveLine)
        && (selectionAnchorCharacter <=? selectionActiveCharacter)) in
  if isEmptyOrForwardFacing then
    text ← lineAt document selectionActiveLine;
    let lineLength := String.length text in
    if selectionActiveCharacter =? lineLength then
      if selectionActiveLine + 1 <? lineCount document
      then mret (mkSelection selectionAnchor (mkPosition (selectionActiveLine + 1) 0))
      else mret selection
    else
      mret (mkSelection selectionAnchor
              (mkPosition selectionActiveLine (selectionActiveCharacter + 1)))
  else mret selection.

Fixpoint fromCharacterMode (selections : list Selection) (document : TextDocument)
  : result (list Selection) :=
  match selections with
  | [] => mret []
  | selection :: rest =>
      s ← fromCharacterMode1 selection document;
      caretModeSelections ← fromCharacterMode rest document;
      mret (s :: caretModeSelections)
  end.

(** *** Queries on one selection *)

Definition forward (selection : Selection) : Selection :=
  if isAfterOrEqual (active selection) (anchor selection) then selection
  else mkSelection (active selection) (anchor selection).

Definition backward (selection : Selection) : Selection :=
  if isBeforeOrEqual (active selection) (anchor selection) then selection
  else mkSelection (active selection) (anchor selection).

Definition overlap (a b : Selection) : bool :=
  let aStart := start a in
  let aEnd := end_ a in
  let bStart := start b in
  let bEnd := end_ b in
  negb ((line aEnd <? line bStart)
        || ((line aEnd =? line bEnd) && (character aEnd <? character bStart)))
  && negb ((line bEnd <? line aStart)
           || ((line bEnd =? line aEnd) && (character bEnd <? character aStart))).

Definition activeLine (selection : Selection) : nat :=
  if isReversed selection then line (active selection) else endLine selection.

Definition activeCharacter (selection : Selection) (document : TextDocument) : result nat :=
  if isReversed selection then mret (character (active selection))
  else endCharacter selection document.

Definition activePosition (selection : Selection) (document : TextDocument)
  : result Position :=
  if isReversed selection then mret (active selection)
  else endPosition selection document.

Definition isSingleLine (selection : Selection) : bool :=
  line (start selection) =? endLine selection.

(** [start.character === end.character - 1] and [start.line === end.line - 1]
    are written with the addition on the other side: the numbers are natural
    numbers. *)
Definition isSingleCharacter (selection : Selection) (document : TextDocument)
  : result bool :=
  let start := start selection in
  let end_ := end_ selection in
  if line start =? line end_ then mret (character start + 1 =? character end_)
  else if line start + 1 =? line end_ then
    if character end_ =? 0 then
      text ← lineAt document (line start);
      mret (String.length text =? character start)
    else mret false
  else mret false.

Definition isEntireLine (selection : Selection) : bool :=
  (character (start selection) =? 0) && (character (end_ selection) =? 0)
  && (line (start selection) + 1 =? line (end_ selection)).

Definition isEntireLines (selection : Selection) : bool :=
  (character (start selection) =? 0) && (character (end_ selection) =? 0)
  && negb (line (start selection) =? line (end_ selection)).

Definition startsWithEntireLine (selection : Selection) : bool :=
  (character (start selection) =? 0)
  && negb (line (start selection) =? line (end_ selection)).

Definition endsWithEntireLine (selection : Selection) : bool :=
  (character (end_ selection) =? 0)
  && negb (line (start selection) =? line (end_ selection)).

End Selections.

(** ** Values of the host language

    Per-selection functions are untyped at run time (the batch runner casts
    them freely), so their results are modelled as values of the host
    language.  [VThenable v] is a suspended result that resolves to [v]. *)

#[warnings="-register-all"]
Inductive Value :=
| VUndefined
| VBoolean (b : bool)
| VNumber (n : Z)
| VString (s : string)
| VSelection (s : Selection)
| VArray (xs : list Value)
| VThenable (resolved : Value).

(** The value that awaiting [v] gives: thenables are followed to the end. *)
Fixpoint await (v : Value) : Value :=
  match v with
  | VThenable resolved => await resolved
  | _ => v
  end.

(** Truthiness ([if (v)], [v ? a : b]). *)
Definition truthy (v : Value) : bool :=
  match v with
  | VUndefined => false
  | VBoolean b => b
  | VNumber n => negb (n =? 0)%Z
  | VString s => negb (String.eqb s EmptyString)
  | VSelection _ | VArray _ | VThenable _ => true
  end.

Definition isUndefined (v : Value) : bool :=
  match v with VUndefined => true | _ => false end.

Definition isArray (v : Value) : bool :=
  match v with VArray _ => true | _ => false end.

(** [selections[i]]: [undefined] beyond the end of the array. *)
Definition at_ (selections : list Selection) (i : nat) : Value :=
  match selections !! i with
  | Some s => VSelection s
  | None => VUndefined
  end.

(** How a call completes: it returns or throws at once, or it returns a
    thenable that is later fulfilled or rejected. *)
Inductive Completion (A : Type) :=
| Returned (a : A)
| Thrown (e : Error)
| Fulfilled (a : A)
| Rejected (e : Error).
Arguments Returned {A} a.
Arguments Thrown {A} e.
Arguments Fulfilled {A} a.
Arguments Rejected {A} e.

(** The array a call gives once all results are available. *)
Definition settled {A} (c : Completion A) : option A :=
  match c with
  | Returned a | Fulfilled a => Some a
  | Thrown _ | Rejected _ => None
  end.

(** [Promise.all(promises)], as the array it is fulfilled with: each value
    awaited, in the order of the array. *)
Definition promiseAll (promises : list Value) : list Value := await <$> promises.

(** Modelled from the spec: [context.then(thenable, onFulfilled)] (class
    [Context], module [./context], which is not among the sources) is the
    primitive that schedules a continuation after a suspended value: the
    call returns a thenable, fulfilled with what the continuation gives for
    the value awaited. *)
Definition Context_then {A B} (resolved : A) (onFulfilled : A -> B) : Completion B :=
  Fulfilled (onFulfilled resolved).

(** ** The editing context

    [Context.current]: the document, the current selections, and the
    positions the editor was asked to reveal, oldest first. *)

Record Context := mkContext {
  document : TextDocument;
  selections : list Selection;
  revealed : list Position
}.

(** Text of a range of the document, lines joined by a line feed; the whole
    text when no range is given. *)
Fixpoint joinLines (ls : list string) : string :=
  match ls with
  | [] => EmptyString
  | [l] => l
  | l :: rest => (l ++ String (Ascii.ascii_of_nat 10) (joinLines rest))%string
  end.

Definition getText (document : TextDocument) (selection : Value) : string :=
  match selection with
  | VSelection s =>
      let a := start s in
      let b := end_ s in
      let ls := take (line b - line a + 1) (drop (line a) (lines document)) in
      let whole := joinLines ls in
      let lastLength := String.length (List.last ls EmptyString) in
      substring (character a)
        (String.length whole - (lastLength - character b) - character a) whole
  | _ => joinLines (lines document)
  end.

(** Modelled from the spec: [NotASelectionError.throwIfNotASelectionArray]
    (module [./errors], which is not among the sources).  An empty array is
    rejected with [EmptySelectionsError], an array holding anything but
    selections with [NotASelectionError]. *)
Fixpoint asSelections (values : list Value) : option (list Selection) :=
  match values with
  | [] => Some []
  | VSelection s :: rest => cons s <$> asSelections rest
  | _ :: _ => None
  end.

Definition throwIfNotASelectionArray (values : list Value) : result (list Selection) :=
  match values with
  | [] => Throw EmptySelectionsError
  | _ => match asSelections values with
         | Some ss => Ok ss
         | None => Throw NotASelectionError
         end
  end.

Definition revealSelections (selection : Selection) (context : Context) : Context :=
  mkContext (document context) (selections context)
            (revealed context ++ [active selection]).

Definition setSelections (values : list Value) (context : Context)
  : result (list Selection) * Context :=
  match throwIfNotASelectionArray values with
  | Throw e => (Throw e, context)
  | Ok ss =>
      let context := mkContext (document context) ss (revealed context) in
      match ss with
      | first :: _ => (Ok ss, revealSelections first context)
      | [] => (Ok ss, context)
      end
  end.

(** ** Batch transforms *)

Definition ByIndex := nat -> Value -> TextDocument -> Value.
Definition Mapper := string -> Value -> nat -> Value.

(** The loops [for (let i = 1; i < selections.length; i++)], written over the
    selections that remain, [i] being the index of the first of them. *)
Fixpoint filterLoop (predicate : ByIndex) (document : TextDocument)
    (i : nat) (rest : list Selection) : list Value :=
  match rest with
  | [] => []
  | selection :: rest =>
      if truthy (predicate i (VSelection selection) document)
      then VSelection selection :: filterLoop predicate document (S i) rest
      else filterLoop predicate document (S i) rest
  end.

Fixpoint callLoop (f : ByIndex) (document : TextDocument)
    (i : nat) (rest : list Selection) : list Value :=
  match rest with
  | [] => []
  | selection :: rest =>
      f i (VSelection selection) document :: callLoop f document (S i) rest
  end.

(** [for (i = 0; i < results.length; i++) if (results[i]) push(saved[i])]. *)
Fixpoint keepLoop (results : list Value) (savedSelections : list Selection)
    (i : nat) : list Value :=
  match results with
  | [] => []
  | r :: results =>
      if truthy r
      then at_ savedSelections i :: keepLoop results savedSelections (S i)
      else keepLoop results savedSelections (S i)
  end.

Definition filterSelections_byIndex (predicate : ByIndex)
    (selections_ : option (list Selection)) (context : Context)
  : Completion (list Value) :=
  let document := document context in
  let selections := default (selections context) selections_ in
  let firstSelection := at_ selections 0 in
  let firstResult := predicate 0 firstSelection document in
  match firstResult with
  | VBoolean b =>
      if length selections =? 1 then
        Returned (if b then [firstResult] else [])
      else
        Returned ((if b then [firstSelection] else [])
                    ++ filterLoop predicate document 1 (drop 1 selections))
  | _ =>
      if length selections =? 1 then
        Context_then (await firstResult)
          (fun value => if truthy value then [firstSelection] else [])
      else
        let promises := firstResult :: callLoop predicate document 1 (drop 1 selections) in
        let savedSelections := selections in
        Context_then (promiseAll promises)
          (fun results => keepLoop results savedSelections 0)
  end.

Definition filterSelections (predicate : Mapper)
    (selections_ : option (list Selection)) (context : Context)
  : Completion (list Value) :=
  filterSelections_byIndex
    (fun i selection document => predicate (getText document selection) selection i)
    selections_ context.

(** [if (value !== undefined) results.push(value)] over an array of values. *)
Fixpoint defined (values : list Value) : list Value :=
  match values with
  | [] => []
  | v :: values => if isUndefined v then defined values else v :: defined values
  end.

Definition mapSelections_byIndex (f : ByIndex)
    (selections_ : option (list Selection)) (context : Context)
  : Completion (list Value) :=
  let document := document context in
  let selections := default (selections context) selections_ in
  let firstSelection := at_ selections 0 in
  let firstResult := f 0 firstSelection document in
  match firstResult with
  | VThenable _ =>
      if length selections =? 1 then
        Context_then (await firstResult)
          (fun result => if isUndefined result then [] else [result])
      else
        let promises := firstResult :: callLoop f document 1 (drop 1 selections) in
        Context_then (promiseAll promises) (fun results => defined results)
  | _ =>
      Returned ((if isUndefined firstResult then [] else [firstResult])
                  ++ defined (callLoop f document 1 (drop 1 selections)))
  end.

Definition mapSelections (f : Mapper)
    (selections_ : option (list Selection)) (context : Context)
  : Completion (list Value) :=
  mapSelections_byIndex
    (fun i selection document => f (getText document selection) selection i)
    selections_ context.

(** [setSelections] applied to the outcome of a batch transform, at once when
    the transform returned an array and after it settled otherwise. *)
Definition commit (transform : list Value -> list Value)
    (c : Completion (list Value)) (context : Context)
  : Completion (list Selection) * Context :=
  match c with
  | Returned xs =>
      match setSelections (transform xs) context with
      | (Ok ss, context) => (Returned ss, context)
      | (Throw e, context) => (Thrown e, context)
      end
  | Fulfilled xs =>
      match setSelections (transform xs) context with
      | (Ok ss, context) => (Fulfilled ss, context)
      | (Throw e, context) => (Rejected e, context)
      end
  | Thrown e => (Thrown e, context)
  | Rejected e => (Rejected e, context)
  end.

(** [updateSelections(f)], the context argument left to its default, the
    current context. *)
Definition updateSelections (f : Mapper) (context : Context)
  : Completion (list Selection) * Context :=
  commit id (mapSelections f None context) context.

Definition updateSelections_byIndex (f : ByIndex) (context : Context)
  : Completion (list Selection) * Context :=
  commit id (mapSelections_byIndex f None context) context.

(** The three passes of [mapFallbackSelections]. *)
Fixpoint countValues (values : list Value) (selectionsCount fallbackSelectionsCount : nat)
  : nat * nat :=
  match values with
  | [] => (selectionsCount, fallbackSelectionsCount)
  | value :: values =>
      if isArray value then countValues values selectionsCount (S fallbackSelectionsCount)
      else if negb (isUndefined value)
           then countValues values (S selectionsCount) fallbackSelectionsCount
           else countValues values selectionsCount fallbackSelectionsCount
  end.

Fixpoint realValues (values : list Value) : list Value :=
  match values with
  | [] => []
  | value :: values =>
      if negb (isUndefined value) && negb (isArray value)
      then value :: realValues values
      else realValues values
  end.

Fixpoint fallbackValues (values : list Value) : list Value :=
  match values with
  | [] => []
  | VArray xs :: values => default VUndefined (xs !! 0) :: fallbackValues values
  | _ :: values => fallbackValues values
  end.

Definition mapFallbackSelections (values : list Value) : list Value :=
  let '(selectionsCount, fallbackSelectionsCount) := countValues values 0 0 in
  if 0 <? selectionsCount then realValues values
  else if 0 <? fallbackSelectionsCount then fallbackValues values
  else [].

Definition updateSelections_withFallback (f : Mapper) (context : Context)
  : Completion (list Selection) * Context :=
  commit mapFallbackSelections (mapSelections f None context) context.

Definition updateSelections_withFallback_byIndex (f : ByIndex) (context : Context)
  : Completion (list Selection) * Context :=
  commit mapFallbackSelections (mapSelections_byIndex f None context) context.

(** ** Rotation *)

(** The loop [for (let i = 0; i < len; i++)] of [rotateSelections], over the
    selections that remain.  [%] on integers is the truncated remainder. *)
Fixpoint rotateLoop (by_ len : Z) (i : nat) (rest : list Selection)
    (newSelections : list Value) : list Value :=
  match rest with
  | [] => newSelections
  | selection :: rest =>
      rotateLoop by_ len (S i) rest
        (<[Z.to_nat (Z.rem (Z.of_nat i + by_) len) := VSelection selection]> newSelections)
  end.

Definition rotateSelections (by_ : Z) (selections : list Selection) : list Value :=
  let len := Z.of_nat (length selections) in
  if (len =? 0)%Z then
    (* [by % 0] is not a number: the comparison fails and the loop over an
       empty array writes nothing *)
    []
  else
    let by_ := (Z.rem by_ len + len)%Z in
    if (by_ =? len)%Z then VSelection <$> selections
    else rotateLoop by_ len 0 selections (replicate (length selections) VUndefined).

(** ** Lines of the selections *)

(** [lines.indexOf(n) === -1]. *)
Definition absentLine (lines_ : list nat) (n : nat) : bool :=
  negb (existsb (Nat.eqb n) lines_).

(** The loop [for (const selection of selections)] of [selectionsLines], from
    the lines collected so far.  The lines [startLine + 1 .. endLine - 1] are
    pushed without a check. *)
Fixpoint selectionsLinesLoop (selections : list Selection) (lines_ : list nat)
  : list nat :=
  match selections with
  | [] => lines_
  | selection :: rest =>
      let startLine := line (start selection) in
      let endLine := Selections.endLine selection in
      let lines_ := if absentLine lines_ startLine then lines_ ++ [startLine] else lines_ in
      let lines_ := lines_ ++ seq (startLine + 1) (endLine - (startLine + 1)) in
      let lines_ :=
        if negb (endLine =? startLine) && absentLine lines_ endLine
        then lines_ ++ [endLine] else lines_ in
      selectionsLinesLoop rest lines_
  end.

Definition selectionsLines (selections : list Selection) : list nat :=
  selectionsLinesLoop selections [].

(** ** Merging overlapping selections *)

(** The variables of one iteration of the outer loop of
    [mergeOverlappingSelections], with the two arrays the loops update. *)
Record MergeState := mkMergeState {
  aStart : Position;
  aEnd : Position;
  aIsEmpty : bool;
  changed : bool;
  ignoreSelections : list nat;
  newSelections : option (list Selection)
}.

Definition ignored (ignoreSelections : list nat) (j : nat) : bool :=
  match ignoreSelections !! j with
  | Some 1 => true
  | _ => false
  end.

(** The inner loop, from index [j].  Every restart ([j = i]) follows the
    marking of one more selection as ignored, so the loop ends; [fuel] bounds
    the number of iterations. *)
Fixpoint mergeInner (fuel : nat) (selections : list Selection)
    (alsoMergeConsecutiveSelections : bool) (i j : nat) (st : MergeState)
  : option MergeState :=
  match fuel with
  | 0 => None
  | S fuel =>
      let continue st := mergeInner fuel selections alsoMergeConsecutiveSelections i (S j) st in
      let restart aStart aEnd :=
        mergeInner fuel selections alsoMergeConsecutiveSelections i (S i)
          (mkMergeState aStart aEnd (aIsEmpty st) true
             (<[j := 1]> (ignoreSelections st)) (newSelections st)) in
      match selections !! j with
      | None => Some st
      | Some b =>
          if ignored (ignoreSelections st) j then continue st
          else
            let bStart := start b in
            let bEnd := end_ b in
            if aIsEmpty st then
              if isEqual bStart bEnd then
                if isEqual bStart (aStart st) then
                  continue (mkMergeState (aStart st) (aEnd st) (aIsEmpty st) true
                              (<[j := 1]> (ignoreSelections st)) (newSelections st))
                else continue st
              else if isBeforeOrEqual bStart (aStart st) && isAfterOrEqual bEnd bStart then
                continue (mkMergeState bStart bEnd false true
                            (<[j := 1]> (ignoreSelections st)) (newSelections st))
              else continue st
            else if isAfterOrEqual (aStart st) bStart
                    && (isBefore (aStart st) bEnd
                        || (alsoMergeConsecutiveSelections && isEqual (aStart st) bEnd)) then
              if isBeforeOrEqual (aEnd st) bEnd then restart (start b) (end_ b)
              else if isEqual (aStart st) bStart then
                continue (mkMergeState (aStart st) (aEnd st) (aIsEmpty st) (changed st)
                            (<[j := 1]> (ignoreSelections st))
                            (Some (default (take i selections) (newSelections st))))
              else restart bStart (aEnd st)
            else if (isAfter (aEnd st) bStart
                     || (alsoMergeConsecutiveSelections && isEqual (aEnd st) bStart))
                    && isBeforeOrEqual (aEnd st) bEnd then
              restart (aStart st) bEnd
            else continue st
      end
  end.

(** The outer loop, from index [i], with [n] iterations left. *)
Fixpoint mergeOuter (n : nat) (selections : list Selection)
    (alsoMergeConsecutiveSelections : bool) (i : nat)
    (ignoreSelections_ : list nat) (newSelections_ : option (list Selection))
  : option (option (list Selection)) :=
  match n with
  | 0 => Some newSelections_
  | S n =>
      match selections !! i with
      | None => Some newSelections_
      | Some a =>
          if ignored ignoreSelections_ i then
            mergeOuter n selections alsoMergeConsecutiveSelections (S i)
              ignoreSelections_ newSelections_
          else
            let len := length selections in
            st ← mergeInner ((len + 1) * (len + 1)) selections
                   alsoMergeConsecutiveSelections i (S i)
                   (mkMergeState (start a) (end_ a) (isEqual (start a) (end_ a)) false
                      ignoreSelections_ newSelections_);
            mergeOuter n selections alsoMergeConsecutiveSelections (S i)
              (ignoreSelections st)
              (if changed st then
                 Some (default (take i selections) (newSelections st)
                         ++ [Selections.fromStartEnd (aStart st) (aEnd st) (isReversed a)])
               else
                 match newSelections st with
                 | Some newSelections => Some (newSelections ++ [a])
                 | None => None
                 end)
      end
  end.

(** [None] would mean that the inner loop was cut short; it never is
    ([mergeOverlappingSelections_total] below). *)
Definition mergeOverlappingSelections (selections : list Selection)
    (alsoMergeConsecutiveSelections : bool) : option (list Selection) :=
  let len := length selections in
  newSelections ← mergeOuter len selections alsoMergeConsecutiveSelections 0
                    (replicate len 0) None;
  Some (default selections newSelections).

Definition mergeConsecutive (selections : list Selection) : option (list Selection) :=
  mergeOverlappingSelections selections true.

(** ** The earlier revision of the module

    The functions of the earlier revision of the selections module that the
    later one dropped or changed: [normalizeSelections], and the
    [fromCharacterMode] that takes a direction. *)

Module Earlier.

(** [Direction] (module [.], which is not among the sources): an enumeration
    of two values. *)
Inductive Direction := Forward | Backward.

(** The body of the loop of [normalizeSelections] up to the test of what
    changed: the new selection, or [None] when [anchor] and [active] are
    still the positions of the selection. *)
Definition normalized (selection : Selection) (document : TextDocument)
  : result (option Selection) :=
  let anchor := anchor selection in
  let active := active selection in
  if isEmpty selection then
    text ← lineAt document (line anchor);
    if character anchor <? String.length text then
      mret (Some (mkSelection (mkPosition (line anchor) (character anchor + 1)) active))
    else if line anchor + 1 <? lineCount document then
      mret (Some (mkSelection (mkPosition (line anchor + 1) 0) active))
    else mret None
  else if (line anchor =? line active) && (character anchor + 1 =? character active) then
    mret (Some (mkSelection active anchor))
  else if (character active =? 0) && (line active =? line anchor + 1) then
    text ← lineAt document (line anchor);
    if String.length text =? character anchor
    then mret (Some (mkSelection active anchor))
    else mret None
  else mret None.

(** The loop of [normalizeSelections], from index [i]: no array is allocated
    as long as no selection changes. *)
Fixpoint normalizeLoop (selections : list Selection) (document : TextDocument)
    (i : nat) (rest : list Selection) (newSelections : option (list Selection))
  : result (option (list Selection)) :=
  match rest with
  | [] => mret newSelections
  | selection :: rest =>
      changed ← normalized selection document;
      match changed with
      | None =>
          normalizeLoop selections document (S i) rest
            (match newSelections with
             | Some newSelections => Some (newSelections ++ [selection])
             | None => None
             end)
      | Some selection' =>
          normalizeLoop selections document (S i) rest
            (Some (default (take i selections) newSelections ++ [selection']))
      end
  end.

Definition normalizeSelections (selections : list Selection) (document : TextDocument)
  : result (list Selection) :=
  newSelections ← normalizeLoop selections document 0 selections None;
  mret (default selections newSelections).

(** One iteration of the loop of [fromCharacterMode]. *)
Definition fromCharacterMode1 (selection : Selection) (document : TextDocument)
    (direction : Direction) : result Selection :=
  let selectionActive := active selection in
  let selectionActiveLine := line selectionActive in
  let selectionActiveCharacter := character selectionActive in
  let selectionAnchor := anchor selection in
  let selectionAnchorLine := line selectionAnchor in
  let selectionAnchorCharacter := character selectionAnchor in
  let isEmptyOrForwardFacing :=
    (selectionAnchorLine <? selectionActiveLine)
    || ((selectionAnchorLine =? selectionActiveLine)
        && (selectionAnchorCharacter <=? selectionActiveCharacter)) in
  let reverse :=
    match direction with Backward => true | Forward => false end
    && (selectionActiveLine =? selectionAnchorLine)
    && (selectionActiveCharacter =? selectionAnchorCharacter) in
  let extended active :=
    if reverse then mkSelection active selectionAnchor
    else mkSelection selectionAnchor active in
  if isEmptyOrForwardFacing then
    text ← lineAt document selectionActiveLine;
    let lineLength := String.length text in
    if selectionActiveCharacter =? lineLength then
      if selectionActiveLine + 1 <? lineCount document
      then mret (extended (mkPosition (selectionActiveLine + 1) 0))
      else mret selection
    else
      mret (extended (mkPosition selectionActiveLine (selectionActiveCharacter + 1)))
  else mret selection.

Fixpoint fromCharacterMode (selections : list Selection) (document : TextDocument)
    (direction : Direction) : result (list Selection) :=
  match selections with
  | [] => mret []
  | selection :: rest =>
      s ← fromCharacterMode1 selection document direction;
      caretModeSelections ← fromCharacterMode rest document direction;
      mret (s :: caretModeSelections)
  end.

(** One iteration of the loop of [toCharacterMode]. *)
Definition toCharacterMode1 (selection : Selection) (document : TextDocument)
  : result Selection :=
  let selectionActive := active selection in
  let selectionActiveLine := line selectionActive in
  let selectionActiveCharacter := character selectionActive in
  let selectionAnchor := anchor selection in
  let selectionAnchorLine := line selectionAnchor in
  let selectionAnchorCharacter := character selectionAnchor in
  if selectionAnchorLine =? selectionActiveLine then
    if selectionAnchorCharacter =? selectionActiveCharacter + 1 then
      mret (mkSelection selectionActive selectionActive)
    else if selectionAnchorCharacter <? selectionActiveCharacter then
      mret (mkSelection selectionAnchor
              (mkPosition selectionActiveLine (selectionActiveCharacter - 1)))
    else mret selection
  else if selectionAnchorLine <? selectionActiveLine then
    if 0 <? selectionActiveCharacter then
      mret (mkSelection selectionAnchor
              (mkPosition selectionActiveLine (selectionActiveCharacter - 1)))
    else
      let activePrevLine := selectionActiveLine - 1 in
      text ← lineAt document activePrevLine;
      mret (mkSelection selectionAnchor (mkPosition activePrevLine (String.length text)))
  else mret selection.

Fixpoint toCharacterMode (selections : list Selection) (document : TextDocument)
  : result (list Selection) :=
  match selections with
  | [] => mret []
  | selection :: rest =>
      s ← toCharacterMode1 selection document;
      characterModeSelections ← toCharacterMode rest document;
      mret (s :: characterModeSelections)
  end.

End Earlier.

(** ** Registers ([state/registers.ts])

    A string is the sequence of its code units; the model covers the strings
    whose code units are all below 256, on which [toLowerCase] adds 32 to
    the code units of the capital letters ([A] to [Z], and 192 to 222 but
    215) and keeps the others.  Flags are sets of bits: integers from 0 to
    [2^31 - 1], on which the bitwise operators of JavaScript are those of
    [Z]. *)

Definition charCodeAt0 (s : string) : option nat :=
  match s with
  | String c _ => Some (Ascii.nat_of_ascii c)
  | EmptyString => None
  end.

Definition fromCharCode (n : nat) : string :=
  String (Ascii.ascii_of_nat n) EmptyString.

Definition toLowerCase1 (c : Ascii.ascii) : Ascii.ascii :=
  let n := Ascii.nat_of_ascii c in
  if ((65 <=? n) && (n <=? 90))
     || ((192 <=? n) && (n <=? 222) && negb (n =? 215))
  then Ascii.ascii_of_nat (n + 32)
  else c.

Fixpoint toLowerCase (s : string) : string :=
  match s with
  | EmptyString => EmptyString
  | String c s => String (toLowerCase1 c) (toLowerCase s)
  end.

(** [(n).toString()] on a non-negative integer. *)
Definition toString (n : nat) : string :=
  DecimalString.NilZero.string_of_uint (Nat.to_uint n).

Module Register.

Module Flags.
Definition None : Z := 0.
Definition CanRead : Z := 1.
Definition CanWrite : Z := 2.
Definition CanReadSelections : Z := 4.
Definition CanWriteSelections : Z := 8.
Definition CanReadWriteMacros : Z := 16.
End Flags.

(** The abstract class: its two abstract members. *)
Record t := mk { name : string; flags : Z }.

Definition canRead (this : t) : bool :=
  (Z.land (flags this) Flags.CanRead =? Flags.CanRead)%Z.

Definition canWrite (this : t) : bool :=
  (Z.land (flags this) Flags.CanWrite =? Flags.CanWrite)%Z.

Definition canReadSelections (this : t) : bool :=
  (Z.land (flags this) Flags.CanReadSelections =? Flags.CanReadSelections)%Z.

Definition canWriteSelections (this : t) : bool :=
  (Z.land (flags this) Flags.CanWriteSelections =? Flags.CanWriteSelections)%Z.

Definition canReadRecordedCommands (this : t) : bool :=
  (Z.land (flags this) Flags.CanReadWriteMacros =? Flags.CanReadWriteMacros)%Z.

Definition canWriteRecordedCommands (this : t) : bool :=
  (Z.land (flags this) Flags.CanReadWriteMacros =? Flags.CanReadWriteMacros)%Z.

Definition hasFlags (this : t) (flags_ : Z) : bool :=
  (Z.land (flags this) flags_ =? flags_)%Z.

(** The outcome of a check: nothing, or an [Error] with its message. *)
Inductive Checked :=
| Passed
| Raised (message : string).

Definition cannot (this : t) (what : string) : Checked :=
  Raised ("register " ++ fromCharCode 34 ++ name this ++ fromCharCode 34
          ++ " cannot be used to " ++ what).

(** A number is truthy when it is not zero. *)
Definition nonzero (n : Z) : bool := negb (n =? 0)%Z.

Definition checkFlags (this : t) (flags_ : Z) : Checked :=
  let f := flags this in
  if nonzero (Z.land flags_ Flags.CanRead)
     && negb (nonzero (Z.land f Flags.CanRead))
  then cannot this "read text"
  else if nonzero (Z.land flags_ Flags.CanReadSelections)
          && negb (nonzero (Z.land f Flags.CanReadSelections))
  then cannot this "read selections"
  else if nonzero (Z.land flags_ Flags.CanReadWriteMacros)
          && negb (nonzero (Z.land f Flags.CanReadWriteMacros))
  then cannot this "play or create recordings"
  else if nonzero (Z.land flags_ Flags.CanWrite)
          && negb (nonzero (Z.land f Flags.CanWrite))
  then cannot this "save text"
  else if nonzero (Z.land flags_ Flags.CanWriteSelections)
          && negb (nonzero (Z.land f Flags.CanWriteSelections))
  then cannot this "save selections"
  else Passed.

Definition ensureCanRead (this : t) : Checked := checkFlags this Flags.CanRead.
Definition ensureCanWrite (this : t) : Checked := checkFlags this Flags.CanWrite.
Definition ensureCanReadSelections (this : t) : Checked :=
  checkFlags this Flags.CanReadSelections.
Definition ensureCanWriteSelections (this : t) : Checked :=
  checkFlags this Flags.CanWriteSelections.
Definition ensureCanReadRecordedCommands (this : t) : Checked :=
  checkFlags this Flags.CanReadWriteMacros.
Definition ensureCanWriteRecordedCommands (this : t) : Checked :=
  checkFlags this Flags.CanReadWriteMacros.

(** [withFlags]: the register itself, or the error of [checkFlags]. *)
Definition withFlags (this : t) (flags_ : Z) : t + string :=
  match checkFlags this flags_ with
  | Passed => inl this
  | Raised message => inr message
  end.

End Register.

(** The functions given to the special registers.  All but [lastMatch]
    read or change the editor, which is outside the model. *)
Inductive Getter :=
| lastMatch (i : nat)
| fileName
| selectedTexts
| selectionIndices
| emptyString
| prompted
| noStrings.

Inductive Setter := openDocument | replaceSelected | forget.

(** The concrete classes.  The fields [_recording] and [_selections] of a
    general-purpose register hold objects of modules that are not among the
    sources, and no function of the register set reads them. *)
Record GeneralPurposeRegister := mkGeneralPurposeRegister {
  GeneralPurposeRegister_name : string;
  _values : option (list string)
}.

Record SpecialRegister := mkSpecialRegister {
  SpecialRegister_name : string;
  getter : Getter;
  setter : option Setter
}.

Record ClipboardRegister := mkClipboardRegister {
  _lastStrings : option (list string);
  _lastRawText : option string
}.

Inductive RegisterObject :=
| General (register : GeneralPurposeRegister)
| Special (register : SpecialRegister)
| Clipboard (register : ClipboardRegister).

(** The members [name] and [flags] of each class. *)
Definition asRegister (object : RegisterObject) : Register.t :=
  match object with
  | General register =>
      Register.mk (GeneralPurposeRegister_name register)
        (Z.lor Register.Flags.CanRead
           (Z.lor Register.Flags.CanReadSelections
              (Z.lor Register.Flags.CanReadWriteMacros
                 (Z.lor Register.Flags.CanWrite Register.Flags.CanWriteSelections))))
  | Special register =>
      Register.mk (SpecialRegister_name register)
        (match setter register with
         | None => Register.Flags.CanRead
         | Some _ => Z.lor Register.Flags.CanRead Register.Flags.CanWrite
         end)
  | Clipboard register =>
      Register.mk (fromCharCode 34)
        (Z.lor Register.Flags.CanRead Register.Flags.CanWrite)
  end.

(** [set] and [get] of a general-purpose register. *)
Definition GeneralPurposeRegister_set (values : list string)
    (this : GeneralPurposeRegister) : GeneralPurposeRegister :=
  mkGeneralPurposeRegister (GeneralPurposeRegister_name this) (Some values).


(** [set] of a special register: the function to call with the values, or
    [None] when an error is raised. *)
Definition SpecialRegister_set (this : SpecialRegister) : option Setter :=
  setter this.

(** [set] of the clipboard register, with the line break of the document:
    the register afterwards, and the text written to the clipboard. *)
Definition ClipboardRegister_set (newline : string) (values : list string)
    (this : ClipboardRegister) : ClipboardRegister * string :=
  let _lastRawText := String.concat newline values in
  (mkClipboardRegister (Some values) (Some _lastRawText), _lastRawText).


(** [new GeneralPurposeRegister(name)]. *)
Definition newGeneralPurposeRegister (name : string) : RegisterObject :=
  General (mkGeneralPurposeRegister name None).

Module RegisterSet.

(** A set of registers.  The register objects live in [heap], in the order
    of their creation; the other fields hold their addresses. *)
Record t := mk {
  heap : list RegisterObject;
  _named : gmap string nat;
  _letters : list nat;
  _digits : list nat;
  _lastMatches : list (list (option string));
  dquote : nat;
  slash : nat;
  arobase : nat;
  caret : nat;
  pipe : nat;
  percent : nat;
  dot : nat;
  hash : nat;
  underscore : nat;
  colon : nat;
  null : nat
}.

(** The field initializers, in their order. *)
Definition initialized : t :=
  let letters :=
    (fun i => newGeneralPurposeRegister (fromCharCode (97 + i))) <$> seq 0 26 in
  let digits :=
    (fun i => Special (mkSpecialRegister (toString (i + 1)) (lastMatch i) None))
    <$> seq 0 10 in
  let fields :=
    [ Clipboard (mkClipboardRegister None None);
      newGeneralPurposeRegister "/";
      newGeneralPurposeRegister "@";
      newGeneralPurposeRegister "^";
      newGeneralPurposeRegister "|";
      Special (mkSpecialRegister "%" fileName (Some openDocument));
      Special (mkSpecialRegister "." selectedTexts (Some replaceSelected));
      Special (mkSpecialRegister "#" selectionIndices None);
      Special (mkSpecialRegister "_" emptyString None);
      Special (mkSpecialRegister ":" prompted None);
      Special (mkSpecialRegister "null" noStrings (Some forget)) ] in
  mk (letters ++ digits ++ fields) ∅ (seq 0 26) (seq 26 10) []
     36 37 38 39 40 41 42 43 44 45 46.

Definition setLetter (i : nat) (register : nat) (this : t) : t :=
  mk (heap this) (_named this) (<[i := register]> (_letters this)) (_digits this)
     (_lastMatches this) (dquote this) (slash this) (arobase this) (caret this)
     (pipe this) (percent this) (dot this) (hash this) (underscore this)
     (colon this) (null this).

Definition setNamed (key : string) (register : nat) (this : t) : t :=
  mk (heap this) (<[key := register]> (_named this)) (_letters this) (_digits this)
     (_lastMatches this) (dquote this) (slash this) (arobase this) (caret this)
     (pipe this) (percent this) (dot this) (hash this) (underscore this)
     (colon this) (null this).

Definition allocate (object : RegisterObject) (this : t) : nat * t :=
  (length (heap this),
   mk (heap this ++ [object]) (_named this) (_letters this) (_digits this)
      (_lastMatches this) (dquote this) (slash this) (arobase this) (caret this)
      (pipe this) (percent this) (dot this) (hash this) (underscore this)
      (colon this) (null this)).

Definition setHeap (heap_ : list RegisterObject) (this : t) : t :=
  mk heap_ (_named this) (_letters this) (_digits this)
     (_lastMatches this) (dquote this) (slash this) (arobase this) (caret this)
     (pipe this) (percent this) (dot this) (hash this) (underscore this)
     (colon this) (null this).

Definition setLastMatches (transposed : list (list (option string))) (this : t) : t :=
  mk (heap this) (_named this) (_letters this) (_digits this)
     transposed (dquote this) (slash this) (arobase this) (caret this)
     (pipe this) (percent this) (dot this) (hash this) (underscore this)
     (colon this) (null this).

(** The loop of the constructor.  The first code unit of each long name is a
    small letter, so that each assignment is within the array. *)
Fixpoint constructorLoop (entries : list (string * nat)) (this : t) : t :=
  match entries with
  | [] => this
  | (longName, register) :: entries =>
      let this :=
        match charCodeAt0 longName with
        | Some code => setLetter (code - 97) register this
        | None => this
        end in
      constructorLoop entries (setNamed longName register this)
  end.

Definition new : t :=
  let this := initialized in
  let this :=
    constructorLoop
      [ ("dquote", dquote this); ("slash", slash this); ("arobase", arobase this);
        ("caret", caret this); ("pipe", pipe this); ("percent", percent this);
        ("dot", dot this); ("hash", hash this); ("underscore", underscore this);
        ("colon", colon this) ] this in
  let this := setNamed "" (null this) this in
  setNamed "null" (null this) this.

(** [get]: the address of the register, or [None] for [undefined], and the
    set after the call. *)
Definition getNamed (key : string) (this : t) : option nat * t :=
  let key := toLowerCase key in
  match _named this !! toLowerCase key with
  | Some register => (Some register, this)
  | None =>
      let '(register, this) := allocate (newGeneralPurposeRegister key) this in
      (Some register, setNamed key register this)
  end.

Definition get (key : string) (this : t) : option nat * t :=
  match key with
  | String c EmptyString =>
      let charCode := Ascii.nat_of_ascii c in
      if charCode =? 34 then (Some (dquote this), this)
      else if charCode =? 47 then (Some (slash this), this)
      else if charCode =? 64 then (Some (arobase this), this)
      else if charCode =? 94 then (Some (caret this), this)
      else if charCode =? 124 then (Some (pipe this), this)
      else if charCode =? 37 then (Some (percent this), this)
      else if charCode =? 46 then (Some (dot this), this)
      else if charCode =? 35 then (Some (hash this), this)
      else if charCode =? 95 then (Some (underscore this), this)
      else if charCode =? 58 then (Some (colon this), this)
      else if (97 <=? charCode) && (charCode <=? 122)
      then (_letters this !! (charCode - 97), this)
      else if (65 <=? charCode) && (charCode <=? 90)
      then (_letters this !! (charCode - 65), this)
      else if (49 <=? charCode) && (charCode <=? 57)
      then (_digits this !! (charCode - 49), this)
      else getNamed key this
  | _ => getNamed key this
  end.

(** [match[i]]: [None] for [undefined], also beyond the end of the array. *)
Definition group (i : nat) (match_ : list (option string)) : option string :=
  mjoin (match_ !! i).

(** The inner loop of [updateRegExpMatches]. *)
Fixpoint strings (matches : list (list (option string))) (i : nat)
  : list (option string) :=
  match matches with
  | [] => []
  | match_ :: matches => group i match_ :: strings matches i
  end.

(** The outer loop of [updateRegExpMatches], from index [i], with
    [remaining] indices below [groupsCount]. *)
Fixpoint transposeLoop (matches : list (list (option string))) (i remaining : nat)
  : list (list (option string)) :=
  match remaining with
  | 0 => []
  | S remaining => strings matches i :: transposeLoop matches (S i) remaining
  end.

(** [updateRegExpMatches]: [None] when an error is raised, which the
    assertion does on an empty array (as would the read of
    [matches[0].length]). *)
Definition updateRegExpMatches (matches : list (list (option string))) (this : t)
  : option t :=
  match matches with
  | [] => None
  | first :: _ =>
      let groupsCount := length first in
      Some (setLastMatches (transposeLoop matches 1 (groupsCount - 1)) this)
  end.

(** The function given to the numbered register of index [i]:
    [() => Promise.resolve(this._lastMatches[i])]. *)
Definition lastMatches (i : nat) (this : t) : option (list (option string)) :=
  _lastMatches this !! i.

End RegisterSet.

(** ** The register of a command ([getRegister] of the command loader
    that [commands/load-all.build.ts] writes)

    A [Register] instance is taken by [getRegister] as it is, wherever it
    lives: in the set [registers], at the address [home], or elsewhere (in
    the registers of a document, for instance).  [getRegister] reads its
    members [name] and [flags] only.  The [register] of the argument of a
    command is the name of a register, a [Register] instance, or anything
    else, [undefined] for instance. *)

Record RegisterInstance := mkRegisterInstance {
  home : option nat;
  members : Register.t
}.

Inductive RegisterArgument :=
| registerName (name : string)
| registerObject (register : RegisterInstance)
| registerOther.

(** What [registers.get(key)] returns: the instance at the address that
    [get] gives, or [None] for [undefined]. *)
Definition getInstance (key : string) (registers : RegisterSet.t)
  : option RegisterInstance * RegisterSet.t :=
  let '(register, registers) := RegisterSet.get key registers in
  (address ← register;
   object ← RegisterSet.heap registers !! address;
   Some (mkRegisterInstance (Some address) (asRegister object)),
   registers).

(** [getRegister]: the register with the required flags, or the message of
    the error raised; the [register] of the argument afterwards; the set of
    registers afterwards.  [undefined] has no [checkFlags] to call. *)
Definition getRegister (argument : RegisterArgument) (defaultRegisterName : string)
    (requiredFlags : Z) (registers : RegisterSet.t)
  : (RegisterInstance + string) * RegisterArgument * RegisterSet.t :=
  let '(register, registers) :=
    match argument with
    | registerName name => getInstance name registers
    | registerObject register => (Some register, registers)
    | registerOther => getInstance defaultRegisterName registers
    end in
  match register with
  | Some register =>
      match Register.checkFlags (members register) requiredFlags with
      | Register.Passed => (inl register, registerObject register, registers)
      | Register.Raised message => (inr message, argument, registers)
      end
  | None => (inr "TypeError"%string, argument, registers)
  end.

(** ** Vocabulary of the properties *)

(** Short name for the selections of the examples. *)
Definition sel := Selections.fromAnchorActive.

(** The absolute end of the buffer: the end of the text of the last line. *)
Definition atEndOfBuffer (document : TextDocument) (p : Position) : Prop :=
  line p + 1 = lineCount document
  /\ exists text, lines document !! line p = Some text /\ character p = String.length text.


(** The function that returns at once what [f] returns sooner or later. *)
Definition synchronous (f : ByIndex) : ByIndex :=
  fun i selection document => await (f i selection document).

(** A function with an immediate result at index 0 and a suspended one at
    index 1. *)
Definition mixedMapper : ByIndex :=
  fun i _ _ => match i with 0 => VNumber 1 | _ => VThenable VUndefined end.

Definition textMapper (f : Mapper) : ByIndex :=
  fun i selection document => f (getText document selection) selection i.

(** The results of the per-selection function on the current selections, in
    the order of the selections. *)
Definition perSelection (f : Mapper) (context : Context) : list Value :=
  callLoop (textMapper f) (document context) 0 (selections context).

(** What a function passed to [withFallback] may return
    ([SelectionOrFallback]): nothing, a selection, or an array of one
    selection, the fallback. *)
Inductive SelectionOrFallback : Value -> Prop :=
| absent : SelectionOrFallback VUndefined
| real s : SelectionOrFallback (VSelection s)
| fallback s : SelectionOrFallback (VArray [VSelection s]).

Fixpoint realSelections (values : list Value) : list Selection :=
  match values with
  | [] => []
  | VSelection s :: values => s :: realSelections values
  | _ :: values => realSelections values
  end.

Fixpoint fallbackSelections (values : list Value) : list Selection :=
  match values with
  | [] => []
  | VArray [VSelection s] :: values => s :: fallbackSelections values
  | _ :: values => fallbackSelections values
  end.

(** The set the spec asks for: the real selections when there is one, the
    fallback selections otherwise. *)
Definition chosenSelections (values : list Value) : list Selection :=
  match realSelections values with
  | [] => fallbackSelections values
  | ss => ss
  end.

(** The context after a commit of [ss], whose first selection is [first]. *)
Definition committed (context : Context) (first : Selection) (ss : list Selection)
  : Context :=
  mkContext (document context) ss (revealed context ++ [active first]).

(** A mapper that keeps the second selection only, and one that offers every
    selection as a fallback. *)
Definition keepSecond : Mapper :=
  fun _ selection i => match i with 1 => selection | _ => VArray [selection] end.

Definition allFallbacks : Mapper := fun _ selection _ => VArray [selection].

(** A mapper that returns the first selection at once and suspends the later
    ones, and one that suspends the first selection and offers the later
    ones at once, as fallbacks. *)
Definition laterSuspended : Mapper :=
  fun _ selection i => match i with 0 => selection | _ => VThenable selection end.

Definition firstSuspended : Mapper :=
  fun _ selection i => match i with 0 => VThenable selection | _ => VArray [selection] end.

(** A suspended result. *)
Definition suspended (v : Value) : Prop := exists w, v = VThenable w.

(** Selections not yet marked as ignored. *)
Fixpoint pending (ignoreSelections_ : list nat) : nat :=
  match ignoreSelections_ with
  | [] => 0
  | 1 :: rest => pending rest
  | _ :: rest => S (pending rest)
  end.

(** The end of the selection sits at column 0 of a line strictly after the
    line where the selection starts. *)
Definition endsAfterLineBreak (selection : Selection) : Prop :=
  character (end_ selection) = 0 /\ line (start selection) < line (end_ selection).

(** The index that [rotateLoop] writes for the selection at index [i]. *)
Definition target (by_ len : Z) (i : nat) : nat :=
  Z.to_nat (Z.rem (Z.of_nat i + by_) len).

(** What is left to do for the inner loop at index [j], over [len]
    selections. *)
Definition innerMeasure (len j : nat) (st : MergeState) : nat :=
  pending (ignoreSelections st) * (len + 1) + (len - j).

(** [toCharacterMode(fromCharacterMode(selections))]. *)
Definition characterTrip (selections : list Selection) (document : TextDocument)
  : result (list Selection) :=
  caretModeSelections ← Selections.fromCharacterMode selections document;
  Selections.toCharacterMode caretModeSelections document.

(** A selection that [fromCharacterMode] extends: empty or forward-facing,
    with both positions in the document, the active one not at the absolute
    end of the buffer. *)
Definition extensible (document : TextDocument) (selection : Selection) : Prop :=
  validPosition document (anchor selection)
  /\ validPosition document (active selection)
  /\ isBefore (active selection) (anchor selection) = false
  /\ ~ atEndOfBuffer document (active selection).

(** What the outer loop has pushed before index [i]: one selection at least
    once it has started to build a new array, and [i] at most. *)
Definition pushedBefore (i : nat) (newSelections_ : option (list Selection)) : Prop :=
  match newSelections_ with
  | Some l => 1 <= length l <= i
  | None => True
  end.

(** Two selections that are apart: one ends strictly before the other
    starts. *)
Definition apart (a b : Selection) : Prop :=
  isBefore (end_ a) (start b) = true \/ isBefore (end_ b) (start a) = true.

(** The list [out] holds the selections of [selections_], each moved by
    [by_] places towards the end, around the end of the list. *)
Definition Rotated (by_ : Z) (selections_ out : list Selection) : Prop :=
  length out = length selections_
  /\ forall i selection,
       selections_ !! i = Some selection ->
       out !! Z.to_nat ((Z.of_nat i + by_) mod Z.of_nat (length selections_))
       = Some selection.

(** The selections, in their order, whose index and value pass [test]. *)
Definition keptSelections (test : nat -> Selection -> bool) (i : nat)
    (selections_ : list Selection) : list Selection :=
  (filter (fun '(j, s) => test j s = true)
     (zip (seq i (length selections_)) selections_)).*2.

(** An outcome that is all or nothing with respect to the context before:
    a failure with the context as it was, or a success with a list of
    selections that is not empty and is the current set of the new context,
    whose document is the same and whose reveal log has one more entry, the
    active position of the first selection. *)
Definition AllOrNothing (context : Context)
    (outcome : Completion (list Selection) * Context) : Prop :=
  match outcome with
  | (Returned ss, context') | (Fulfilled ss, context') =>
      exists first rest,
        ss = first :: rest
        /\ selections context' = ss
        /\ document context' = document context
        /\ revealed context' = revealed context ++ [active first]
  | (Thrown _, context') | (Rejected _, context') => context' = context
  end.

(** What [normalizeSelections] makes of one selection. *)
Definition normalize1 (document : TextDocument) (selection : Selection)
  : result Selection :=
  changed ← Earlier.normalized selection document;
  mret (default selection changed).

(** A 1-character selection whose active position is after its anchor: a
    character of a line, or the line break at the end of a line. *)
Definition forwardCharacter (document : TextDocument) (s : Selection) : Prop :=
  (line (anchor s) = line (active s) /\ character (anchor s) + 1 = character (active s))
  \/ (line (active s) = line (anchor s) + 1 /\ character (active s) = 0
      /\ exists text, lines document !! line (anchor s) = Some text
                      /\ String.length text = character (anchor s)).

(** What normalization promises of a selection [s] and its result [s']. *)
Definition Normalized (document : TextDocument) (s s' : Selection) : Prop :=
  start s' = start s
  /\ (isEmpty s = false -> end_ s' = end_ s)
  /\ (isEmpty s = true ->
      active s' = active s
      /\ (isEmpty s' = true <-> atEndOfBuffer document (active s)))
  /\ ~ forwardCharacter document s'.

(** The selection that the backward direction makes of the empty selection
    [s], when the forward direction makes [s'] of it. *)
Definition turned (s s' : Selection) : Selection :=
  if isEmpty s then mkSelection (active s') (anchor s') else s'.

(** The tests of [checkFlags] on the flags [f] of the register: none of
    the five capabilities is asked by [flags_] and missing from [f]. *)
Definition passes (f flags_ : Z) : bool :=
  forallb (fun flag => negb (Register.nonzero (Z.land flags_ flag)
                            && negb (Register.nonzero (Z.land f flag))))
    [Register.Flags.CanRead; Register.Flags.CanReadSelections;
     Register.Flags.CanReadWriteMacros; Register.Flags.CanWrite;
     Register.Flags.CanWriteSelections].

(** What a call of [set] that raises no error makes of a register. *)
Definition written (newline : string) (values : list string)
    (object : RegisterObject) : option RegisterObject :=
  match object with
  | General register => Some (General (GeneralPurposeRegister_set values register))
  | Special register =>
      match SpecialRegister_set register with
      | Some _ => Some object
      | None => None
      end
  | Clipboard register =>
      Some (Clipboard (ClipboardRegister_set newline values register).1)
  end.

(** The sets of registers that the program can hold: a new set, after any
    calls of [get] and [updateRegExpMatches], and of [set] on its
    registers. *)
Inductive reachable : RegisterSet.t -> Prop :=
| reachable_new : reachable RegisterSet.new
| reachable_get key this :
    reachable this -> reachable (RegisterSet.get key this).2
| reachable_updateRegExpMatches matches this this' :
    reachable this ->
    RegisterSet.updateRegExpMatches matches this = Some this' ->
    reachable this'
| reachable_set register newline values this object object' :
    reachable this ->
    RegisterSet.heap this !! register = Some object ->
    written newline values object = Some object' ->
    reachable (RegisterSet.setHeap (<[register := object']> (RegisterSet.heap this)) this).

(** Two states of one register: the same class, name and functions. *)
Definition sameRegister (object object' : RegisterObject) : Prop :=
  match object, object' with
  | General register, General register' =>
      GeneralPurposeRegister_name register = GeneralPurposeRegister_name register'
  | Special register, Special register' => register = register'
  | Clipboard _, Clipboard _ => True
  | _, _ => False
  end.

(** The registers of [heap] are registers of [heap'], in a later state. *)
Definition evolved (heap heap' : list RegisterObject) : Prop :=
  forall register object,
    heap !! register = Some object ->
    exists object', heap' !! register = Some object' /\ sameRegister object object'.

(** The registers of the fields of a set, and their long names. *)
Definition fieldRegisters (this : RegisterSet.t) : list nat :=
  [RegisterSet.dquote this; RegisterSet.slash this; RegisterSet.arobase this;
   RegisterSet.caret this; RegisterSet.pipe this; RegisterSet.percent this;
   RegisterSet.dot this; RegisterSet.hash this; RegisterSet.underscore this;
   RegisterSet.colon this; RegisterSet.null this].

Definition longNames : list string :=
  ["dquote"; "slash"; "arobase"; "caret"; "pipe"; "percent"; "dot"; "hash";
   "underscore"; "colon"; "null"]%string.

Definition symbols : list string :=
  [fromCharCode 34; "/"; "@"; "^"; "|"; "%"; "."; "#"; "_"; ":"; ""]%string.

(** What stays true of a set of registers. *)
Record Invariant (this : RegisterSet.t) : Prop := {
  Invariant_letters : RegisterSet._letters this = RegisterSet._letters RegisterSet.new;
  Invariant_digits : RegisterSet._digits this = RegisterSet._digits RegisterSet.new;
  Invariant_fields : fieldRegisters this = seq 36 11;
  Invariant_heap : evolved (RegisterSet.heap RegisterSet.new) (RegisterSet.heap this);
  Invariant_longNames :
    Forall2 (fun longName register => RegisterSet._named this !! longName = Some register)
      (""%string :: longNames) (46 :: seq 36 11);
  Invariant_named :
    map_Forall (fun key register =>
                  36 <= register < length (RegisterSet.heap this)
                  /\ (47 <= register ->
                      exists object,
                        RegisterSet.heap this !! register = Some object
                        /\ sameRegister (newGeneralPurposeRegister key) object))
      (RegisterSet._named this)
}.

(** What a call of [get] can give on the set [this]: a register of the set,
    which is left as it is, or a new general-purpose register for a name
    that the set did not know. *)
Inductive Got (key : string) (this : RegisterSet.t)
  : option nat * RegisterSet.t -> Prop :=
| Got_field register :
    In register (fieldRegisters this) -> Got key this (Some register, this)
| Got_letter i :
    i < 26 -> Got key this (RegisterSet._letters this !! i, this)
| Got_digit i :
    i < 9 -> Got key this (RegisterSet._digits this !! i, this)
| Got_named register :
    RegisterSet._named this !! toLowerCase key = Some register ->
    Got key this (Some register, this)
| Got_created :
    RegisterSet._named this !! toLowerCase key = None ->
    Got key this
      (Some (length (RegisterSet.heap this)),
       RegisterSet.setNamed (toLowerCase key) (length (RegisterSet.heap this))
         (RegisterSet.allocate (newGeneralPurposeRegister (toLowerCase key)) this).2).

(** The name of the register that [get] gives for the letter of index [i]. *)
Definition letterName (i : nat) : string :=
  match i with
  | 0 => "@"
  | 2 => ":"
  | 3 => "."
  | 7 => "#"
  | 15 => "%"
  | 18 => "/"
  | 20 => "_"
  | _ => fromCharCode (97 + i)
  end.


(** A selection whose anchor is at the start of the line after the line
    of its active position. *)
Definition anchoredAfterLineBreak (s : Selection) : Prop :=
  line (anchor s) = line (active s) + 1 /\ character (anchor s) = 0.

(** [toCharacterMode(normalizeSelections(selections))], in the earlier
    revision. *)
Definition normalizedTrip (selections : list Selection) (document : TextDocument)
  : result (list Selection) :=
  normalized ← Earlier.normalizeSelections selections document;
  Earlier.toCharacterMode normalized document.

(** An empty selection in the document that normalization extends within
    its line, or leaves as it is. *)
Definition withinLine (document : TextDocument) (s : Selection) : Prop :=
  isEmpty s = true
  /\ exists text,
       lines document !! line (active s) = Some text
       /\ (character (active s) < String.length text
           \/ character (active s) = String.length text
              /\ line (active s) + 1 = lineCount document).

(** * Properties *)

(** ** The examples of the documentation *)

Example setSelections_empty context :
  setSelections [] context = (Throw EmptySelectionsError, context).
Proof. reflexivity. Qed.

Example setSelections_not_a_selection context :
  setSelections [VNumber 1] context = (Throw NotASelectionError, context).
Proof. reflexivity. Qed.

Example mergeOverlappingSelections_equal :
  mergeOverlappingSelections [sel 0 1 0 3; sel 0 1 0 3] false = Some [sel 0 1 0 3].
Proof. reflexivity. Qed.

Example mergeOverlappingSelections_equal_empty :
  mergeOverlappingSelections [sel 0 1 0 1; sel 0 1 0 1] false = Some [sel 0 1 0 1].
Proof. reflexivity. Qed.

Example mergeOverlappingSelections_overlapping :
  mergeOverlappingSelections [sel 0 0 0 3; sel 0 1 0 4] false = Some [sel 0 0 0 4].
Proof. reflexivity. Qed.

Example mergeOverlappingSelections_consecutive :
  mergeOverlappingSelections [sel 0 0 0 2; sel 0 2 0 4] false
  = Some [sel 0 0 0 2; sel 0 2 0 4]
  /\ mergeConsecutive [sel 0 0 0 2; sel 0 2 0 4] = Some [sel 0 0 0 4].
Proof. split; reflexivity. Qed.

Example mergeOverlappingSelections_consecutive_reversed :
  mergeOverlappingSelections [sel 0 2 0 4; sel 0 0 0 2] false
  = Some [sel 0 2 0 4; sel 0 0 0 2]
  /\ mergeConsecutive [sel 0 2 0 4; sel 0 0 0 2] = Some [sel 0 0 0 4].
Proof. split; reflexivity. Qed.

Example toCharacterMode_examples :
  let document := mkDocument ["a"; "b"]%string in
  Selections.toCharacterMode
    [sel 0 0 0 1; sel 0 1 1 0; sel 0 0 1 1; sel 0 1 0 0; sel 1 0 0 1; sel 1 1 0 0;
     sel 1 1 1 1] document
  = Ok [sel 0 0 0 0; sel 0 1 0 1; sel 0 0 1 0; sel 0 0 0 0; sel 0 1 0 1; sel 1 1 0 0;
        sel 1 1 1 1].
Proof. reflexivity. Qed.

Example fromCharacterMode_examples :
  Selections.fromCharacterMode [sel 0 0 0 0] (mkDocument [""%string]) = Ok [sel 0 0 0 0]
  /\ Selections.fromCharacterMode [sel 0 0 0 0; sel 0 1 0 1; sel 2 0 2 0]
       (mkDocument ["a"; "b"; ""]%string)
     = Ok [sel 0 0 0 1; sel 0 1 1 0; sel 2 0 2 0].
Proof. split; reflexivity. Qed.

Example mapSelections_example :
  let context := mkContext (mkDocument ["foo 123"%string]) [sel 0 0 0 3; sel 0 4 0 7] [] in
  mapSelections
    (fun text _ _ => if String.eqb text "123" then VNumber 123 else VUndefined)
    None context
  = Returned [VNumber 123].
Proof. reflexivity. Qed.

(** ** Position comparisons *)

Lemma isBefore_spec a b :
  isBefore a b = true <->
  line a < line b \/ (line a = line b /\ character a < character b).
Proof.
  unfold isBefore.
  rewrite orb_true_iff, andb_true_iff, !Nat.ltb_lt, Nat.eqb_eq. tauto.
Qed.

Lemma isBefore_false a b :
  isBefore a b = false <->
  line b < line a \/ (line a = line b /\ character b <= character a).
Proof.
  rewrite <- not_true_iff_false, isBefore_spec. lia.
Qed.

Lemma isEqual_spec a b : isEqual a b = true <-> a = b.
Proof.
  unfold isEqual. rewrite andb_true_iff, !Nat.eqb_eq.
  destruct a, b; simpl. split; [intros [-> ->]; reflexivity | intros [= -> ->]; auto].
Qed.

Lemma start_le_end s :
  line (start s) < line (end_ s)
  \/ (line (start s) = line (end_ s) /\ character (start s) <= character (end_ s)).
Proof.
  unfold start, end_. destruct (isBefore (anchor s) (active s)) eqn:E.
  - apply isBefore_spec in E. lia.
  - apply isBefore_false in E. lia.
Qed.

Lemma isEmpty_start_end s : isEmpty s = true -> start s = end_ s.
Proof.
  unfold isEmpty, start, end_. intros H%isEqual_spec.
  rewrite H. destruct (isBefore _ _); reflexivity.
Qed.

Lemma isBefore_irrefl p : isBefore p p = false.
Proof. apply isBefore_false. lia. Qed.

Lemma isEqual_refl p : isEqual p p = true.
Proof. now apply isEqual_spec. Qed.

Lemma isEqual_start_end s : isEqual (start s) (end_ s) = isEmpty s.
Proof.
  unfold start, end_, isEmpty. destruct (isBefore (anchor s) (active s)); [reflexivity|].
  unfold isEqual. now rewrite (Nat.eqb_sym (line (active s))), (Nat.eqb_sym (character (active s))).
Qed.

Lemma isAfterOrEqual_end_start s : isAfterOrEqual (end_ s) (start s) = true.
Proof.
  unfold isAfterOrEqual. apply negb_true_iff, isBefore_false.
  pose proof (start_le_end s). lia.
Qed.

(** ** End of a selection *)

Section EndOfSelection.

Variable selection : Selection.

Lemma endsAfterLineBreak_test :
  negb (line (start selection) =? line (end_ selection))
  && (character (end_ selection) =? 0) = true
  <-> endsAfterLineBreak selection.
Proof.
  unfold endsAfterLineBreak.
  rewrite andb_true_iff, negb_true_iff, Nat.eqb_neq, Nat.eqb_eq.
  pose proof (start_le_end selection). lia.
Qed.

Lemma endsAfterLineBreak_not_empty :
  endsAfterLineBreak selection -> isEmpty selection = false.
Proof.
  intros [_ Hlt]. destruct (isEmpty selection) eqn:E; [|reflexivity].
  apply isEmpty_start_end in E. rewrite E in Hlt. lia.
Qed.

Lemma endLine_after_break : endsAfterLineBreak selection ->
  Selections.endLine selection = line (end_ selection) - 1.
Proof.
  intros H%endsAfterLineBreak_test. unfold Selections.endLine. now rewrite H.
Qed.

Lemma endLine_otherwise : ~ endsAfterLineBreak selection ->
  Selections.endLine selection = line (end_ selection).
Proof.
  intros H. unfold Selections.endLine.
  destruct (negb _ && _) eqn:E; [|reflexivity].
  now apply endsAfterLineBreak_test in E.
Qed.

End EndOfSelection.

(** C9.  A non-empty selection whose end is at character 0 of a line strictly
    after its start line ends, for [endLine] and [endPosition], at the end of
    the previous line (whose text exists as soon as the end of the selection
    lies in the document); for every other selection, the empty ones among
    them, [endLine] is [end.line] and [endPosition] is [end]. *)
Theorem endLine_endPosition_spec (selection : Selection) (document : TextDocument) :
  (isEmpty selection = false -> endsAfterLineBreak selection ->
     Selections.endLine selection = line (end_ selection) - 1
     /\ (line (end_ selection) < lineCount document ->
         exists text,
           lines document !! (line (end_ selection) - 1) = Some text
           /\ Selections.endPosition selection document
              = Ok (mkPosition (line (end_ selection) - 1) (String.length text))))
  /\ (~ (isEmpty selection = false /\ endsAfterLineBreak selection) ->
      Selections.endLine selection = line (end_ selection)
      /\ Selections.endPosition selection document = Ok (end_ selection)).
Proof.
  split.
  - intros _ Hbreak. pose proof (endLine_after_break _ Hbreak) as Hline.
    split; [exact Hline|]. intros Hcount.
    destruct (lookup_lt_is_Some_2 (lines document) (line (end_ selection) - 1))
      as [text Htext]; [unfold lineCount in Hcount; lia|].
    exists text. split; [exact Htext|].
    unfold Selections.endPosition. rewrite Hline.
    destruct Hbreak as [_ Hlt].
    replace (line (end_ selection) - 1 =? line (end_ selection)) with false
      by (symmetry; apply Nat.eqb_neq; lia).
    simpl. unfold lineAt. rewrite Htext. reflexivity.
  - intros Hnot.
    assert (Hno : ~ endsAfterLineBreak selection).
    { intros Hbreak. apply Hnot. split; [|exact Hbreak].
      now apply endsAfterLineBreak_not_empty. }
    pose proof (endLine_otherwise _ Hno) as Hline.
    split; [exact Hline|].
    unfold Selections.endPosition. rewrite Hline, Nat.eqb_refl. reflexivity.
Qed.

Lemma endLine_endPosition_spec_witness :
  let document := mkDocument ["ab"; "cd"]%string in
  (Selections.endLine (sel 0 1 1 0) = 0
   /\ Selections.endPosition (sel 0 1 1 0) document = Ok (mkPosition 0 2))
  /\ (Selections.endLine (sel 1 1 1 1) = 1
      /\ Selections.endPosition (sel 1 1 1 1) document = Ok (mkPosition 1 1)).
Proof.
  intros document. split.
  - destruct (endLine_endPosition_spec (sel 0 1 1 0) document) as [H _].
    destruct H as [Hline Hpos]; [reflexivity | split; [reflexivity | vm_compute; lia] |].
    split; [exact Hline|].
    destruct Hpos as [text [Htext Hpos]]; [vm_compute; lia|].
    injection Htext as <-. exact Hpos.
  - destruct (endLine_endPosition_spec (sel 1 1 1 1) document) as [_ H].
    apply H. intros [Hne _]. discriminate Hne.
Defined.

(** ** Mode translation *)

Lemma fromCharacterMode1_anchor selection document s :
  Selections.fromCharacterMode1 selection document = Ok s ->
  anchor s = anchor selection.
Proof.
  unfold Selections.fromCharacterMode1.
  destruct (_ || _); [|now intros [= <-]].
  destruct (lineAt document _) as [text|e]; simpl; [|discriminate].
  destruct (_ =? String.length text).
  - destruct (_ <? lineCount document); now intros [= <-].
  - now intros [= <-].
Qed.

Lemma fromCharacterMode1_returns selection document :
  line (active selection) < lineCount document ->
  exists s, Selections.fromCharacterMode1 selection document = Ok s.
Proof.
  intros Hline. unfold Selections.fromCharacterMode1.
  destruct (_ || _); [|eauto].
  destruct (lookup_lt_is_Some_2 (lines document) (line (active selection)) Hline)
    as [text Htext].
  unfold lineAt. rewrite Htext. simpl.
  destruct (_ =? String.length text); [destruct (_ <? lineCount document)|]; eauto.
Qed.

(** C10.  [fromCharacterMode] returns one selection per input selection, with
    the anchor of that input selection; and it does return when the active
    line of every selection exists in the document. *)
Theorem fromCharacterMode_preserves_anchor
    (selections : list Selection) (document : TextDocument) :
  (forall caretModeSelections,
     Selections.fromCharacterMode selections document = Ok caretModeSelections ->
     Forall2 (fun selection s => anchor s = anchor selection)
       selections caretModeSelections)
  /\ (Forall (fun selection => line (active selection) < lineCount document) selections ->
      exists caretModeSelections,
        Selections.fromCharacterMode selections document = Ok caretModeSelections).
Proof.
  split.
  - induction selections as [|selection rest IH]; intros out; simpl.
    + intros [= <-]. constructor.
    + destruct (Selections.fromCharacterMode1 selection document) as [s|e] eqn:E1;
        simpl; [|discriminate].
      destruct (Selections.fromCharacterMode rest document) as [ss|e];
        simpl; [|discriminate].
      intros [= <-]. constructor; [|now apply IH].
      now apply fromCharacterMode1_anchor with document.
  - induction 1 as [|selection rest Hline _ IH]; simpl; [eauto|].
    destruct (fromCharacterMode1_returns selection document Hline) as [s ->].
    destruct IH as [ss ->]. simpl. eauto.
Qed.

Lemma fromCharacterMode_preserves_anchor_witness :
  exists caretModeSelections,
    Selections.fromCharacterMode [sel 0 0 0 0; sel 0 2 0 1] (mkDocument ["ab"%string])
    = Ok caretModeSelections
    /\ Forall2 (fun selection s => anchor s = anchor selection)
         [sel 0 0 0 0; sel 0 2 0 1] caretModeSelections.
Proof.
  destruct (fromCharacterMode_preserves_anchor
              [sel 0 0 0 0; sel 0 2 0 1] (mkDocument ["ab"%string])) as [Hanchor Hret].
  destruct Hret as [out Hout].
  - repeat constructor.
  - exists out. split; [exact Hout | exact (Hanchor out Hout)].
Defined.





(** The translation the other way round: an empty or forward-facing
    selection that does not end at the absolute end of the buffer is
    extended by [fromCharacterMode] and brought back by [toCharacterMode]. *)
Lemma toCharacterMode_fromCharacterMode1 selection document :
  validPosition document (anchor selection) ->
  validPosition document (active selection) ->
  isBefore (active selection) (anchor selection) = false ->
  ~ atEndOfBuffer document (active selection) ->
  exists s, Selections.fromCharacterMode1 selection document = Ok s
            /\ Selections.toCharacterMode1 s document = Ok selection.
Proof.
  destruct selection as [[al ac] [bl bc]].
  intros (ta & Hta & Hac) (tb & Htb & Hbc) Hfwd Hend. simpl in *.
  apply isBefore_false in Hfwd. simpl in Hfwd.
  assert (Hforward : (al <? bl) || (al =? bl) && (ac <=? bc) = true).
  { destruct Hfwd as [Hlt | [-> Hle]].
    - apply Nat.ltb_lt in Hlt. now rewrite Hlt.
    - apply Nat.leb_le in Hle. now rewrite Nat.eqb_refl, Hle, orb_true_r. }
  unfold Selections.fromCharacterMode1, lineAt. simpl. rewrite Hforward, Htb. simpl.
  destruct (bc =? String.length tb) eqn:Eeol.
  - apply Nat.eqb_eq in Eeol.
    destruct (bl + 1 <? lineCount document) eqn:Elast.
    + eexists. split; [reflexivity|].
      unfold Selections.toCharacterMode1, lineAt. simpl.
      replace (al =? bl + 1) with false by (symmetry; apply Nat.eqb_neq; lia).
      replace (al <? bl + 1) with true by (symmetry; apply Nat.ltb_lt; lia).
      replace (bl + 1 - 1) with bl by lia. rewrite Htb. simpl. now rewrite Eeol.
    + exfalso. apply Hend. apply Nat.ltb_ge in Elast.
      apply lookup_lt_Some in Htb as Hlt. unfold lineCount in *.
      split; [unfold lineCount; simpl; lia | exists tb; now split].
  - apply Nat.eqb_neq in Eeol.
    eexists. split; [reflexivity|].
    unfold Selections.toCharacterMode1. simpl.
    replace (bc + 1 - 1) with bc by lia.
    destruct (al =? bl) eqn:El.
    + apply Nat.eqb_eq in El. subst bl. assert (ac <= bc) by lia.
      destruct (ac + 1 =? bc + 1) eqn:E1.
      * apply Nat.eqb_eq in E1. now replace bc with ac by lia.
      * apply Nat.eqb_neq in E1.
        replace (ac =? bc + 1 + 1) with false by (symmetry; apply Nat.eqb_neq; lia).
        now replace (ac <? bc + 1) with true by (symmetry; apply Nat.ltb_lt; lia).
    + apply Nat.eqb_neq in El.
      replace (al <? bl) with true by (symmetry; apply Nat.ltb_lt; lia).
      now replace (0 <? bc + 1) with true by (symmetry; apply Nat.ltb_lt; lia).
Qed.

(** ** Batch transforms *)

Lemma await_not_thenable v : forall w, await v <> VThenable w.
Proof.
  induction v; simpl; try discriminate. exact IHv.
Qed.

Lemma callLoop_synchronous f document rest : forall i,
  callLoop (synchronous f) document i rest = await <$> callLoop f document i rest.
Proof.
  induction rest as [|selection rest IH]; intros i; simpl; [reflexivity|].
  now rewrite IH.
Qed.

Lemma defined_cons v values :
  defined (v :: values) = (if isUndefined v then [] else [v]) ++ defined values.
Proof. simpl. now destruct (isUndefined v). Qed.

Lemma length_one_drop {A} (l : list A) : length l = 1 -> drop 1 l = [].
Proof. destruct l as [|x [|y l]]; simpl; intros; try discriminate; reflexivity. Qed.

(** C3, where the code departs from it.  On a one-selection list whose
    predicate returns [true] at once, [filterSelections.byIndex] returns the
    array [[true]]: it holds the result of the predicate
    ([firstResult ? [firstResult] : []]) and not the selection. *)
Theorem filterSelections_byIndex_single_true
    (predicate : ByIndex) (context : Context) (selection : Selection) :
  selections context = [selection] ->
  predicate 0 (VSelection selection) (document context) = VBoolean true ->
  filterSelections_byIndex predicate None context = Returned [VBoolean true].
Proof.
  intros Hsel Htrue. unfold filterSelections_byIndex. simpl.
  rewrite Hsel. simpl. unfold at_. simpl. rewrite Htrue. reflexivity.
Qed.

Lemma filterSelections_byIndex_single_true_witness :
  filterSelections_byIndex (fun _ _ _ => VBoolean true) None
    (mkContext (mkDocument ["foo"%string]) [sel 0 0 0 3] [])
  = Returned [VBoolean true].
Proof.
  apply (filterSelections_byIndex_single_true _ _ (sel 0 0 0 3)); reflexivity.
Defined.

(** On two selections or more the selections themselves are kept, as on the
    suspended path. *)
Lemma filterLoop_filter predicate document rest : forall i,
  filterLoop predicate document i rest
  = VSelection <$> (filter (fun '(j, s) => truthy (predicate j (VSelection s) document) = true)
                      (zip (seq i (length rest)) rest)).*2.
Proof.
  induction rest as [|selection rest IH]; intros i; [reflexivity|].
  cbn [filterLoop length seq zip zip_with]. rewrite filter_cons.
  case_decide as Hkeep; cbn in Hkeep.
  - rewrite Hkeep. cbn. now rewrite IH.
  - apply not_true_is_false in Hkeep. rewrite Hkeep. apply IH.
Qed.

Lemma filterSelections_byIndex_longer predicate context s0 s1 rest b :
  selections context = s0 :: s1 :: rest ->
  predicate 0 (VSelection s0) (document context) = VBoolean b ->
  filterSelections_byIndex predicate None context
  = Returned
      (VSelection <$>
         (filter (fun '(j, s) => truthy (predicate j (VSelection s) (document context)) = true)
            (zip (seq 0 (length (s0 :: s1 :: rest))) (s0 :: s1 :: rest))).*2).
Proof.
  intros Hsel Hb. unfold filterSelections_byIndex. cbn [default]. rewrite Hsel.
  change (at_ (s0 :: s1 :: rest) 0) with (VSelection s0). rewrite Hb.
  change (drop 1 (s0 :: s1 :: rest)) with (s1 :: rest).
  cbn [length Nat.eqb]. rewrite filterLoop_filter.
  change (zip (seq 0 (S (S (length rest)))) (s0 :: s1 :: rest))
    with ((0, s0) :: zip (seq 1 (length (s1 :: rest))) (s1 :: rest)).
  rewrite filter_cons.
  case_decide as Hkeep; cbn in Hkeep; rewrite Hb in Hkeep; cbn in Hkeep.
  - rewrite Hkeep. reflexivity.
  - apply not_true_is_false in Hkeep. rewrite Hkeep. reflexivity.
Qed.

(** C4, as stated, fails when the call at index 0 returns at once: the
    results of the later calls are then pushed as they are, a suspended one
    stays in the array and nothing awaits it. *)
Lemma mapSelections_byIndex_mixed_counterexample :
  let context := mkContext (mkDocument ["foo 123"%string]) [sel 0 0 0 3; sel 0 4 0 7] [] in
  mixedMapper 0 (VSelection (sel 0 0 0 3)) (document context) = VNumber 1
  /\ mixedMapper 1 (VSelection (sel 0 4 0 7)) (document context) = VThenable VUndefined
  /\ settled (mapSelections_byIndex mixedMapper None context)
     = Some [VNumber 1; VThenable VUndefined]
  /\ settled (mapSelections_byIndex (synchronous mixedMapper) None context)
     = Some [VNumber 1]
  /\ settled (mapSelections_byIndex mixedMapper None context)
     <> settled (mapSelections_byIndex (synchronous mixedMapper) None context).
Proof.
  repeat split. discriminate.
Qed.

(** C4, as the code has it.  When the call at index 0 returns a suspended
    result, whatever the later calls return, [mapSelections.byIndex] gives,
    once all results are available, the array that it gives for the
    all-synchronous equivalent function. *)
Theorem mapSelections_byIndex_suspended
    (f : ByIndex) (selections_ : option (list Selection)) (context : Context) :
  (exists v, f 0 (at_ (default (selections context) selections_) 0) (document context)
             = VThenable v) ->
  settled (mapSelections_byIndex f selections_ context)
  = settled (mapSelections_byIndex (synchronous f) selections_ context).
Proof.
  intros [v Hv]. unfold mapSelections_byIndex, Context_then, promiseAll.
  set (ss := default (selections context) selections_) in *.
  set (d := document context) in *.
  assert (Hsync : forall A (x y : A),
            match synchronous f 0 (at_ ss 0) d with VThenable _ => x | _ => y end = y).
  { intros A x y. pose proof (await_not_thenable (f 0 (at_ ss 0) d)) as Hn.
    unfold synchronous.
    destruct (await (f 0 (at_ ss 0) d)) as [| | | | | |r]; try reflexivity.
    now contradiction (Hn r). }
  rewrite Hsync, Hv. fold (await (VThenable v)). rewrite <- Hv.
  rewrite callLoop_synchronous. unfold synchronous.
  destruct (length ss =? 1) eqn:El; simpl.
  - apply Nat.eqb_eq in El. rewrite (length_one_drop _ El). simpl.
    now rewrite app_nil_r.
  - f_equal. now destruct (isUndefined (await (f 0 (at_ ss 0) d))).
Qed.

Lemma mapSelections_byIndex_suspended_witness :
  let f : ByIndex :=
    fun i _ _ => match i with 0 => VThenable (VNumber 1) | _ => VNumber 2 end in
  let context := mkContext (mkDocument ["foo 123"%string]) [sel 0 0 0 3; sel 0 4 0 7] [] in
  settled (mapSelections_byIndex f None context)
  = settled (mapSelections_byIndex (synchronous f) None context).
Proof.
  intros f context.
  apply (mapSelections_byIndex_suspended f None context).
  exists (VNumber 1). reflexivity.
Defined.

(** ** Commits *)

Lemma asSelections_fmap ss : asSelections (VSelection <$> ss) = Some ss.
Proof.
  induction ss as [|s ss IH]; [reflexivity|].
  rewrite fmap_cons. cbn [asSelections]. now rewrite IH.
Qed.

Lemma setSelections_fmap ss context :
  setSelections (VSelection <$> ss) context
  = match ss with
    | [] => (Throw EmptySelectionsError, context)
    | first :: _ => (Ok ss, committed context first ss)
    end.
Proof.
  destruct ss as [|s ss]; [reflexivity|].
  pose proof (asSelections_fmap (s :: ss)) as Has.
  unfold setSelections, throwIfNotASelectionArray.
  rewrite fmap_cons in *. now rewrite Has.
Qed.

Section Fallback.

Variable values : list Value.

Lemma countValues_spec :
  Forall SelectionOrFallback values ->
  forall selectionsCount fallbackSelectionsCount,
  countValues values selectionsCount fallbackSelectionsCount
  = (selectionsCount + length (realSelections values),
     fallbackSelectionsCount + length (fallbackSelections values)).
Proof.
  induction 1 as [|v vs Hv _ IH]; intros a b; simpl.
  - f_equal; lia.
  - destruct Hv; simpl; rewrite IH; simpl; f_equal; lia.
Qed.

Lemma realValues_spec :
  Forall SelectionOrFallback values ->
  realValues values = VSelection <$> realSelections values.
Proof.
  induction 1 as [|v vs Hv _ IH]; simpl; [reflexivity|].
  destruct Hv; simpl; now rewrite IH.
Qed.

Lemma fallbackValues_spec :
  Forall SelectionOrFallback values ->
  fallbackValues values = VSelection <$> fallbackSelections values.
Proof.
  induction 1 as [|v vs Hv _ IH]; simpl; [reflexivity|].
  destruct Hv; simpl; now rewrite IH.
Qed.

Lemma mapFallbackSelections_spec :
  Forall SelectionOrFallback values ->
  mapFallbackSelections values = VSelection <$> chosenSelections values.
Proof.
  intros typed. unfold mapFallbackSelections, chosenSelections.
  rewrite countValues_spec by exact typed. simpl.
  destruct (realSelections values) as [|s ss] eqn:Er; simpl.
  - destruct (fallbackSelections values) as [|t ts] eqn:Ef; simpl; [reflexivity|].
    now rewrite fallbackValues_spec, Ef.
  - now rewrite realValues_spec, Er.
Qed.

Lemma defined_typed :
  Forall SelectionOrFallback values -> Forall SelectionOrFallback (defined values).
Proof.
  induction 1 as [|v vs Hv _ IH]; simpl; [constructor|].
  destruct Hv; simpl; auto using SelectionOrFallback.
Qed.

Lemma realSelections_defined :
  Forall SelectionOrFallback values ->
  realSelections (defined values) = realSelections values.
Proof.
  induction 1 as [|v vs Hv _ IH]; simpl; [reflexivity|].
  destruct Hv; simpl; now rewrite IH.
Qed.

Lemma fallbackSelections_defined :
  Forall SelectionOrFallback values ->
  fallbackSelections (defined values) = fallbackSelections values.
Proof.
  induction 1 as [|v vs Hv _ IH]; simpl; [reflexivity|].
  destruct Hv; simpl; now rewrite IH.
Qed.

End Fallback.

Lemma chosenSelections_defined values :
  Forall SelectionOrFallback values ->
  chosenSelections (defined values) = chosenSelections values.
Proof.
  intros typed. unfold chosenSelections.
  now rewrite realSelections_defined, fallbackSelections_defined.
Qed.

(** What the two variants of [mapSelections] give on a non-empty current
    set. *)
Lemma mapSelections_byIndex_current g context :
  selections context <> [] ->
  mapSelections_byIndex g None context
  = match callLoop g (document context) 0 (selections context) with
    | VThenable _ :: _ =>
        Fulfilled (defined (await <$> callLoop g (document context) 0 (selections context)))
    | _ => Returned (defined (callLoop g (document context) 0 (selections context)))
    end.
Proof.
  unfold mapSelections_byIndex, Context_then, promiseAll. cbn [default].
  destruct (selections context) as [|s0 rest]; [congruence|]. intros _.
  change (at_ (s0 :: rest) 0) with (VSelection s0).
  change (drop 1 (s0 :: rest)) with (drop 0 rest). rewrite drop_0.
  cbn [callLoop].
  destruct (g 0 (VSelection s0) (document context)) as [| | | | | |r] eqn:Ef;
    try (now rewrite defined_cons).
  destruct rest as [|s1 rest]; [|reflexivity].
  cbn. now destruct (isUndefined (await r)).
Qed.

Lemma mapSelections_current f context :
  selections context <> [] ->
  mapSelections f None context
  = match perSelection f context with
    | VThenable _ :: _ => Fulfilled (defined (await <$> perSelection f context))
    | _ => Returned (defined (perSelection f context))
    end.
Proof. apply mapSelections_byIndex_current. Qed.

(** C5.  [updateSelections] with a mapper that returns [undefined] at once on
    the only selection of the current set throws the error of the empty
    selection set, and leaves the context as it was. *)
Theorem updateSelections_absent_rejected
    (f : Mapper) (context : Context) (selection : Selection) :
  selections context = [selection] ->
  f (getText (document context) (VSelection selection)) (VSelection selection) 0
  = VUndefined ->
  updateSelections f context = (Thrown EmptySelectionsError, context).
Proof.
  intros Hsel Habsent.
  unfold updateSelections.
  rewrite mapSelections_current by (rewrite Hsel; discriminate).
  unfold perSelection. rewrite Hsel. cbn [callLoop]. unfold textMapper.
  rewrite Habsent. reflexivity.
Qed.

Lemma updateSelections_absent_rejected_witness :
  let context := mkContext (mkDocument ["foo 123"%string]) [sel 0 0 0 3] [] in
  updateSelections (fun _ _ _ => VUndefined) context
  = (Thrown EmptySelectionsError, context).
Proof.
  intros context.
  apply (updateSelections_absent_rejected _ context (sel 0 0 0 3)); reflexivity.
Defined.

Lemma commit_fallback_returned values context :
  Forall SelectionOrFallback values ->
  commit mapFallbackSelections (Returned (defined values)) context
  = match chosenSelections values with
    | [] => (Thrown EmptySelectionsError, context)
    | (first :: _) as ss => (Returned ss, committed context first ss)
    end.
Proof.
  intros typed. unfold commit.
  rewrite mapFallbackSelections_spec by now apply defined_typed.
  rewrite chosenSelections_defined by exact typed.
  rewrite setSelections_fmap. now destruct (chosenSelections values).
Qed.

Lemma commit_fallback_fulfilled values context :
  Forall SelectionOrFallback values ->
  commit mapFallbackSelections (Fulfilled (defined values)) context
  = match chosenSelections values with
    | [] => (Rejected EmptySelectionsError, context)
    | (first :: _) as ss => (Fulfilled ss, committed context first ss)
    end.
Proof.
  intros typed. unfold commit.
  rewrite mapFallbackSelections_spec by now apply defined_typed.
  rewrite chosenSelections_defined by exact typed.
  rewrite setSelections_fmap. now destruct (chosenSelections values).
Qed.

(** A suspended result that is not awaited counts as a real selection for
    [mapFallbackSelections], and is handed over with the real selections. *)
Lemma countValues_le values :
  forall selectionsCount fallbackSelectionsCount,
    selectionsCount
    <= (countValues values selectionsCount fallbackSelectionsCount).1.
Proof.
  induction values as [|v values IH]; intros a b; cbn [countValues fst]; [lia|].
  destruct (isArray v); [apply IH|].
  destruct (negb (isUndefined v)); [|apply IH].
  specialize (IH (S a) b). lia.
Qed.

Lemma countValues_suspended values :
  Exists suspended values ->
  forall selectionsCount fallbackSelectionsCount,
    selectionsCount
    < (countValues values selectionsCount fallbackSelectionsCount).1.
Proof.
  induction 1 as [v values [w ->]|v values _ IH]; intros a b; cbn [countValues].
  - cbn [isArray isUndefined negb]. pose proof (countValues_le values (S a) b). lia.
  - destruct (isArray v); [apply IH|].
    destruct (negb (isUndefined v)); [|apply IH].
    specialize (IH (S a) b). lia.
Qed.

Lemma realValues_suspended values :
  Exists suspended values -> Exists suspended (realValues values).
Proof.
  induction 1 as [v values [w ->]|v values _ IH]; cbn [realValues].
  - cbn [isArray isUndefined negb andb]. left. now exists w.
  - destruct (negb (isUndefined v) && negb (isArray v)); [now right|exact IH].
Qed.

Lemma defined_suspended values :
  Exists suspended values -> Exists suspended (defined values).
Proof.
  induction 1 as [v values [w ->]|v values _ IH]; cbn [defined].
  - cbn [isUndefined]. left. now exists w.
  - destruct (isUndefined v); [exact IH|now right].
Qed.

Lemma asSelections_suspended values :
  Exists suspended values -> asSelections values = None.
Proof.
  induction 1 as [v values [w ->]|v values _ IH]; cbn [asSelections]; [reflexivity|].
  destruct v; try reflexivity. now rewrite IH.
Qed.

Lemma mapFallbackSelections_suspended values :
  Exists suspended values ->
  mapFallbackSelections values = realValues values
  /\ Exists suspended (mapFallbackSelections values).
Proof.
  intros H. unfold mapFallbackSelections.
  pose proof (countValues_suspended values H 0 0) as Hcount.
  destruct (countValues values 0 0) as [a b]. cbn [fst] in Hcount.
  destruct (Nat.ltb_spec 0 a); [|lia].
  split; [reflexivity|now apply realValues_suspended].
Qed.

Lemma commit_fallback_suspended values context :
  Exists suspended values ->
  commit mapFallbackSelections (Returned (defined values)) context
  = (Thrown NotASelectionError, context).
Proof.
  intros H. apply defined_suspended, mapFallbackSelections_suspended in H.
  destruct H as [_ H]. unfold commit, setSelections, throwIfNotASelectionArray.
  rewrite (asSelections_suspended _ H).
  now destruct H.
Qed.

(** C6, as stated, fails when the result at index 0 is returned at once and
    a later result is suspended: nothing awaits the suspended result, which
    [mapFallbackSelections] hands over among the real selections, so that
    the array given to [setSelections] is not the real selections, although
    there is one; the commit fails and the current set stays as it was. *)
Lemma updateSelections_withFallback_mixed_counterexample :
  let context := mkContext (mkDocument ["foo 123"%string]) [sel 0 0 0 3; sel 0 4 0 7] [] in
  perSelection laterSuspended context
  = [VSelection (sel 0 0 0 3); VThenable (VSelection (sel 0 4 0 7))]
  /\ realSelections (perSelection laterSuspended context) = [sel 0 0 0 3]
  /\ realSelections (await <$> perSelection laterSuspended context)
     = [sel 0 0 0 3; sel 0 4 0 7]
  /\ mapSelections laterSuspended None context
     = Returned [VSelection (sel 0 0 0 3); VThenable (VSelection (sel 0 4 0 7))]
  /\ mapFallbackSelections
       [VSelection (sel 0 0 0 3); VThenable (VSelection (sel 0 4 0 7))]
     = [VSelection (sel 0 0 0 3); VThenable (VSelection (sel 0 4 0 7))]
  /\ updateSelections_withFallback laterSuspended context
     = (Thrown NotASelectionError, context)
  /\ updateSelections_withFallback laterSuspended context
     <> (Returned [sel 0 0 0 3], committed context (sel 0 0 0 3) [sel 0 0 0 3])
  /\ updateSelections_withFallback laterSuspended context
     <> (Returned [sel 0 0 0 3; sel 0 4 0 7],
         committed context (sel 0 0 0 3) [sel 0 0 0 3; sel 0 4 0 7]).
Proof.
  repeat split; discriminate.
Qed.

(** C6, as the code has it.  On a non-empty current set, [withFallback]
    commits the real selections among the per-selection results, in their
    order, when there is one; otherwise the fallback selections, in their
    order, when there is one; otherwise it fails with the error of the empty
    selection set and the context stays as it was.  This holds when the
    results are all returned at once, and when the result at index 0 is
    suspended, whatever the later ones are: each result is then taken by
    the value that it resolves to, and the failure is a rejection.  When the
    result at index 0 is returned at once and a later one is suspended, the
    commit fails with the error of what is not a selection, and the context
    stays as it was. *)
Theorem updateSelections_withFallback_spec (f : Mapper) (context : Context) :
  selections context <> [] ->
  (Forall SelectionOrFallback (perSelection f context) ->
   updateSelections_withFallback f context
   = match realSelections (perSelection f context),
           fallbackSelections (perSelection f context) with
     | (first :: _) as ss, _ => (Returned ss, committed context first ss)
     | [], (first :: _) as ss => (Returned ss, committed context first ss)
     | [], [] => (Thrown EmptySelectionsError, context)
     end)
  /\ ((exists first, head (perSelection f context) = Some first /\ suspended first) ->
      Forall SelectionOrFallback (await <$> perSelection f context) ->
      updateSelections_withFallback f context
      = match realSelections (await <$> perSelection f context),
              fallbackSelections (await <$> perSelection f context) with
        | (first :: _) as ss, _ => (Fulfilled ss, committed context first ss)
        | [], (first :: _) as ss => (Fulfilled ss, committed context first ss)
        | [], [] => (Rejected EmptySelectionsError, context)
        end)
  /\ ((forall first, head (perSelection f context) = Some first -> ~ suspended first) ->
      Exists suspended (perSelection f context) ->
      updateSelections_withFallback f context = (Thrown NotASelectionError, context)).
Proof.
  intros Hne. unfold updateSelections_withFallback.
  rewrite mapSelections_current by exact Hne.
  assert (Hvalues : perSelection f context <> []).
  { unfold perSelection. destruct (selections context); [congruence | discriminate]. }
  generalize dependent (perSelection f context). intros values Hvalues.
  split; [|split].
  - intros typed.
    replace (match values with
             | VThenable _ :: _ => Fulfilled (defined (await <$> values))
             | _ => Returned (defined values)
             end) with (Returned (defined values)).
    2:{ destruct typed as [|v vs Hv _]; [reflexivity | now destruct Hv]. }
    rewrite commit_fallback_returned by exact typed.
    unfold chosenSelections.
    destruct (realSelections values); [|reflexivity].
    now destruct (fallbackSelections values).
  - intros (first & Hfirst & w & ->) typed.
    replace (match values with
             | VThenable _ :: _ => Fulfilled (defined (await <$> values))
             | _ => Returned (defined values)
             end) with (Fulfilled (defined (await <$> values))).
    2:{ destruct values as [|v vs]; [discriminate|]. now injection Hfirst as ->. }
    rewrite commit_fallback_fulfilled by exact typed.
    unfold chosenSelections.
    destruct (realSelections (await <$> values)); [|reflexivity].
    now destruct (fallbackSelections (await <$> values)).
  - intros Hfirst Hlater.
    replace (match values with
             | VThenable _ :: _ => Fulfilled (defined (await <$> values))
             | _ => Returned (defined values)
             end) with (Returned (defined values)).
    2:{ destruct values as [|v vs]; [reflexivity|].
        destruct v; try reflexivity.
        now contradiction (Hfirst _ eq_refl); eexists. }
    now apply commit_fallback_suspended.
Qed.

Lemma updateSelections_withFallback_spec_witness :
  let context := mkContext (mkDocument ["foo 123"%string]) [sel 0 0 0 3; sel 0 4 0 7] [] in
  updateSelections_withFallback keepSecond context
  = (Returned [sel 0 4 0 7], committed context (sel 0 4 0 7) [sel 0 4 0 7])
  /\ updateSelections_withFallback allFallbacks context
     = (Returned [sel 0 0 0 3; sel 0 4 0 7],
        committed context (sel 0 0 0 3) [sel 0 0 0 3; sel 0 4 0 7])
  /\ updateSelections_withFallback (fun _ _ _ => VUndefined) context
     = (Thrown EmptySelectionsError, context)
  /\ updateSelections_withFallback firstSuspended context
     = (Fulfilled [sel 0 0 0 3], committed context (sel 0 0 0 3) [sel 0 0 0 3])
  /\ updateSelections_withFallback laterSuspended context
     = (Thrown NotASelectionError, context).
Proof.
  intros context.
  assert (Hne : selections context <> []) by discriminate.
  split; [|split; [|split; [|split]]].
  - apply (proj1 (updateSelections_withFallback_spec keepSecond context Hne)).
    repeat constructor.
  - apply (proj1 (updateSelections_withFallback_spec allFallbacks context Hne)).
    repeat constructor.
  - apply (proj1 (updateSelections_withFallback_spec (fun _ _ _ => VUndefined) context Hne)).
    repeat constructor.
  - apply (proj1 (proj2 (updateSelections_withFallback_spec firstSuspended context Hne))).
    + eexists. split; [reflexivity|]. eexists. reflexivity.
    + repeat constructor.
  - apply (proj2 (proj2 (updateSelections_withFallback_spec laterSuspended context Hne))).
    + intros first [= <-] [w Hw]. discriminate Hw.
    + right. left. eexists. reflexivity.
Defined.

(** ** Rotation *)

Section Rotation.

Local Open Scope Z_scope.

(** [len] is the number of selections and [by_] the normalized shift. *)
Variables (len by_ : Z).
Hypothesis len_pos : 0 < len.
Hypothesis by_nonneg : 0 <= by_.

Lemma target_mod i : Z.of_nat (target by_ len i) = (Z.of_nat i + by_) mod len.
Proof.
  unfold target. rewrite Z.rem_mod_nonneg by lia.
  pose proof (Z.mod_pos_bound (Z.of_nat i + by_) len len_pos). lia.
Qed.

Lemma target_lt i : (target by_ len i < Z.to_nat len)%nat.
Proof.
  pose proof (target_mod i).
  pose proof (Z.mod_pos_bound (Z.of_nat i + by_) len len_pos). lia.
Qed.

Lemma target_inj i j :
  Z.of_nat i < len -> Z.of_nat j < len -> target by_ len i = target by_ len j -> i = j.
Proof.
  intros Hi Hj Heq.
  assert (Hmod : (Z.of_nat i + by_) mod len = (Z.of_nat j + by_) mod len)
    by (rewrite <- !target_mod; now rewrite Heq).
  pose proof (Z.div_mod (Z.of_nat i + by_) len ltac:(lia)) as Di.
  pose proof (Z.div_mod (Z.of_nat j + by_) len ltac:(lia)) as Dj.
  rewrite Hmod in Di.
  assert ((Z.of_nat i + by_) / len = (Z.of_nat j + by_) / len) by nia.
  lia.
Qed.

Lemma rotateLoop_length rest : forall i newSelections,
  length (rotateLoop by_ len i rest newSelections) = length newSelections.
Proof.
  induction rest as [|s rest IH]; intros i arr; simpl; [reflexivity|].
  now rewrite IH, length_insert.
Qed.

Lemma rotateLoop_other rest : forall i newSelections k,
  (forall m, (m < length rest)%nat -> target by_ len (i + m) <> k) ->
  rotateLoop by_ len i rest newSelections !! k = newSelections !! k.
Proof.
  induction rest as [|s rest IH]; intros i arr k Hk; simpl; [reflexivity|].
  rewrite IH.
  - apply list_lookup_insert_ne. fold (target by_ len i).
    specialize (Hk 0%nat). rewrite Nat.add_0_r in Hk. apply Hk. simpl. lia.
  - intros m Hm. replace (S i + m)%nat with (i + S m)%nat by lia.
    apply Hk. simpl. lia.
Qed.

Lemma rotateLoop_written rest : forall i newSelections m s,
  length newSelections = Z.to_nat len ->
  Z.of_nat (i + length rest) <= len ->
  rest !! m = Some s ->
  rotateLoop by_ len i rest newSelections !! target by_ len (i + m) = Some (VSelection s).
Proof.
  induction rest as [|s0 rest IH]; intros i arr m s Hlen Hfit Hm; [discriminate|].
  simpl in Hfit. destruct m as [|m]; simpl in Hm |- *.
  - injection Hm as ->. rewrite Nat.add_0_r. rewrite rotateLoop_other.
    + fold (target by_ len i). apply list_lookup_insert_eq. rewrite Hlen. apply target_lt.
    + intros m Hm Heq. apply target_inj in Heq; lia.
  - replace (i + S m)%nat with (S i + m)%nat by lia.
    apply IH; [now rewrite length_insert | lia | exact Hm].
Qed.

End Rotation.

Lemma rem_shift (by_ len i : Z) : (0 < len)%Z ->
  ((i + (Z.rem by_ len + len)) mod len = (i + by_) mod len)%Z.
Proof.
  intros Hlen. pose proof (Z.quot_rem' by_ len) as Hqr.
  replace (i + (Z.rem by_ len + len))%Z
    with (i + by_ + (1 - Z.quot by_ len) * len)%Z by lia.
  apply Z.mod_add. lia.
Qed.

Lemma rem_zero_mod (by_ len : Z) : (0 < len)%Z ->
  Z.rem by_ len = 0%Z <-> (by_ mod len = 0)%Z.
Proof.
  intros Hlen. rewrite Z.rem_divide, Z.mod_divide by lia. reflexivity.
Qed.

(** C8.  On a non-empty list of [N] selections, [rotateSelections(by)]
    returns [N] selections, the one at index [i] of the input at index
    [(i + by) mod N]; rotating [A, B, C] by 1 gives [C, A, B] and by -1 gives
    [B, C, A]; and when [by] is 0 modulo [N] the result is a copy of the
    input. *)
Theorem rotateSelections_spec (by_ : Z) (selections : list Selection) :
  selections <> [] ->
  let N := Z.of_nat (length selections) in
  length (rotateSelections by_ selections) = length selections
  /\ (forall i selection,
        selections !! i = Some selection ->
        rotateSelections by_ selections !! Z.to_nat ((Z.of_nat i + by_) mod N)
        = Some (VSelection selection))
  /\ (forall A B C,
        rotateSelections 1 [A; B; C] = [VSelection C; VSelection A; VSelection B]
        /\ rotateSelections (-1) [A; B; C] = [VSelection B; VSelection C; VSelection A])
  /\ ((by_ mod N = 0)%Z -> rotateSelections by_ selections = VSelection <$> selections).
Proof.
  intros Hne N.
  assert (HN : (0 < N)%Z).
  { subst N. destruct selections; [congruence | simpl; lia]. }
  assert (Hrem : (- N < Z.rem by_ N < N)%Z).
  { pose proof (Z.rem_bound_abs by_ N ltac:(lia)). lia. }
  unfold rotateSelections. fold N.
  replace (N =? 0)%Z with false by (symmetry; apply Z.eqb_neq; lia).
  split; [|split; [|split]].
  - destruct (Z.rem by_ N + N =? N)%Z.
    + apply length_fmap.
    + now rewrite rotateLoop_length, length_replicate.
  - intros i selection Hi.
    assert (Hlt : (Z.of_nat i < N)%Z) by (apply lookup_lt_Some in Hi; lia).
    destruct (Z.rem by_ N + N =? N)%Z eqn:E.
    + apply Z.eqb_eq in E. assert (Hz : Z.rem by_ N = 0%Z) by lia.
      apply rem_zero_mod in Hz; [|exact HN].
      rewrite Z.add_mod, Hz, Z.add_0_r, Z.mod_mod, Z.mod_small by lia.
      rewrite Nat2Z.id, list_lookup_fmap, Hi. reflexivity.
    + rewrite <- (rem_shift by_ N (Z.of_nat i) HN).
      rewrite <- (target_mod N (Z.rem by_ N + N) HN ltac:(lia) i), Nat2Z.id.
      replace i with (0 + i)%nat at 1 by reflexivity.
      apply rotateLoop_written; try lia.
      * rewrite length_replicate. subst N. now rewrite Nat2Z.id.
      * exact Hi.
  - intros A B C. split; reflexivity.
  - intros Hz. apply rem_zero_mod in Hz; [|exact HN].
    rewrite Hz, Z.add_0_l, Z.eqb_refl. reflexivity.
Qed.

Lemma rotateSelections_spec_witness :
  rotateSelections 4 [sel 0 0 0 3; sel 0 4 0 7; sel 0 8 0 11]
  !! Z.to_nat ((Z.of_nat 2 + 4) mod Z.of_nat 3)
  = Some (VSelection (sel 0 8 0 11)).
Proof.
  assert (Hne : [sel 0 0 0 3; sel 0 4 0 7; sel 0 8 0 11] <> []) by discriminate.
  destruct (rotateSelections_spec 4 _ Hne) as (_ & Hat & _).
  apply (Hat 2%nat). reflexivity.
Defined.

(** ** Merging *)

Lemma pending_le ig : pending ig <= length ig.
Proof.
  induction ig as [|[|[|x]] ig IH]; simpl; lia.
Qed.

Lemma pending_insert ig : forall j,
  j < length ig -> ignored ig j = false ->
  S (pending (<[j := 1]> ig)) = pending ig.
Proof.
  unfold ignored.
  induction ig as [|x ig IH]; intros [|j] Hj Hig; simpl in *; try lia.
  - destruct x as [|[|x]]; [reflexivity | discriminate | reflexivity].
  - specialize (IH j ltac:(lia) Hig). destruct x as [|[|x]]; lia.
Qed.

Lemma pending_insert_le ig j : pending (<[j := 1]> ig) <= pending ig.
Proof.
  revert j. induction ig as [|x ig IH]; intros [|j]; simpl; try lia.
  - destruct x as [|[|x]]; lia.
  - specialize (IH j). destruct x as [|[|x]]; lia.
Qed.

Section MergeTermination.

Variable selections_ : list Selection.
Variable alsoMergeConsecutiveSelections : bool.
Variable i : nat.

Let len := length selections_.

Ltac branches :=
  repeat match goal with
         | |- context [if ?c then _ else _] => destruct c eqn:?
         end.

Lemma mergeInner_length fuel : forall j st st',
  mergeInner fuel selections_ alsoMergeConsecutiveSelections i j st = Some st' ->
  length (ignoreSelections st') = length (ignoreSelections st).
Proof.
  induction fuel as [|fuel IH]; intros j st st'; [discriminate|].
  cbn [mergeInner]. destruct (selections_ !! j) as [b|]; [|now intros [= <-]].
  branches; intros H; apply IH in H; cbn [ignoreSelections] in H;
    now rewrite ?length_insert in H.
Qed.

Lemma mergeInner_total fuel : forall j st,
  length (ignoreSelections st) = len ->
  innerMeasure len j st < fuel ->
  is_Some (mergeInner fuel selections_ alsoMergeConsecutiveSelections i j st).
Proof.
  induction fuel as [|fuel IH]; intros j st Hlen Hfuel; [lia|].
  cbn [mergeInner]. destruct (selections_ !! j) as [b|] eqn:Hb; [|eauto].
  apply lookup_lt_Some in Hb. fold len in Hb.
  unfold innerMeasure in *.
  destruct (ignored (ignoreSelections st) j) eqn:Hig.
  { apply IH; [exact Hlen | lia]. }
  pose proof (pending_insert (ignoreSelections st) j ltac:(lia) Hig) as Hdec.
  branches; apply IH; cbn [ignoreSelections]; rewrite ?length_insert;
    try exact Hlen; nia.
Qed.

End MergeTermination.

Lemma mergeOuter_total selections_ alsoMergeConsecutiveSelections n :
  forall i ignoreSelections_ newSelections_,
  length ignoreSelections_ = length selections_ ->
  is_Some (mergeOuter n selections_ alsoMergeConsecutiveSelections i
             ignoreSelections_ newSelections_).
Proof.
  induction n as [|n IH]; intros i ig ns Hlen; cbn [mergeOuter]; [eauto|].
  destruct (selections_ !! i) as [a|]; [|eauto].
  destruct (ignored ig i); [now apply IH|].
  set (st0 := mkMergeState _ _ _ _ _ _).
  destruct (mergeInner_total selections_ alsoMergeConsecutiveSelections i
              ((length selections_ + 1) * (length selections_ + 1)) (S i) st0)
    as [st Hst]; [exact Hlen | |].
  - unfold innerMeasure. cbn [st0 ignoreSelections].
    pose proof (pending_le ig). nia.
  - rewrite Hst. cbn. apply IH.
    apply mergeInner_length in Hst. now rewrite Hst.
Qed.

(** The merge always returns: the fuel of the inner loop is never used up. *)
Lemma mergeOverlappingSelections_total selections_ alsoMergeConsecutiveSelections :
  is_Some (mergeOverlappingSelections selections_ alsoMergeConsecutiveSelections).
Proof.
  unfold mergeOverlappingSelections.
  destruct (mergeOuter_total selections_ alsoMergeConsecutiveSelections
              (length selections_) 0 (replicate (length selections_) 0) None)
    as [ns Hns]; [apply length_replicate|].
  rewrite Hns. cbn. eauto.
Qed.

(** The extent of the departure from C1: every non-empty candidate that
    starts at or before an empty selection absorbs it, wherever the
    candidate ends.  The result has the direction of the empty selection,
    which is reversed. *)
Lemma mergeOverlappingSelections_empty_absorbed p b alsoMergeConsecutiveSelections :
  isEmpty b = false ->
  isBeforeOrEqual (start b) p = true ->
  mergeOverlappingSelections [Selections.empty p; b] alsoMergeConsecutiveSelections
  = Some [mkSelection (end_ b) (start b)].
Proof.
  intros Hb Hstart. unfold mergeOverlappingSelections.
  cbn [length replicate mergeOuter lookup list_lookup ignored].
  assert (Hs : start (Selections.empty p) = p)
    by (unfold start, Selections.empty; cbn; now rewrite isBefore_irrefl).
  assert (He : end_ (Selections.empty p) = p)
    by (unfold end_, Selections.empty; cbn; now rewrite isBefore_irrefl).
  assert (Hr : isReversed (Selections.empty p) = true)
    by (unfold isReversed, Selections.empty; cbn; now rewrite isBefore_irrefl).
  rewrite Hs, He, isEqual_refl, Hr.
  cbn [Nat.add Nat.mul mergeInner lookup list_lookup ignored ignoreSelections aIsEmpty
       aStart aEnd changed newSelections insert list_insert].
  rewrite isEqual_start_end, Hb, Hstart, isAfterOrEqual_end_start.
  reflexivity.
Qed.

(** C1, where the code departs from it.  An empty selection at column 5 is
    followed by the non-empty selection of columns 0 to 2, which does not
    contain it: the merge returns the span of that selection alone, with the
    direction of the empty selection, which is reversed, and the empty
    selection is gone from the output.  The test of the code,
    [bStart <= aStart && bEnd >= bStart], holds for every candidate that
    starts at or before the empty selection. *)
Theorem mergeOverlappingSelections_empty_not_contained :
  let a := Selections.empty (mkPosition 0 5) in
  let b := sel 0 0 0 2 in
  isEmpty a = true
  /\ isEmpty b = false
  /\ isBeforeOrEqual (start a) (end_ b) = false
  /\ isReversed a = true
  /\ mergeOverlappingSelections [a; b] false = Some [sel 0 2 0 0]
  /\ mergeOverlappingSelections [a; b] true = Some [sel 0 2 0 0]
  /\ ~ In a [sel 0 2 0 0].
Proof.
  repeat split. intros [H|[]]. discriminate H.
Qed.

(** C7, where the code departs from it.  The empty selection at column 2
    skips the selection of columns 3 to 6, then takes the span of the
    selection of columns 0 to 4 that contains it, and the inner loop goes on
    without a restart: the output keeps two overlapping selections, which a
    second merge unites.  Both merge modes do so.  The merged selections
    have the direction of their accumulator: that of the empty selection,
    which is reversed. *)
Theorem mergeOverlappingSelections_not_idempotent :
  let S := [sel 0 2 0 2; sel 0 3 0 6; sel 0 0 0 4] in
  let once := [sel 0 4 0 0; sel 0 3 0 6] in
  let twice := [sel 0 6 0 0] in
  (mergeOverlappingSelections S false = Some once
   /\ mergeOverlappingSelections once false = Some twice)
  /\ (mergeOverlappingSelections S true = Some once
      /\ mergeOverlappingSelections once true = Some twice)
  /\ once <> twice.
Proof.
  repeat split. discriminate.
Qed.

(** * Further properties of the selections module *)

(** Case analysis on the comparisons of line and character numbers. *)
Ltac compare_numbers :=
  repeat match goal with
         | |- context [?a <? ?b] =>
             is_var a; is_var b; destruct (Nat.ltb_spec a b)
         | |- context [?a <=? ?b] =>
             is_var a; is_var b; destruct (Nat.leb_spec a b)
         | |- context [?a =? ?b] =>
             is_var a; is_var b; destruct (Nat.eqb_spec a b)
         end.

Ltac positions :=
  unfold Selections.forward, Selections.backward, Selections.fromStartEnd,
    isReversed, isEmpty, start, end_,
    isAfter, isAfterOrEqual, isBeforeOrEqual, isBefore, isEqual;
  repeat (cbn [anchor active line character negb andb orb]; compare_numbers);
  cbn [anchor active line character negb andb orb];
  try reflexivity; try discriminate; try lia; try (f_equal; f_equal; lia).

(** Comparisons that the hypotheses decide are replaced by their values. *)
Ltac decide_numbers :=
  repeat (cbn [anchor active line character negb andb orb];
          match goal with
          | |- context [?a <? ?b] =>
              first [ replace (a <? b) with true by (symmetry; apply Nat.ltb_lt; lia)
                    | replace (a <? b) with false by (symmetry; apply Nat.ltb_ge; lia) ]
          | |- context [?a <=? ?b] =>
              first [ replace (a <=? b) with true by (symmetry; apply Nat.leb_le; lia)
                    | replace (a <=? b) with false by (symmetry; apply Nat.leb_gt; lia) ]
          | |- context [?a =? ?b] =>
              first [ replace (a =? b) with true by (symmetry; apply Nat.eqb_eq; lia)
                    | replace (a =? b) with false by (symmetry; apply Nat.eqb_neq; lia) ]
          end);
  cbn [anchor active line character negb andb orb].

(** ** Direction of a selection *)

(** [forward] gives a selection that faces forward ([active >= anchor]) and
    [backward] one that faces backward ([active <= anchor]), both over the
    same range; each is idempotent, and each undoes the other.  The result
    of [backward] is always reversed; the result of [forward] is reversed
    exactly when the selection is empty, for an empty selection is returned
    as it is and the editor reports it reversed. *)
Theorem forward_backward_spec (selection : Selection) :
  (isAfterOrEqual (active (Selections.forward selection))
                  (anchor (Selections.forward selection)) = true
   /\ isReversed (Selections.forward selection) = isEmpty selection
   /\ start (Selections.forward selection) = start selection
   /\ end_ (Selections.forward selection) = end_ selection)
  /\ (isBeforeOrEqual (active (Selections.backward selection))
                      (anchor (Selections.backward selection)) = true
      /\ isReversed (Selections.backward selection) = true
      /\ start (Selections.backward selection) = start selection
      /\ end_ (Selections.backward selection) = end_ selection)
  /\ Selections.forward (Selections.forward selection) = Selections.forward selection
  /\ Selections.backward (Selections.backward selection) = Selections.backward selection
  /\ Selections.forward (Selections.backward selection) = Selections.forward selection
  /\ Selections.backward (Selections.forward selection) = Selections.backward selection.
Proof.
  destruct selection as [[al ac] [bl bc]].
  repeat split; positions.
Qed.

(** [fromStartEnd] builds the selection with the given start and end, in the
    direction asked for; applied to the start, the end and the direction of a
    selection it gives that selection back. *)
Theorem fromStartEnd_spec :
  (forall selection,
     Selections.fromStartEnd (start selection) (end_ selection) (isReversed selection)
     = selection)
  /\ (forall p q reversed,
        isBeforeOrEqual p q = true ->
        start (Selections.fromStartEnd p q reversed) = p
        /\ end_ (Selections.fromStartEnd p q reversed) = q
        /\ (p <> q -> isReversed (Selections.fromStartEnd p q reversed) = reversed)).
Proof.
  split.
  - intros [[al ac] [bl bc]]. positions.
  - intros [pl pc] [ql qc] reversed Hle.
    unfold isBeforeOrEqual in Hle. cbn [line character] in Hle.
    assert (Horder : pl < ql \/ (pl = ql /\ pc <= qc)).
    { apply orb_true_iff in Hle as [H%Nat.ltb_lt | H]; [lia|].
      apply andb_true_iff in H as [H1%Nat.eqb_eq H2%Nat.leb_le]. lia. }
    clear Hle.
    destruct reversed; (split; [|split]); try (intros Hne); positions;
      exfalso; apply Hne; f_equal; lia.
Qed.

Lemma fromStartEnd_spec_witness :
  start (Selections.fromStartEnd (mkPosition 0 0) (mkPosition 0 1) true) = mkPosition 0 0
  /\ end_ (Selections.fromStartEnd (mkPosition 0 0) (mkPosition 0 1) true) = mkPosition 0 1
  /\ (mkPosition 0 0 <> mkPosition 0 1 ->
      isReversed (Selections.fromStartEnd (mkPosition 0 0) (mkPosition 0 1) true) = true).
Proof.
  apply (proj2 fromStartEnd_spec (mkPosition 0 0) (mkPosition 0 1) true). reflexivity.
Defined.

(** ** Predicates on the range of a selection *)

(** [overlap] does not depend on the order of its arguments, and on two
    ranges that lie on one and the same line it holds exactly when the two
    ranges have a position in common, their ends included. *)
Theorem overlap_spec (a b : Selection) :
  Selections.overlap a b = Selections.overlap b a
  /\ (line (start a) = line (end_ a) ->
      line (start b) = line (end_ b) ->
      line (start a) = line (start b) ->
      (Selections.overlap a b = true
       <-> character (start a) <= character (end_ b)
           /\ character (start b) <= character (end_ a))).
Proof.
  split.
  - unfold Selections.overlap. apply andb_comm.
  - intros Ha Hb Hab. unfold Selections.overlap.
    rewrite andb_true_iff, !negb_true_iff, !orb_false_iff, !andb_false_iff,
      !Nat.ltb_ge, !Nat.eqb_neq.
    lia.
Qed.

Lemma overlap_spec_witness :
  Selections.overlap (sel 0 0 0 2) (sel 0 2 0 4) = true
  <-> character (start (sel 0 0 0 2)) <= character (end_ (sel 0 2 0 4))
      /\ character (start (sel 0 2 0 4)) <= character (end_ (sel 0 0 0 2)).
Proof.
  apply (proj2 (overlap_spec (sel 0 0 0 2) (sel 0 2 0 4))); reflexivity.
Defined.

(** A selection spans a single line, for [isSingleLine], when it starts and
    ends on one line or ends at character 0 of the next line.  A selection of
    one entire line spans a single line and is a selection of entire lines;
    and a selection is one of entire lines exactly when it starts and ends
    with an entire line. *)
Theorem line_predicates_spec (selection : Selection) :
  (Selections.isSingleLine selection = true
   <-> line (start selection) = line (end_ selection)
       \/ (line (start selection) + 1 = line (end_ selection)
           /\ character (end_ selection) = 0))
  /\ (Selections.isEntireLine selection = true ->
      Selections.isSingleLine selection = true
      /\ Selections.isEntireLines selection = true)
  /\ Selections.isEntireLines selection
     = Selections.startsWithEntireLine selection
       && Selections.endsWithEntireLine selection.
Proof.
  pose proof (start_le_end selection) as Horder.
  unfold Selections.isSingleLine, Selections.isEntireLine, Selections.isEntireLines,
    Selections.startsWithEntireLine, Selections.endsWithEntireLine, Selections.endLine.
  destruct (start selection) as [sl sc], (end_ selection) as [el ec].
  cbn [line character] in *.
  split; [|split].
  - destruct (Nat.eqb_spec sl el), (Nat.eqb_spec ec 0); cbn [negb andb];
      rewrite Nat.eqb_eq; lia.
  - rewrite !andb_true_iff, !Nat.eqb_eq. intros [[Hs He] Hl].
    destruct (Nat.eqb_spec sl el); [exfalso; lia|].
    subst. cbn. repeat split. lia.
  - destruct (Nat.eqb_spec sc 0), (Nat.eqb_spec ec 0), (Nat.eqb_spec sl el); reflexivity.
Qed.

(** The end (and the active position) of a selection, as its three queries
    give it: the position has the line that the line query gives; its
    character is the one that the character query gives, except after a line
    break, where the character query gives one more (the line break is
    counted); and for a reversed selection the active position is [active]. *)
Theorem end_queries_spec (selection : Selection) (document : TextDocument)
    (p : Position) :
  (Selections.endPosition selection document = Ok p ->
   line p = Selections.endLine selection
   /\ Selections.endCharacter selection document
      = Ok (if Selections.endsWithEntireLine selection
            then character p + 1 else character p))
  /\ (Selections.activePosition selection document = Ok p ->
      line p = Selections.activeLine selection
      /\ (isReversed selection = true -> p = active selection)).
Proof.
  assert (Hend : Selections.endPosition selection document = Ok p ->
                 line p = Selections.endLine selection
                 /\ Selections.endCharacter selection document
                    = Ok (if Selections.endsWithEntireLine selection
                          then character p + 1 else character p)).
  { pose proof (start_le_end selection) as Horder.
    unfold Selections.endPosition, Selections.endCharacter, Selections.endLine,
      Selections.endsWithEntireLine.
    rewrite (andb_comm (character (end_ selection) =? 0)).
    destruct (negb (line (start selection) =? line (end_ selection))
              && (character (end_ selection) =? 0)) eqn:Ebreak.
    - apply andb_true_iff in Ebreak as [Hl%negb_true_iff%Nat.eqb_neq Hc%Nat.eqb_eq].
      replace (line (end_ selection) - 1 =? line (end_ selection)) with false
        by (symmetry; apply Nat.eqb_neq; lia).
      cbn [negb]. destruct (lineAt document _) as [text|e]; cbn; [|discriminate].
      intros [= <-]. split; reflexivity.
    - rewrite Nat.eqb_refl. cbn. intros [= <-]. split; reflexivity. }
  split; [exact Hend|].
  unfold Selections.activePosition, Selections.activeLine.
  destruct (isReversed selection).
  - intros [= <-]. split; reflexivity.
  - intros H. split; [now apply Hend | discriminate].
Qed.

Lemma end_queries_spec_witness :
  line (mkPosition 0 2) = Selections.endLine (sel 0 1 1 0)
  /\ Selections.endCharacter (sel 0 1 1 0) (mkDocument ["ab"; "cd"]%string)
     = Ok (if Selections.endsWithEntireLine (sel 0 1 1 0) then 2 + 1 else 2).
Proof.
  apply (proj1 (end_queries_spec (sel 0 1 1 0) (mkDocument ["ab"; "cd"]%string)
                  (mkPosition 0 2))).
  reflexivity.
Defined.

(** ** Lines of the selections *)

Lemma absentLine_false lines_ n : absentLine lines_ n = false <-> n ∈ lines_.
Proof.
  unfold absentLine. rewrite negb_false_iff, existsb_exists, list_elem_of_In.
  split.
  - intros (x & Hx & ->%Nat.eqb_eq). exact Hx.
  - intros H. exists n. split; [exact H | apply Nat.eqb_refl].
Qed.

Lemma elem_of_push_absent lines_ n l :
  l ∈ (if absentLine lines_ n then lines_ ++ [n] else lines_) <-> l ∈ lines_ \/ l = n.
Proof.
  destruct (absentLine lines_ n) eqn:E.
  - rewrite elem_of_app, list_elem_of_singleton. reflexivity.
  - apply absentLine_false in E. split; [auto | intros [H | ->]; assumption].
Qed.

Lemma endLine_ge_start selection :
  line (start selection) <= Selections.endLine selection.
Proof.
  pose proof (start_le_end selection). unfold Selections.endLine.
  destruct (Nat.eqb_spec (line (start selection)) (line (end_ selection)));
    cbn [negb andb]; [lia|].
  destruct (character (end_ selection) =? 0); lia.
Qed.

Lemma selectionsLinesLoop_elem selections : forall lines_ l,
  l ∈ selectionsLinesLoop selections lines_
  <-> l ∈ lines_
      \/ exists selection, selection ∈ selections
           /\ line (start selection) <= l <= Selections.endLine selection.
Proof.
  induction selections as [|selection rest IH]; intros lines_ l; cbn [selectionsLinesLoop].
  - split; [auto | intros [H | (s & Hs & _)]; [exact H | inversion Hs]].
  - pose proof (endLine_ge_start selection) as Hge.
    rewrite IH. clear IH.
    set (startLine := line (start selection)) in *.
    set (endLine := Selections.endLine selection) in *.
    set (lines1 := if absentLine lines_ startLine then lines_ ++ [startLine] else lines_).
    set (lines2 := lines1 ++ seq (startLine + 1) (endLine - (startLine + 1))).
    assert (H2 : l ∈ lines2 <-> l ∈ lines_ \/ l = startLine \/ startLine < l < endLine).
    { unfold lines2, lines1.
      rewrite elem_of_app, elem_of_push_absent, elem_of_seq. intuition lia. }
    assert (H3 : l ∈ (if negb (endLine =? startLine) && absentLine lines2 endLine
                      then lines2 ++ [endLine] else lines2)
                 <-> l ∈ lines_ \/ startLine <= l <= endLine).
    { destruct (Nat.eqb_spec endLine startLine) as [Heq | Hne]; cbn [negb andb].
      - rewrite H2. intuition lia.
      - rewrite elem_of_push_absent, H2. intuition lia. }
    rewrite H3. split.
    + intros [[H | H] | (s & Hs & H)].
      * left. exact H.
      * right. exists selection. split; [left | exact H].
      * right. exists s. split; [now right | exact H].
    + intros [H | (s & Hs & H)]; [left; left; exact H|].
      apply elem_of_cons in Hs as [-> | Hs].
      * left. right. exact H.
      * right. exists s. split; assumption.
Qed.

(** [selectionsLines] returns the lines touched by the selections: a line is
    in the result exactly when it lies between the start line and the end line
    (in the sense of [endLine]) of one of the selections; of one selection,
    the result is the list of these lines in increasing order. *)
Theorem selectionsLines_spec (selections : list Selection) :
  (forall l,
     l ∈ selectionsLines selections
     <-> exists selection, selection ∈ selections
           /\ line (start selection) <= l <= Selections.endLine selection)
  /\ (forall selection,
        selectionsLines [selection]
        = seq (line (start selection))
              (Selections.endLine selection - line (start selection) + 1)).
Proof.
  split.
  - intros l. unfold selectionsLines. rewrite selectionsLinesLoop_elem.
    split; [intros [H | H]; [inversion H | exact H] | auto].
  - intros selection. pose proof (endLine_ge_start selection) as Hge.
    unfold selectionsLines. cbn [selectionsLinesLoop absentLine existsb negb app].
    set (startLine := line (start selection)) in *.
    set (endLine := Selections.endLine selection) in *.
    destruct (Nat.eqb_spec endLine startLine) as [Heq | Hne]; cbn [negb andb].
    + rewrite Heq. replace (startLine - (startLine + 1)) with 0 by lia.
      now replace (startLine - startLine + 1) with 1 by lia.
    + assert (Habsent : absentLine
                (startLine :: seq (startLine + 1) (endLine - (startLine + 1))) endLine
                = true).
      { apply not_false_iff_true. rewrite absentLine_false, elem_of_cons, elem_of_seq.
        lia. }
      rewrite Habsent.
      replace (endLine - startLine + 1) with (1 + (endLine - (startLine + 1)) + 1) by lia.
      rewrite !seq_app. cbn [seq app]. do 3 f_equal. lia.
Qed.

(** The example of the documentation of [selectionsLines]. *)
Example selectionsLines_example :
  selectionsLines [sel 0 0 0 2; sel 1 0 1 1; sel 3 0 3 1; sel 3 1 4 1; sel 5 0 5 0;
                   sel 6 1 6 3]
  = [0; 1; 3; 4; 5; 6].
Proof. reflexivity. Qed.

(** ** Mode translation, the other way round *)

(** [toCharacterMode(fromCharacterMode(S))] is [S] for every list of empty or
    forward-facing selections that lie in the document and do not end at the
    absolute end of the buffer. *)
Theorem characterTrip_extensible (document : TextDocument) (selections : list Selection) :
  Forall (extensible document) selections ->
  characterTrip selections document = Ok selections.
Proof.
  unfold characterTrip.
  induction 1 as [|selection rest (Ha & Hb & Hfwd & Hend) _ IH]; [reflexivity|].
  destruct (toCharacterMode_fromCharacterMode1 selection document Ha Hb Hfwd Hend)
    as (s & Hfrom & Hto).
  cbn [Selections.fromCharacterMode]. rewrite Hfrom. cbn.
  destruct (Selections.fromCharacterMode rest document) as [ss|e]; cbn in *;
    [|discriminate].
  now rewrite Hto, IH.
Qed.

Lemma characterTrip_extensible_witness :
  characterTrip [sel 0 0 0 0; sel 0 1 0 2; sel 0 0 1 1] (mkDocument ["ab"; "cd"]%string)
  = Ok [sel 0 0 0 0; sel 0 1 0 2; sel 0 0 1 1].
Proof.
  apply characterTrip_extensible.
  repeat constructor;
    try (exists "ab"%string; split; [reflexivity | cbn; lia]);
    try (exists "cd"%string; split; [reflexivity | cbn; lia]);
    intros (Hline & text & [= <-] & Hcharacter); discriminate.
Defined.

(** A selection of one character, whatever its direction, becomes the empty
    selection at its start in character mode; and an empty selection that
    lies in the document, away from the absolute end of the buffer, becomes
    in caret mode a forward-facing selection of one character that starts
    where it was. *)
Theorem single_character_spec (document : TextDocument) (selection : Selection) :
  (Selections.isSingleCharacter selection document = Ok true ->
   Selections.toCharacterMode [selection] document
   = Ok [Selections.empty (start selection)])
  /\ (isEmpty selection = true ->
      validPosition document (active selection) ->
      ~ atEndOfBuffer document (active selection) ->
      exists s,
        Selections.fromCharacterMode [selection] document = Ok [s]
        /\ Selections.isSingleCharacter s document = Ok true
        /\ isReversed s = false
        /\ start s = start selection).
Proof.
  destruct selection as [[al ac] [bl bc]]. split.
  - unfold Selections.isSingleCharacter, Selections.toCharacterMode,
      Selections.toCharacterMode1, Selections.empty, Lines.length, lineAt, start, end_,
      isBefore.
    destruct (lt_eq_lt_dec al bl) as [[Hl | ->] | Hl]; decide_numbers.
    + destruct (Nat.eqb_spec (al + 1) bl) as [Hnext | ?]; [|cbn; discriminate].
      destruct (Nat.eqb_spec bc 0) as [-> | ?]; [|cbn; discriminate].
      replace (bl - 1) with al by lia. decide_numbers.
      destruct (lines document !! al) as [text|]; cbn; [|discriminate].
      intros [= Hlen%Nat.eqb_eq]. now rewrite Hlen.
    + destruct (Nat.ltb_spec ac bc) as [Hc | Hc]; decide_numbers.
      * intros [= Hone%Nat.eqb_eq]. decide_numbers. reflexivity.
      * intros [= Hone%Nat.eqb_eq]. decide_numbers. reflexivity.
    + destruct (Nat.eqb_spec (bl + 1) al) as [Hnext | ?]; [|cbn; discriminate].
      destruct (Nat.eqb_spec ac 0) as [-> | ?]; [|cbn; discriminate].
      decide_numbers.
      destruct (lines document !! bl) as [text|]; cbn; [|discriminate].
      intros [= Hlen%Nat.eqb_eq]. subst bc. now rewrite Nat.eqb_refl.
  - intros Hempty%isEqual_spec (text & Htext & Hbc) Hend.
    cbn [anchor active line character] in *. injection Hempty as -> ->.
    unfold Selections.fromCharacterMode, Selections.fromCharacterMode1, lineAt.
    decide_numbers. rewrite Htext. cbn [mbind mret result_bind result_ret].
    destruct (Nat.eqb_spec bc (String.length text)) as [Heol | Hmid].
    + destruct (Nat.ltb_spec (bl + 1) (lineCount document)) as [Hnext | Hlast].
      * eexists. split; [reflexivity|].
        unfold Selections.isSingleCharacter, isReversed, start, end_, isBefore, lineAt.
        decide_numbers. rewrite Htext. cbn.
        rewrite Heol, Nat.eqb_refl. repeat split.
      * exfalso. apply Hend. apply lookup_lt_Some in Htext as Hlt.
        unfold lineCount in *. split; [unfold lineCount; cbn; lia | exists text; now split].
    + eexists. split; [reflexivity|].
      unfold Selections.isSingleCharacter, isReversed, start, end_, isBefore.
      decide_numbers. repeat split.
Qed.

Lemma single_character_spec_witness :
  Selections.toCharacterMode [sel 1 0 0 1] (mkDocument ["a"; "b"]%string)
  = Ok [Selections.empty (start (sel 1 0 0 1))].
Proof.
  apply (proj1 (single_character_spec (mkDocument ["a"; "b"]%string) (sel 1 0 0 1))).
  reflexivity.
Defined.

(** * Further properties of the merge *)

Section MergeInvariants.

Variable selections_ : list Selection.
Variable alsoMergeConsecutiveSelections : bool.

Ltac branches :=
  repeat match goal with
         | |- context [if ?c then _ else _] => destruct c eqn:?
         end.

(** The inner loop leaves [newSelections] as it was, or initializes it with
    the selections before index [i]. *)
Lemma mergeInner_newSelections i fuel : forall j st st',
  mergeInner fuel selections_ alsoMergeConsecutiveSelections i j st = Some st' ->
  newSelections st' = newSelections st
  \/ (newSelections st = None /\ newSelections st' = Some (take i selections_)).
Proof.
  induction fuel as [|fuel IH]; intros j st st'; [discriminate|].
  cbn [mergeInner]. destruct (selections_ !! j) as [b|]; [|intros [= <-]; now left].
  branches; intros H; apply IH in H; cbn [newSelections] in H; try exact H.
  destruct (newSelections st) as [l|]; cbn [default from_option id] in H.
  - destruct H as [H | [H _]]; [now left | discriminate].
  - destruct H as [H | [H _]]; [right; now split | discriminate].
Qed.

Lemma mergeOuter_pushed n : forall i ignoreSelections_ newSelections_ r,
  1 <= i ->
  pushedBefore i newSelections_ ->
  mergeOuter n selections_ alsoMergeConsecutiveSelections i
    ignoreSelections_ newSelections_ = Some r ->
  pushedBefore (i + n) r.
Proof.
  induction n as [|n IH]; intros i ig ns r Hi Hns; cbn [mergeOuter].
  - intros [= <-]. now rewrite Nat.add_0_r.
  - assert (Hweak : forall m, pushedBefore i ns -> pushedBefore (i + m) ns).
    { intros m. unfold pushedBefore. destruct ns; [lia | trivial]. }
    destruct (selections_ !! i) as [a|] eqn:Ha; [|intros [= <-]; now apply Hweak].
    replace (i + S n) with (S i + n) by lia.
    destruct (ignored ig i).
    { apply IH; [lia|]. replace (S i) with (i + 1) by lia. now apply Hweak. }
    destruct (mergeInner _ _ _ _ _ _) as [st|] eqn:Hst; cbn; [|discriminate].
    apply IH; [lia|].
    apply mergeInner_newSelections in Hst. cbn [newSelections] in Hst.
    assert (Htake : length (take i selections_) <= i) by (rewrite length_take; lia).
    unfold pushedBefore in *.
    destruct (changed st).
    + destruct Hst as [-> | [-> ->]]; [destruct ns|]; cbn [default from_option id];
        rewrite length_app; cbn [length]; lia.
    + destruct Hst as [-> | [-> ->]]; [destruct ns; [|exact I]|];
        rewrite length_app; cbn [length]; lia.
Qed.

End MergeInvariants.

(** The merge returns for every list of selections, in both modes: the inner
    loop, which starts again after every merge, comes to an end.  The list it
    returns is not longer than the list given, and it is not empty unless
    the list given is. *)
Theorem mergeOverlappingSelections_returns
    (selections_ : list Selection) (alsoMergeConsecutiveSelections : bool) :
  exists merged,
    mergeOverlappingSelections selections_ alsoMergeConsecutiveSelections = Some merged
    /\ length merged <= length selections_
    /\ (selections_ <> [] -> merged <> []).
Proof.
  destruct (mergeOverlappingSelections_total selections_ alsoMergeConsecutiveSelections)
    as [merged Hmerged].
  exists merged. split; [exact Hmerged|].
  unfold mergeOverlappingSelections in Hmerged.
  destruct (mergeOuter _ _ _ _ _ _) as [r|] eqn:Houter; cbn in Hmerged; [|discriminate].
  injection Hmerged as <-.
  destruct selections_ as [|a rest]; [cbn in Houter; injection Houter as <-; cbn; split; [lia | congruence]|].
  destruct r as [l|]; cbn [default from_option id]; [|split; [lia | congruence]].
  cbn [length mergeOuter lookup list_lookup replicate ignored] in Houter.
  destruct (mergeInner _ _ _ _ _ _) as [st|] eqn:Hst; cbn in Houter; [|discriminate].
  apply mergeOuter_pushed in Houter; [|lia|].
  - cbn in Houter. split; [cbn; lia|]. intros _ ->. cbn in Houter. lia.
  - apply mergeInner_newSelections in Hst. cbn [newSelections take] in Hst.
    unfold pushedBefore.
    destruct (changed st); destruct Hst as [-> | [_ ->]]; cbn; try exact I; lia.
Qed.

Lemma apart_tests a b alsoMergeConsecutiveSelections :
  apart a b ->
  isAfterOrEqual (start a) (start b)
  && (isBefore (start a) (end_ b)
      || (alsoMergeConsecutiveSelections && isEqual (start a) (end_ b))) = false
  /\ (isAfter (end_ a) (start b)
       || (alsoMergeConsecutiveSelections && isEqual (end_ a) (start b)))
      && isBeforeOrEqual (end_ a) (end_ b) = false.
Proof.
  intros Hapart. pose proof (start_le_end a) as Ha. pose proof (start_le_end b) as Hb.
  unfold apart in Hapart. rewrite !isBefore_spec in Hapart.
  destruct (start a) as [asl asc], (end_ a) as [ael aec],
           (start b) as [bsl bsc], (end_ b) as [bel bec].
  cbn [line character] in *.
  unfold isAfterOrEqual, isAfter, isBeforeOrEqual, isBefore, isEqual.
  cbn [line character].
  destruct alsoMergeConsecutiveSelections; split;
    compare_numbers; cbn [negb andb orb]; try reflexivity; exfalso; lia.
Qed.

Section MergeApart.

Variable selections_ : list Selection.
Variable alsoMergeConsecutiveSelections : bool.

Hypothesis not_empty : Forall (fun selection => isEmpty selection = false) selections_.
Hypothesis all_apart : forall i j a b,
  i < j -> selections_ !! i = Some a -> selections_ !! j = Some b -> apart a b.

Lemma mergeInner_apart i a fuel : forall j st,
  selections_ !! i = Some a ->
  i < j ->
  aStart st = start a -> aEnd st = end_ a -> aIsEmpty st = false ->
  length selections_ - j < fuel ->
  mergeInner fuel selections_ alsoMergeConsecutiveSelections i j st = Some st.
Proof.
  induction fuel as [|fuel IH]; intros j st Ha Hij Hs He Hne Hfuel; [lia|].
  cbn [mergeInner]. destruct (selections_ !! j) as [b|] eqn:Hb; [|reflexivity].
  apply lookup_lt_Some in Hb as Hlt.
  assert (Hnext : mergeInner fuel selections_ alsoMergeConsecutiveSelections i (S j) st
                  = Some st) by (apply IH; auto; lia).
  destruct (ignored (ignoreSelections st) j); [exact Hnext|].
  destruct (apart_tests a b alsoMergeConsecutiveSelections (all_apart i j a b Hij Ha Hb))
    as [Htest1 Htest2].
  now rewrite Hne, Hs, He, Htest1, Htest2.
Qed.

Lemma mergeOuter_apart n : forall i ignoreSelections_,
  mergeOuter n selections_ alsoMergeConsecutiveSelections i ignoreSelections_ None
  = Some None.
Proof.
  induction n as [|n IH]; intros i ig; cbn [mergeOuter]; [reflexivity|].
  destruct (selections_ !! i) as [a|] eqn:Ha; [|reflexivity].
  destruct (ignored ig i); [apply IH|].
  rewrite (mergeInner_apart i a); cbn [aStart aEnd aIsEmpty]; auto; try lia.
  - cbn. apply IH.
  - rewrite isEqual_start_end.
    rewrite Forall_forall in not_empty. apply not_empty.
    apply list_elem_of_lookup. eauto.
Qed.

End MergeApart.

(** A list of selections none of which is empty, and any two of which are
    apart, is returned as it is, in both modes. *)
Theorem mergeOverlappingSelections_apart
    (selections_ : list Selection) (alsoMergeConsecutiveSelections : bool) :
  Forall (fun selection => isEmpty selection = false) selections_ ->
  (forall i j a b,
     i < j -> selections_ !! i = Some a -> selections_ !! j = Some b -> apart a b) ->
  mergeOverlappingSelections selections_ alsoMergeConsecutiveSelections
  = Some selections_.
Proof.
  intros Hnot_empty Hapart. unfold mergeOverlappingSelections.
  now rewrite mergeOuter_apart.
Qed.

Lemma mergeOverlappingSelections_apart_witness :
  mergeOverlappingSelections [sel 0 4 0 7; sel 0 0 0 3; sel 1 2 0 9] true
  = Some [sel 0 4 0 7; sel 0 0 0 3; sel 1 2 0 9].
Proof.
  apply mergeOverlappingSelections_apart.
  - repeat constructor.
  - intros [|[|[|i]]] [|[|[|j]]] a b Hij [= <-] [= <-]; try lia; cbv; auto.
Defined.

Lemma fromStartEnd_start_end selection :
  Selections.fromStartEnd (start selection) (end_ selection) (isReversed selection)
  = selection.
Proof. destruct selection as [[al ac] [bl bc]]. positions. Qed.

(** The three ways in which two positions compare, with the value of every
    comparison in each. *)
Inductive Compared (p q : Position) : Prop :=
| compared_before :
    isBefore p q = true -> isBefore q p = false ->
    isEqual p q = false -> isEqual q p = false ->
    isBeforeOrEqual p q = true -> isBeforeOrEqual q p = false -> Compared p q
| compared_equal : p = q -> Compared p q
| compared_after :
    isBefore p q = false -> isBefore q p = true ->
    isEqual p q = false -> isEqual q p = false ->
    isBeforeOrEqual p q = false -> isBeforeOrEqual q p = true -> Compared p q.

Lemma compared p q : Compared p q.
Proof.
  destruct p as [pl pc], q as [ql qc].
  destruct (lt_eq_lt_dec pl ql) as [[Hl | Hl] | Hl];
    [| destruct (lt_eq_lt_dec pc qc) as [[Hc | Hc] | Hc] |].
  - apply compared_before; positions.
  - apply compared_before; positions.
  - apply compared_equal. now subst.
  - apply compared_after; positions.
  - apply compared_after; positions.
Qed.

Lemma isBeforeOrEqual_refl p : isBeforeOrEqual p p = true.
Proof. destruct p. positions. Qed.

(** Two selections that are not empty and that overlap are merged into one
    selection, which covers both and has the direction of the first, unless
    the second lies strictly inside the first. *)
Theorem mergeOverlappingSelections_pair
    (a b : Selection) (alsoMergeConsecutiveSelections : bool) :
  isEmpty a = false ->
  isEmpty b = false ->
  isBefore (start a) (end_ b) = true ->
  isBefore (start b) (end_ a) = true ->
  ~ (isBefore (start a) (start b) = true /\ isBefore (end_ b) (end_ a) = true) ->
  mergeOverlappingSelections [a; b] alsoMergeConsecutiveSelections
  = Some [Selections.fromStartEnd
            (if isBefore (start b) (start a) then start b else start a)
            (if isBefore (end_ a) (end_ b) then end_ b else end_ a)
            (isReversed a)].
Proof.
  intros Ha Hb Hab Hba Hinside.
  unfold mergeOverlappingSelections.
  cbn [length replicate mergeOuter lookup list_lookup ignored Nat.add Nat.mul
       mergeInner insert list_insert ignoreSelections aIsEmpty aStart aEnd changed
       newSelections mbind option_bind take default from_option id app].
  rewrite !isEqual_start_end, Ha.
  pose proof (fromStartEnd_start_end a) as Hsame.
  assert (Hab' : isBeforeOrEqual (end_ b) (start a) = false).
  { destruct (compared (start a) (end_ b)) as [| Heq |]; try congruence.
    rewrite Heq, isBefore_irrefl in Hab. discriminate. }
  assert (Hba' : isBeforeOrEqual (end_ a) (start b) = false).
  { destruct (compared (start b) (end_ a)) as [| Heq |]; try congruence.
    rewrite Heq, isBefore_irrefl in Hba. discriminate. }
  unfold isAfterOrEqual, isAfter. rewrite Hab, Hba'.
  cbn [negb andb orb].
  destruct (compared (start a) (start b)) as [Hs1 Hs2 Hs3 Hs4 Hs5 Hs6 | Hs | Hs1 Hs2 Hs3 Hs4 Hs5 Hs6];
    destruct (compared (end_ a) (end_ b)) as [He1 He2 He3 He4 He5 He6 | He | He1 He2 He3 He4 He5 He6];
    try (exfalso; apply Hinside; split; assumption);
    try rewrite Hs; try rewrite He;
    rewrite ?isBefore_irrefl, ?isEqual_refl, ?isBeforeOrEqual_refl,
      ?Hs1, ?Hs2, ?Hs3, ?Hs4, ?Hs5, ?Hs6, ?He1, ?He2, ?He3, ?He4, ?He5, ?He6;
    cbn [negb andb orb ignoreSelections aIsEmpty aStart aEnd changed newSelections
         mbind option_bind default from_option id app lookup list_lookup ignored
         insert list_insert];
    try reflexivity.
  all: try (rewrite <- Hsame at 1; rewrite Hs; reflexivity).
Qed.

Lemma mergeOverlappingSelections_pair_witness :
  mergeOverlappingSelections [sel 0 3 0 0; sel 0 2 0 5] false = Some [sel 0 5 0 0].
Proof.
  apply (mergeOverlappingSelections_pair (sel 0 3 0 0) (sel 0 2 0 5) false);
    try reflexivity.
  intros [_ H]. discriminate H.
Defined.

(** * Further properties of the rotation *)

Section RotatedLists.

Local Open Scope Z_scope.

Variable selections_ : list Selection.
Hypothesis not_empty : selections_ <> [].

Let N := Z.of_nat (length selections_).

Lemma N_pos : 0 < N.
Proof. subst N. destruct selections_; [congruence | cbn [length]; lia]. Qed.

(** Every index of the result is the target of an index of the input. *)
Lemma Rotated_source by_ (m : nat) :
  Z.of_nat m < N ->
  exists i : nat, Z.of_nat i < N /\ Z.to_nat ((Z.of_nat i + by_) mod N) = m.
Proof.
  intros Hm. pose proof N_pos as HN.
  exists (Z.to_nat ((Z.of_nat m - by_) mod N)).
  pose proof (Z.mod_pos_bound (Z.of_nat m - by_) N HN) as Hbound.
  rewrite Z2Nat.id by lia. split; [lia|].
  rewrite Zplus_mod_idemp_l.
  replace (Z.of_nat m - by_ + by_) with (Z.of_nat m) by lia.
  rewrite Z.mod_small by lia. apply Nat2Z.id.
Qed.

Lemma Rotated_unique by_ out1 out2 :
  Rotated by_ selections_ out1 -> Rotated by_ selections_ out2 -> out1 = out2.
Proof.
  intros [Hlen1 H1] [Hlen2 H2]. fold N in H1, H2.
  apply list_eq. intros m.
  destruct (decide (m < length selections_)%nat) as [Hm | Hm].
  - destruct (Rotated_source by_ m ltac:(subst N; lia)) as (i & Hi & <-).
    destruct (lookup_lt_is_Some_2 selections_ i ltac:(subst N; lia)) as [s Hs].
    now rewrite (H1 i s Hs), (H2 i s Hs).
  - rewrite !lookup_ge_None_2 by lia. reflexivity.
Qed.

End RotatedLists.

Lemma Rotated_compose a b selections_ out1 out2 :
  selections_ <> [] ->
  Rotated a selections_ out1 -> Rotated b out1 out2 ->
  Rotated (a + b) selections_ out2.
Proof.
  intros Hne [Hlen1 H1] [Hlen2 H2]. split; [congruence|].
  intros i s Hs. rewrite Hlen1 in H2.
  specialize (H2 _ _ (H1 i s Hs)).
  pose proof (N_pos selections_ Hne) as HN.
  rewrite Z2Nat.id in H2 by (apply Z.mod_pos_bound; exact HN).
  rewrite Zplus_mod_idemp_l in H2.
  now replace (Z.of_nat i + (a + b))%Z with (Z.of_nat i + a + b)%Z by lia.
Qed.

(** The list that satisfies [Rotated]: the last [by mod N] selections, then
    the others. *)
Lemma Rotated_drop_take by_ selections_ :
  selections_ <> [] ->
  let k := (length selections_ - Z.to_nat (by_ mod Z.of_nat (length selections_)))%nat in
  Rotated by_ selections_ (drop k selections_ ++ take k selections_).
Proof.
  intros Hne k. pose proof (N_pos selections_ Hne) as HN.
  pose proof (Z.mod_pos_bound by_ _ HN) as Hk.
  unfold Rotated.
  set (n := length selections_) in *.
  set (r := Z.to_nat (by_ mod Z.of_nat n)) in *.
  assert (Hr : (r < n)%nat) by lia.
  split.
  - rewrite length_app, length_drop, length_take. lia.
  - intros i s Hs. apply lookup_lt_Some in Hs as Hi. fold n in Hi.
    assert (Htarget : Z.to_nat ((Z.of_nat i + by_) mod Z.of_nat n)
                      = if decide (i + r < n)%nat then (i + r)%nat else (i + r - n)%nat).
    { rewrite <- Zplus_mod_idemp_r.
      replace (by_ mod Z.of_nat n)%Z with (Z.of_nat r) by lia.
      case_decide.
      - rewrite Z.mod_small by lia. lia.
      - replace (Z.of_nat i + Z.of_nat r)%Z
          with (Z.of_nat (i + r - n) + 1 * Z.of_nat n)%Z by lia.
        rewrite Z.mod_add by lia. rewrite Z.mod_small by lia. lia. }
    rewrite Htarget. case_decide.
    + rewrite lookup_app_r by (rewrite length_drop; lia).
      rewrite length_drop, lookup_take_lt by lia.
      subst k. fold n. now replace (i + r - (n - (n - r)))%nat with i by lia.
    + rewrite lookup_app_l by (rewrite length_drop; lia).
      rewrite lookup_drop. subst k. fold n.
      now replace (n - r + (i + r - n))%nat with i by lia.
Qed.

Lemma rotateSelections_Rotated by_ selections_ out :
  selections_ <> [] ->
  Rotated by_ selections_ out ->
  rotateSelections by_ selections_ = VSelection <$> out.
Proof.
  intros Hne [Hlen Hout].
  pose proof (N_pos selections_ Hne) as HN.
  set (N := Z.of_nat (length selections_)) in *.
  assert (Hrem : (- N < Z.rem by_ N < N)%Z).
  { pose proof (Z.rem_bound_abs by_ N ltac:(lia)). lia. }
  assert (Hlength : length (rotateSelections by_ selections_) = length selections_).
  { unfold rotateSelections. fold N.
    replace (N =? 0)%Z with false by (symmetry; apply Z.eqb_neq; lia).
    destruct (Z.rem by_ N + N =? N)%Z.
    - apply length_fmap.
    - now rewrite rotateLoop_length, length_replicate. }
  assert (Hlookup : forall i s, selections_ !! i = Some s ->
            rotateSelections by_ selections_ !! Z.to_nat ((Z.of_nat i + by_) mod N)
            = Some (VSelection s)).
  { intros i s Hi.
    assert (Hlt : (Z.of_nat i < N)%Z) by (apply lookup_lt_Some in Hi; lia).
    unfold rotateSelections. fold N.
    replace (N =? 0)%Z with false by (symmetry; apply Z.eqb_neq; lia).
    destruct (Z.rem by_ N + N =? N)%Z eqn:E.
    - apply Z.eqb_eq in E. assert (Hz : Z.rem by_ N = 0%Z) by lia.
      apply rem_zero_mod in Hz; [|exact HN].
      rewrite Z.add_mod, Hz, Z.add_0_r, Z.mod_mod, Z.mod_small by lia.
      now rewrite Nat2Z.id, list_lookup_fmap, Hi.
    - rewrite <- (rem_shift by_ N (Z.of_nat i) HN).
      rewrite <- (target_mod N (Z.rem by_ N + N) HN ltac:(lia) i), Nat2Z.id.
      replace i with (0 + i)%nat at 1 by reflexivity.
      apply rotateLoop_written; try lia; [|exact Hi].
      rewrite length_replicate. subst N. now rewrite Nat2Z.id. }
  apply list_eq. intros m.
  destruct (decide (m < length selections_)%nat) as [Hm | Hm].
  - destruct (Rotated_source selections_ Hne by_ m ltac:(lia)) as (i & Hi & <-).
    destruct (lookup_lt_is_Some_2 selections_ i ltac:(lia)) as [s Hs].
    fold N. rewrite (Hlookup i s Hs), list_lookup_fmap.
    now rewrite (Hout i s Hs).
  - rewrite !lookup_ge_None_2; [reflexivity | rewrite length_fmap; lia | lia].
Qed.

(** [rotateSelections] permutes the selections: the result is the list of
    the last [by mod N] selections followed by the others.  Rotations add up:
    rotating the result of a rotation by [a] by [b] is rotating by [a + b];
    in particular rotating by [- a] undoes a rotation by [a]. *)
Theorem rotateSelections_compose (a b : Z) (selections_ : list Selection) :
  selections_ <> [] ->
  exists rotated,
    rotateSelections a selections_ = VSelection <$> rotated
    /\ rotated ≡ₚ selections_
    /\ rotateSelections b rotated = rotateSelections (a + b) selections_
    /\ rotateSelections (- a) rotated = VSelection <$> selections_.
Proof.
  intros Hne.
  pose proof (Rotated_drop_take a selections_ Hne) as Ha. cbn zeta in Ha.
  set (k := (length selections_ - Z.to_nat (a mod Z.of_nat (length selections_)))%nat) in *.
  set (rotated := drop k selections_ ++ take k selections_) in *.
  assert (Hperm : rotated ≡ₚ selections_).
  { unfold rotated. rewrite Permutation_app_comm. now rewrite take_drop. }
  assert (Hne' : rotated <> []).
  { intros Hnil. rewrite Hnil in Hperm. symmetry in Hperm.
    apply Permutation_nil_r in Hperm. contradiction. }
  assert (Hsum : forall c, rotateSelections c rotated = rotateSelections (a + c) selections_).
  { intros c.
    pose proof (Rotated_drop_take c rotated Hne') as Hc. cbn zeta in Hc.
    rewrite (rotateSelections_Rotated c rotated _ Hne' Hc).
    symmetry. apply rotateSelections_Rotated; [exact Hne|].
    eapply Rotated_compose; eauto. }
  exists rotated. split; [|split; [|split]].
  - now apply rotateSelections_Rotated.
  - exact Hperm.
  - apply Hsum.
  - rewrite Hsum. replace (a + - a)%Z with 0%Z by lia.
    apply rotateSelections_Rotated; [exact Hne|].
    split; [reflexivity|]. intros i s Hs.
    apply lookup_lt_Some in Hs as Hi.
    rewrite Z.add_0_r, Z.mod_small, Nat2Z.id by lia. exact Hs.
Qed.

Lemma rotateSelections_compose_witness :
  exists rotated,
    rotateSelections 1 [sel 0 0 0 3; sel 0 4 0 7; sel 0 8 0 11] = VSelection <$> rotated
    /\ rotated ≡ₚ [sel 0 0 0 3; sel 0 4 0 7; sel 0 8 0 11]
    /\ rotateSelections 4 rotated
        = rotateSelections (1 + 4) [sel 0 0 0 3; sel 0 4 0 7; sel 0 8 0 11]
    /\ rotateSelections (- 1) rotated
        = VSelection <$> [sel 0 0 0 3; sel 0 4 0 7; sel 0 8 0 11].
Proof.
  apply rotateSelections_compose. discriminate.
Defined.

(** * Further properties of the batch transforms *)

Lemma keptSelections_cons test i s rest :
  keptSelections test i (s :: rest)
  = (if test i s then [s] else []) ++ keptSelections test (S i) rest.
Proof.
  unfold keptSelections. cbn [length seq zip zip_with]. rewrite filter_cons.
  case_decide as Hkeep; cbn in Hkeep.
  - now rewrite Hkeep.
  - apply not_true_is_false in Hkeep. now rewrite Hkeep.
Qed.

Lemma filterLoop_kept predicate document rest : forall i,
  filterLoop predicate document i rest
  = VSelection <$> keptSelections
      (fun j s => truthy (predicate j (VSelection s) document)) i rest.
Proof.
  induction rest as [|s rest IH]; intros i; [reflexivity|].
  cbn [filterLoop]. rewrite keptSelections_cons, IH.
  now destruct (truthy _).
Qed.

Lemma keepLoop_kept predicate document savedSelections rest : forall i,
  (forall k s, rest !! k = Some s -> savedSelections !! (i + k) = Some s) ->
  keepLoop (promiseAll (callLoop predicate document i rest)) savedSelections i
  = VSelection <$> keptSelections
      (fun j s => truthy (await (predicate j (VSelection s) document))) i rest.
Proof.
  unfold promiseAll.
  induction rest as [|s rest IH]; intros i Hsaved; [reflexivity|].
  cbn [callLoop fmap list_fmap keepLoop]. rewrite keptSelections_cons.
  rewrite IH.
  - unfold at_. rewrite <- (Nat.add_0_r i) at 2. rewrite (Hsaved 0 s eq_refl).
    now destruct (truthy _).
  - intros k s' Hk. replace (S i + k) with (i + S k) by lia. now apply Hsaved.
Qed.

(** [filterSelections.byIndex] on two selections or more, when the predicate
    returns a boolean at index 0, returns the selections whose result is
    truthy, in their order; on one selection or more, when the predicate
    returns a suspended result at index 0, it is fulfilled with the
    selections whose awaited result is truthy, in their order. *)
Theorem filterSelections_byIndex_kept
    (predicate : ByIndex) (context : Context) (first : Selection) (rest : list Selection) :
  selections context = first :: rest ->
  ((exists b, predicate 0 (VSelection first) (document context) = VBoolean b) ->
   rest <> [] ->
   filterSelections_byIndex predicate None context
   = Returned (VSelection <$> keptSelections
                 (fun j s => truthy (predicate j (VSelection s) (document context)))
                 0 (first :: rest)))
  /\ ((exists v, predicate 0 (VSelection first) (document context) = VThenable v) ->
       filterSelections_byIndex predicate None context
       = Fulfilled (VSelection <$> keptSelections
                      (fun j s => truthy (await (predicate j (VSelection s) (document context))))
                      0 (first :: rest))).
Proof.
  intros Hsel. unfold filterSelections_byIndex. cbn [default from_option id].
  rewrite Hsel. change (at_ (first :: rest) 0) with (VSelection first).
  change (drop 1 (first :: rest)) with (drop 0 rest). rewrite drop_0.
  split.
  - intros [b Hb] Hrest. rewrite Hb.
    destruct rest as [|second rest]; [congruence|]. cbn [length Nat.eqb].
    rewrite filterLoop_kept, (keptSelections_cons _ 0 first). cbn beta. rewrite Hb.
    cbn [truthy].
    destruct b; now rewrite fmap_app.
  - intros [v Hv]. rewrite Hv. unfold Context_then.
    rewrite (keptSelections_cons _ 0 first). cbn beta. rewrite Hv.
    destruct rest as [|second rest].
    + cbn [length Nat.eqb]. change (await (VThenable v)) with (await v).
      unfold keptSelections. cbn. now destruct (truthy (await v)).
    + cbn [length Nat.eqb]. rewrite <- Hv.
      change (predicate 0 (VSelection first) (document context)
              :: callLoop predicate (document context) 1 (second :: rest))
        with (callLoop predicate (document context) 0 (first :: second :: rest)).
      rewrite keepLoop_kept by (intros k s Hk; exact Hk).
      rewrite (keptSelections_cons _ 0 first). cbn beta. now rewrite Hv.
Qed.

Lemma filterSelections_byIndex_kept_witness :
  let context := mkContext (mkDocument ["foo 123"%string]) [sel 0 0 0 3; sel 0 4 0 7] [] in
  let predicate : ByIndex := fun i _ _ => VThenable (VBoolean (i =? 1)) in
  filterSelections_byIndex predicate None context
  = Fulfilled (VSelection <$> keptSelections
                 (fun j s => truthy (await (predicate j (VSelection s) (document context))))
                 0 [sel 0 0 0 3; sel 0 4 0 7]).
Proof.
  intros context predicate.
  apply (proj2 (filterSelections_byIndex_kept predicate context
                  (sel 0 0 0 3) [sel 0 4 0 7] eq_refl)).
  eexists. reflexivity.
Defined.

Lemma defined_no_undefined values : Forall (fun v => v <> VUndefined) (defined values).
Proof.
  induction values as [|v values IH]; cbn [defined]; [constructor|].
  destruct v; cbn [isUndefined]; try exact IH; constructor; try exact IH; discriminate.
Qed.

(** On a non-empty current set, [mapSelections.byIndex] gives the results of
    the function on the selections, in their order, without the undefined
    ones: at once, as they are, when the result at index 0 is not a
    thenable; once awaited, when it is.  In both cases no entry of the array
    is [undefined]. *)
Theorem mapSelections_byIndex_results (f : ByIndex) (context : Context) :
  selections context <> [] ->
  let results := callLoop f (document context) 0 (selections context) in
  ((forall v, head results <> Some (VThenable v)) ->
   mapSelections_byIndex f None context = Returned (defined results))
  /\ ((exists v, head results = Some (VThenable v)) ->
      mapSelections_byIndex f None context = Fulfilled (defined (await <$> results)))
  /\ (forall values,
        settled (mapSelections_byIndex f None context) = Some values ->
        Forall (fun v => v <> VUndefined) values).
Proof.
  intros Hne results.
  pose proof (mapSelections_byIndex_current f context Hne) as Hmap.
  fold results in Hmap. split; [|split].
  - intros Hnow. rewrite Hmap.
    destruct results as [|[] ?]; try reflexivity. now contradiction (Hnow resolved).
  - intros [v Hv]. rewrite Hmap.
    destruct results as [|[] ?]; try discriminate. reflexivity.
  - intros values. rewrite Hmap.
    destruct results as [|[] ?]; cbn [settled]; intros [= <-];
      match goal with
      | |- Forall _ [] => apply (defined_no_undefined [])
      | |- Forall _ (defined _) => apply defined_no_undefined
      | |- Forall _ (?v :: defined ?l) => apply (defined_no_undefined (v :: l))
      | |- Forall _ (if isUndefined ?v then defined ?l else _) =>
          apply (defined_no_undefined (v :: l))
      end.
Qed.

Lemma mapSelections_byIndex_results_witness :
  let context := mkContext (mkDocument ["foo 123"%string]) [sel 0 0 0 3; sel 0 4 0 7] [] in
  let f : ByIndex := fun i _ _ => match i with 0 => VUndefined | _ => VNumber 123 end in
  mapSelections_byIndex f None context
  = Returned (defined (callLoop f (document context) 0 (selections context))).
Proof.
  intros context f.
  assert (Hne : selections context <> []) by discriminate.
  apply (proj1 (mapSelections_byIndex_results f context Hne)).
  intros v. discriminate.
Defined.

Lemma commit_all_or_nothing (transform : list Value -> list Value)
    (c : Completion (list Value)) (context : Context) :
  AllOrNothing context (commit transform c context).
Proof.
  unfold AllOrNothing.
  assert (Hset : forall values,
            match setSelections values context with
            | (Ok ss, context') =>
                exists first rest,
                  ss = first :: rest
                  /\ selections context' = ss
                  /\ document context' = document context
                  /\ revealed context' = revealed context ++ [active first]
            | (Throw _, context') => context' = context
            end).
  { intros values. unfold setSelections, throwIfNotASelectionArray.
    destruct values as [|v values]; [reflexivity|].
    destruct (asSelections (v :: values)) as [[|first rest]|] eqn:Has; try reflexivity.
    - destruct v; cbn in Has; try discriminate.
      destruct (asSelections values); discriminate.
    - exists first, rest. repeat split. }
  destruct c as [xs | e | xs | e]; cbn [commit]; try reflexivity.
  - specialize (Hset (transform xs)).
    destruct (setSelections (transform xs) context) as [[ss | e] context']; exact Hset.
  - specialize (Hset (transform xs)).
    destruct (setSelections (transform xs) context) as [[ss | e] context']; exact Hset.
Qed.

(** A commit is all or nothing.  Whatever the per-selection function does,
    [updateSelections], [updateSelections.byIndex], [withFallback] and
    [withFallback.byIndex] either fail and leave the context as it was, or
    succeed with a list of selections that is not empty, which is then the
    current set of the context: the current set is never left empty. *)
Theorem update_all_or_nothing (f : Mapper) (g : ByIndex) (context : Context) :
  AllOrNothing context (updateSelections f context)
  /\ AllOrNothing context (updateSelections_byIndex g context)
  /\ AllOrNothing context (updateSelections_withFallback f context)
  /\ AllOrNothing context (updateSelections_withFallback_byIndex g context).
Proof.
  repeat split; apply commit_all_or_nothing.
Qed.

(** * Properties of the earlier revision *)

(** The examples of the documentation of [normalizeSelections]. *)
Example normalizeSelections_examples :
  Earlier.normalizeSelections [sel 0 0 0 0] (mkDocument [""%string]) = Ok [sel 0 0 0 0]
  /\ Earlier.normalizeSelections [sel 0 0 0 1; sel 0 1 0 0] (mkDocument ["foo"; ""]%string)
      = Ok [sel 0 1 0 0; sel 0 1 0 0]
  /\ Earlier.normalizeSelections [sel 0 3 1 0; sel 1 0 0 3] (mkDocument ["foo"; ""]%string)
      = Ok [sel 1 0 0 3; sel 1 0 0 3]
  /\ Earlier.normalizeSelections [sel 0 0 0 0; sel 0 1 0 1; sel 2 0 2 0]
        (mkDocument ["a"; "b"; ""]%string)
      = Ok [sel 0 1 0 0; sel 1 0 0 1; sel 2 0 2 0].
Proof. repeat split. Qed.

(** The loop of [normalizeSelections] computes the normalization of each
    selection, whenever it starts allocating. *)
Lemma normalizeLoop_mapM (document : TextDocument) (rest : list Selection) :
  forall (pre : list Selection) (newSelections : option (list Selection)),
    (newSelections' ← Earlier.normalizeLoop (pre ++ rest) document (length pre) rest
                        newSelections;
     mret (default (pre ++ rest) newSelections'))
    = (normalized ← mapM (normalize1 document) rest;
       mret (default pre newSelections ++ normalized)).
Proof.
  induction rest as [|s rest IH]; intros pre acc.
  - cbn. now rewrite !app_nil_r.
  - cbn [Earlier.normalizeLoop mapM].
    assert (E : normalize1 document s
                = (changed ← Earlier.normalized s document; mret (default s changed)))
      by reflexivity.
    destruct (Earlier.normalized s document) as [[s'|]|e]; rewrite E;
      cbn [mbind mret result_bind result_ret default from_option id];
      [| |reflexivity].
    + specialize (IH (pre ++ [s]) (Some (default (take (length pre) (pre ++ s :: rest)) acc ++ [s']))).
      rewrite <- app_assoc, length_app, Nat.add_1_r in IH. cbn [app length] in IH.
      rewrite IH. rewrite take_app_length.
      destruct (mapM (normalize1 document) rest); cbn; [|reflexivity].
      now rewrite <- app_assoc.
    + specialize (IH (pre ++ [s])
                    (match acc with Some l => Some (l ++ [s]) | None => None end)).
      rewrite <- app_assoc, length_app, Nat.add_1_r in IH. cbn [app length] in IH.
      rewrite IH.
      destruct (mapM (normalize1 document) rest); cbn; [|reflexivity].
      destruct acc; cbn; now rewrite <- app_assoc.
Qed.

Lemma normalizeSelections_mapM (selections : list Selection) (document : TextDocument) :
  Earlier.normalizeSelections selections document
  = mapM (normalize1 document) selections.
Proof.
  unfold Earlier.normalizeSelections.
  pose proof (normalizeLoop_mapM document selections [] None) as H.
  cbn [app length default from_option id] in H. rewrite H.
  now destruct (mapM (normalize1 document) selections).
Qed.

(** Case analysis on the tests of [normalized] and [fromCharacterMode1]. *)
Ltac tests :=
  repeat (cbn [anchor active line character negb andb orb
                 mbind mret result_bind result_ret default from_option id];
          match goal with
          | |- context [lines ?d !! ?n] => destruct (lines d !! n) eqn:?
          | |- context [?a <? ?b] =>
              destruct (Nat.ltb_spec a b); try (exfalso; lia)
          | |- context [?a <=? ?b] =>
              destruct (Nat.leb_spec a b); try (exfalso; lia)
          | |- context [?a =? ?b] =>
              destruct (Nat.eqb_spec a b); try (exfalso; lia); try subst
          end).

(** A normalized selection is left as it is. *)
Lemma normalize1_fixed (document : TextDocument) (s s' : Selection) :
  normalize1 document s = Ok s' -> Earlier.normalized s' document = Ok None.
Proof.
  destruct s as [[al ac] [vl vc]].
  unfold normalize1, Earlier.normalized at 1, isEmpty, isEqual, lineAt, lineCount.
  tests; intros [= <-];
    unfold Earlier.normalized, isEmpty, isEqual, lineAt, lineCount;
    tests; try reflexivity; try lia; try congruence;
    repeat match goal with H : Some _ = Some _ |- _ => injection H as H; subst end;
    lia.
Qed.

(** [normalizeSelections] is idempotent: normalizing selections that it
    returned gives them back, and raises no error. *)
Theorem normalizeSelections_idempotent (selections selections' : list Selection)
    (document : TextDocument) :
  Earlier.normalizeSelections selections document = Ok selections' ->
  Earlier.normalizeSelections selections' document = Ok selections'.
Proof.
  rewrite !normalizeSelections_mapM. revert selections'.
  induction selections as [|s rest IH]; intros out; cbn [mapM].
  - now intros [= <-].
  - destruct (normalize1 document s) as [s'|] eqn:E; [|discriminate].
    destruct (mapM (normalize1 document) rest) as [rest'|]; [|discriminate].
    intros [= <-].
    assert (E' : normalize1 document s' = Ok s')
      by (unfold normalize1; now rewrite (normalize1_fixed _ _ _ E)).
    change (mapM (normalize1 document) (s' :: rest'))
      with (y ← normalize1 document s';
            k ← mapM (normalize1 document) rest'; mret (y :: k)).
    now rewrite E', (IH rest' eq_refl).
Qed.

Lemma normalizeSelections_idempotent_witness :
  Earlier.normalizeSelections
    [sel 1 0 0 1; sel 1 0 0 1; sel 1 1 1 1] (mkDocument ["a"; "b"]%string)
  = Ok [sel 1 0 0 1; sel 1 0 0 1; sel 1 1 1 1].
Proof.
  apply (normalizeSelections_idempotent [sel 0 1 0 1; sel 0 1 1 0; sel 1 1 1 1]).
  reflexivity.
Defined.

Lemma normalize1_spec (document : TextDocument) (s : Selection) :
  validPosition document (anchor s) ->
  exists s', normalize1 document s = Ok s' /\ Normalized document s s'.
Proof.
  destruct s as [[al ac] [vl vc]]. intros (text & Hl & Hc).
  cbn [anchor line character] in Hl, Hc.
  unfold normalize1, Earlier.normalized, isEmpty, isEqual, lineAt, lineCount.
  tests; try discriminate Hl; injection Hl as ->;
    (eexists; split; [reflexivity|]);
    unfold Normalized, forwardCharacter, atEndOfBuffer, lineCount,
      start, end_, isEmpty, isEqual, isBefore;
    tests;
    repeat (split || intro);
    repeat match goal with
           | H : _ /\ _ |- _ => destruct H
           | H : _ \/ _ |- _ => destruct H
           | H : exists _, _ |- _ => destruct H
           | H : Some _ = Some _ |- _ => injection H as H; subst
           end;
    try discriminate; try congruence; try lia; try (f_equal; lia);
    try (eexists; split; [reflexivity|lia]);
    match goal with
    | H : lines _ !! _ = Some _ |- _ => apply lookup_lt_Some in H; lia
    end.
Qed.

(** On selections whose anchors lie in the document,
    [normalizeSelections] raises no error and returns one selection for each
    given selection, with the same start; a selection that is not empty keeps
    its end, an empty selection keeps its active position and stays empty at
    the absolute end of the document only, and no returned selection is a
    1-character selection with its active position after its anchor. *)
Theorem normalizeSelections_spec (selections : list Selection)
    (document : TextDocument) :
  Forall (fun s => validPosition document (anchor s)) selections ->
  exists selections',
    Earlier.normalizeSelections selections document = Ok selections'
    /\ Forall2 (Normalized document) selections selections'.
Proof.
  rewrite normalizeSelections_mapM.
  induction 1 as [|s rest Hs _ (rest' & E & IH)].
  - exists []. split; [reflexivity|constructor].
  - destruct (normalize1_spec document s Hs) as (s' & E' & Hs').
    exists (s' :: rest').
    change (mapM (normalize1 document) (s :: rest))
      with (y ← normalize1 document s;
            k ← mapM (normalize1 document) rest; mret (y :: k)).
    rewrite E', E. split; [reflexivity|now constructor].
Qed.

Lemma normalizeSelections_spec_witness :
  exists selections',
    Earlier.normalizeSelections [sel 0 1 0 1; sel 0 1 1 0; sel 1 1 1 1]
      (mkDocument ["a"; "b"]%string) = Ok selections'
    /\ Forall2 (Normalized (mkDocument ["a"; "b"]%string))
         [sel 0 1 0 1; sel 0 1 1 0; sel 1 1 1 1] selections'.
Proof.
  apply (normalizeSelections_spec [sel 0 1 0 1; sel 0 1 1 0; sel 1 1 1 1]).
  repeat constructor; (eexists; split; [reflexivity|cbn; lia]).
Defined.

Lemma fromCharacterMode1_direction (s : Selection) (document : TextDocument) :
  Earlier.fromCharacterMode1 s document Earlier.Forward
  = Selections.fromCharacterMode1 s document
  /\ Earlier.fromCharacterMode1 s document Earlier.Backward
     = (s' ← Selections.fromCharacterMode1 s document; mret (turned s s')).
Proof.
  destruct s as [[al ac] [vl vc]].
  unfold Earlier.fromCharacterMode1, Selections.fromCharacterMode1, turned,
    isEmpty, isEqual, lineAt, lineCount.
  split; tests; try reflexivity; try lia.
Qed.

(** The direction of the earlier [fromCharacterMode]: forward, it is the
    later [fromCharacterMode]; backward, it differs on the empty selections
    only, which it extends to the same character with the anchor and the
    active position exchanged. *)
Theorem fromCharacterMode_direction (selections : list Selection)
    (document : TextDocument) :
  Earlier.fromCharacterMode selections document Earlier.Forward
  = Selections.fromCharacterMode selections document
  /\ Earlier.fromCharacterMode selections document Earlier.Backward
     = (caretModeSelections ← Selections.fromCharacterMode selections document;
        mret (zip_with turned selections caretModeSelections)).
Proof.
  induction selections as [|s rest [IHf IHb]]; [now split|].
  destruct (fromCharacterMode1_direction s document) as [Hf Hb].
  cbn [Earlier.fromCharacterMode Selections.fromCharacterMode].
  rewrite Hf, Hb, IHf, IHb.
  split; [reflexivity|].
  destruct (Selections.fromCharacterMode1 s document); [|reflexivity].
  now destruct (Selections.fromCharacterMode rest document).
Qed.

Lemma normalize1_empty (document : TextDocument) (s : Selection) :
  isEmpty s = true -> validPosition document (active s) ->
  normalize1 document s
  = Earlier.fromCharacterMode1 s document Earlier.Backward.
Proof.
  destruct s as [[al ac] [vl vc]]. intros He (text & Hl & Hc). revert He.
  cbn [active line character] in Hl, Hc.
  unfold normalize1, Earlier.normalized, Earlier.fromCharacterMode1,
    isEmpty, isEqual, lineAt, lineCount.
  tests; intros; try discriminate; try reflexivity; try lia;
    repeat match goal with
           | H : lines ?d !! ?n = _, H' : lines ?d !! ?n = _ |- _ => rewrite H in H'
           | H : Some _ = Some _ |- _ => injection H as H; subst
           | H : None = Some _ |- _ => discriminate H
           | H : Some _ = None |- _ => discriminate H
           end;
    lia.
Qed.

(** On empty selections in the document, [normalizeSelections] and the
    backward [fromCharacterMode] agree. *)
Theorem normalizeSelections_empty (selections : list Selection)
    (document : TextDocument) :
  Forall (fun s => isEmpty s = true /\ validPosition document (active s)) selections ->
  Earlier.normalizeSelections selections document
  = Earlier.fromCharacterMode selections document Earlier.Backward.
Proof.
  rewrite normalizeSelections_mapM.
  induction 1 as [|s rest [He Hv] _ IH]; [reflexivity|].
  change (mapM (normalize1 document) (s :: rest))
    with (y ← normalize1 document s;
          k ← mapM (normalize1 document) rest; mret (y :: k)).
  cbn [Earlier.fromCharacterMode].
  now rewrite (normalize1_empty document s He Hv), IH.
Qed.

Lemma normalizeSelections_empty_witness :
  Earlier.normalizeSelections [sel 0 0 0 0; sel 0 1 0 1; sel 1 1 1 1]
    (mkDocument ["a"; "b"]%string)
  = Earlier.fromCharacterMode [sel 0 0 0 0; sel 0 1 0 1; sel 1 1 1 1]
      (mkDocument ["a"; "b"]%string) Earlier.Backward.
Proof.
  apply (normalizeSelections_empty [sel 0 0 0 0; sel 0 1 0 1; sel 1 1 1 1]).
  repeat constructor; (eexists; split; [reflexivity|cbn; lia]).
Defined.

Lemma toCharacterMode1_revisions (s : Selection) (document : TextDocument) :
  ~ anchoredAfterLineBreak s ->
  Earlier.toCharacterMode1 s document = Selections.toCharacterMode1 s document.
Proof.
  destruct s as [[al ac] [vl vc]]. unfold anchoredAfterLineBreak.
  cbn [anchor active line character]. intros Hnot.
  unfold Earlier.toCharacterMode1, Selections.toCharacterMode1, Lines.length, lineAt.
  tests; try reflexivity; try lia; repeat f_equal; lia.
Qed.

(** The two revisions of [toCharacterMode] agree on the selections whose
    anchor is not at the start of the line after the line of their active
    position; a selection of the line break at the end of a line, active
    position first, is left as it is by the earlier revision and made empty
    by the later one. *)
Theorem toCharacterMode_revisions (selections : list Selection)
    (document : TextDocument) :
  (Forall (fun s => ~ anchoredAfterLineBreak s) selections ->
   Earlier.toCharacterMode selections document
   = Selections.toCharacterMode selections document)
  /\ (forall l text,
        lines document !! l = Some text ->
        let s := sel (l + 1) 0 l (String.length text) in
        Earlier.toCharacterMode [s] document = Ok [s]
        /\ Selections.toCharacterMode [s] document
           = Ok [Selections.empty (mkPosition l (String.length text))]).
Proof.
  split.
  - induction 1 as [|s rest Hs _ IH]; [reflexivity|].
    cbn [Earlier.toCharacterMode Selections.toCharacterMode].
    now rewrite (toCharacterMode1_revisions s document Hs), IH.
  - intros l text Htext s. unfold s, sel, Selections.fromAnchorActive.
    cbn [Earlier.toCharacterMode Selections.toCharacterMode].
    unfold Earlier.toCharacterMode1, Selections.toCharacterMode1, Lines.length, lineAt.
    cbn [anchor active line character]. rewrite ?Htext.
    split; tests; try reflexivity; try lia.
Qed.

Lemma toCharacterMode_revisions_witness :
  let document := mkDocument ["a"; "b"]%string in
  Earlier.toCharacterMode [sel 1 0 0 1] document = Ok [sel 1 0 0 1]
  /\ Selections.toCharacterMode [sel 1 0 0 1] document
     = Ok [Selections.empty (mkPosition 0 1)].
Proof.
  intros document.
  apply (proj2 (toCharacterMode_revisions [] document) 0 "a"%string).
  reflexivity.
Defined.

Lemma normalizedTrip1 (document : TextDocument) (s : Selection) :
  withinLine document s ->
  (s' ← normalize1 document s; Earlier.toCharacterMode1 s' document) = Ok s.
Proof.
  destruct s as [[al ac] [vl vc]]. intros [He (text & Hl & Hc)]. revert He.
  cbn [active line character] in Hl, Hc.
  unfold normalize1, Earlier.normalized, isEmpty, isEqual, lineAt, lineCount in *.
  tests; intros; try discriminate;
    repeat match goal with
           | H : lines ?d !! ?n = _, H' : lines ?d !! ?n = _ |- _ => rewrite H in H'
           | H : Some _ = Some _ |- _ => injection H as H; subst
           | H : None = Some _ |- _ => discriminate H
           | H : Some _ = None |- _ => discriminate H
           end;
    try lia;
    unfold Earlier.toCharacterMode1; tests; try reflexivity; lia.
Qed.

(** In the earlier revision, [toCharacterMode] undoes [normalizeSelections]
    on the empty selections that are before the end of their line or at the
    absolute end of the document. *)
Theorem normalizedTrip_withinLine (selections : list Selection)
    (document : TextDocument) :
  Forall (withinLine document) selections ->
  normalizedTrip selections document = Ok selections.
Proof.
  unfold normalizedTrip. rewrite normalizeSelections_mapM.
  induction 1 as [|s rest Hs _ IH]; [reflexivity|].
  change (mapM (normalize1 document) (s :: rest))
    with (y ← normalize1 document s;
          k ← mapM (normalize1 document) rest; mret (y :: k)).
  pose proof (normalizedTrip1 document s Hs) as H1.
  destruct (normalize1 document s) as [s'|]; [|discriminate].
  destruct (mapM (normalize1 document) rest) as [rest'|]; [|discriminate].
  cbn [mbind mret result_bind result_ret] in *.
  cbn [Earlier.toCharacterMode mbind mret result_bind result_ret].
  now rewrite H1, IH.
Qed.

Lemma normalizedTrip_withinLine_witness :
  normalizedTrip [sel 0 0 0 0; sel 1 1 1 1] (mkDocument ["a"; "b"]%string)
  = Ok [sel 0 0 0 0; sel 1 1 1 1].
Proof.
  apply (normalizedTrip_withinLine [sel 0 0 0 0; sel 1 1 1 1]).
  repeat constructor;
    (eexists; split; [reflexivity|cbn; unfold lineCount; cbn; lia]).
Defined.

(** * Properties of the registers *)

Lemma checkFlags_passes (this : Register.t) (flags_ : Z) :
  Register.checkFlags this flags_ = Register.Passed
  <-> passes (Register.flags this) flags_ = true.
Proof.
  unfold Register.checkFlags, passes, Register.cannot. cbn [forallb].
  repeat match goal with
         | |- context [if ?c then _ else _] => destruct c
         end; cbn [negb andb]; split; congruence.
Qed.

Lemma land_low (f flags_ : Z) :
  (0 <= flags_ < 32)%Z -> Z.land f flags_ = Z.land (f mod 32) flags_.
Proof.
  intros H. change 32%Z with (2 ^ 5)%Z.
  rewrite <- (Z.land_ones f 5) by lia.
  rewrite <- Z.land_assoc, (Z.land_comm (Z.ones 5)), Z.land_ones by lia.
  now rewrite (Z.mod_small flags_) by (change (2 ^ 5)%Z with 32%Z; lia).
Qed.

Lemma passes_low (f flags_ : Z) : passes f flags_ = passes (f mod 32) flags_.
Proof.
  unfold passes. cbn [forallb].
  now rewrite !(land_low f) by (vm_compute; intuition discriminate).
Qed.

Lemma below_32 (n : Z) : (0 <= n < 32)%Z -> In n (Z.of_nat <$> seq 0 32).
Proof.
  intros H. rewrite <- (Z2Nat.id n) by lia.
  apply in_map, in_seq. lia.
Qed.

Lemma passes_land (f flags_ : Z) :
  (0 <= flags_ < 32)%Z -> passes f flags_ = (Z.land f flags_ =? flags_)%Z.
Proof.
  intros H. rewrite passes_low, (land_low f flags_ H).
  assert (Hf : (0 <= f mod 32 < 32)%Z) by (apply Z.mod_pos_bound; lia).
  assert (Hall : forallb (fun g => forallb (fun r =>
                   Bool.eqb (passes g r) (Z.land g r =? r)%Z)
                   (Z.of_nat <$> seq 0 32)) (Z.of_nat <$> seq 0 32) = true)
    by (vm_compute; reflexivity).
  rewrite forallb_forall in Hall. specialize (Hall _ (below_32 _ Hf)).
  rewrite forallb_forall in Hall. specialize (Hall _ (below_32 _ H)).
  now apply Bool.eqb_prop.
Qed.

Lemma checkFlags_land (this : Register.t) (flags_ : Z) :
  (0 <= flags_ < 32)%Z ->
  Register.checkFlags this flags_ = Register.Passed
  <-> Register.hasFlags this flags_ = true.
Proof.
  intros Hflags. rewrite checkFlags_passes, passes_land by exact Hflags.
  reflexivity.
Qed.

(** The check and the query on the flags of a register agree: for a set
    [flags_] of the five declared flags, [checkFlags] raises no error, and
    [withFlags] returns the register, exactly when [hasFlags] holds. *)
Theorem checkFlags_hasFlags (this : Register.t) (flags_ : Z) :
  (0 <= flags_ < 32)%Z ->
  (Register.checkFlags this flags_ = Register.Passed
   <-> Register.hasFlags this flags_ = true)
  /\ (Register.withFlags this flags_ = inl this
      <-> Register.hasFlags this flags_ = true).
Proof.
  intros Hflags. pose proof (checkFlags_land this flags_ Hflags) as H.
  split; [exact H|].
  rewrite <- H. unfold Register.withFlags.
  destruct (Register.checkFlags this flags_); split; congruence.
Qed.

Lemma checkFlags_hasFlags_witness :
  let this := asRegister (Special (mkSpecialRegister "#" selectionIndices None)) in
  (Register.checkFlags this 3 = Register.Passed <-> Register.hasFlags this 3 = true)
  /\ (Register.withFlags this 3 = inl this <-> Register.hasFlags this 3 = true).
Proof.
  intros this. apply (checkFlags_hasFlags this 3). lia.
Defined.

(** Each [ensure...] raises no error exactly when the query of the same name
    holds. *)
Theorem ensure_can (this : Register.t) :
  (Register.ensureCanRead this = Register.Passed
   <-> Register.canRead this = true)
  /\ (Register.ensureCanWrite this = Register.Passed
      <-> Register.canWrite this = true)
  /\ (Register.ensureCanReadSelections this = Register.Passed
      <-> Register.canReadSelections this = true)
  /\ (Register.ensureCanWriteSelections this = Register.Passed
      <-> Register.canWriteSelections this = true)
  /\ (Register.ensureCanReadRecordedCommands this = Register.Passed
      <-> Register.canReadRecordedCommands this = true)
  /\ (Register.ensureCanWriteRecordedCommands this = Register.Passed
      <-> Register.canWriteRecordedCommands this = true).
Proof.
  repeat split; apply checkFlags_land; vm_compute; intuition discriminate.
Qed.

Lemma toLowerCase1_idempotent (c : Ascii.ascii) :
  toLowerCase1 (toLowerCase1 c) = toLowerCase1 c.
Proof. destruct c as [[] [] [] [] [] [] [] []]; reflexivity. Qed.

Lemma toLowerCase_idempotent (s : string) :
  toLowerCase (toLowerCase s) = toLowerCase s.
Proof.
  induction s as [|c s IH]; [reflexivity|].
  cbn [toLowerCase]. now rewrite toLowerCase1_idempotent, IH.
Qed.

Lemma sameRegister_refl (object : RegisterObject) : sameRegister object object.
Proof. now destruct object. Qed.

Lemma sameRegister_trans (a b c : RegisterObject) :
  sameRegister a b -> sameRegister b c -> sameRegister a c.
Proof. destruct a, b, c; cbn; congruence || tauto. Qed.

Lemma sameRegister_asRegister (object object' : RegisterObject) :
  sameRegister object object' -> asRegister object' = asRegister object.
Proof. destruct object, object'; cbn; try tauto; now intros ->. Qed.

Lemma written_sameRegister (newline : string) (values : list string)
    (object object' : RegisterObject) :
  written newline values object = Some object' -> sameRegister object object'.
Proof.
  destruct object as [r|r|r]; cbn.
  - now intros [= <-].
  - destruct (SpecialRegister_set r); [|discriminate]. now intros [= <-].
  - now intros [= <-].
Qed.

Lemma evolved_refl (heap : list RegisterObject) : evolved heap heap.
Proof. intros register object H. exists object. split; [exact H|apply sameRegister_refl]. Qed.

Lemma evolved_trans (a b c : list RegisterObject) :
  evolved a b -> evolved b c -> evolved a c.
Proof.
  intros Hab Hbc register object H.
  destruct (Hab _ _ H) as (object' & H' & Hsame).
  destruct (Hbc _ _ H') as (object'' & H'' & Hsame').
  exists object''. split; [exact H''|]. now apply (sameRegister_trans _ object').
Qed.

Lemma evolved_app (heap new : list RegisterObject) : evolved heap (heap ++ new).
Proof.
  intros register object H. exists object.
  split; [now apply lookup_app_l_Some|apply sameRegister_refl].
Qed.

Lemma evolved_insert (heap : list RegisterObject) (register : nat)
    (object object' : RegisterObject) :
  heap !! register = Some object -> sameRegister object object' ->
  evolved heap (<[register := object']> heap).
Proof.
  intros Hobject Hsame i o H. destruct (decide (i = register)) as [->|Hne].
  - exists object'. rewrite list_lookup_insert_eq by now apply lookup_lt_Some in H.
    split; [reflexivity|]. congruence.
  - exists o. rewrite list_lookup_insert_ne by congruence.
    split; [exact H|apply sameRegister_refl].
Qed.

Lemma evolved_length (heap heap' : list RegisterObject) :
  evolved heap heap' -> length heap <= length heap'.
Proof.
  intros H. destruct heap as [|o heap _] using rev_ind; [cbn; lia|].
  destruct (H (length heap) o) as (o' & H' & _); [now rewrite list_lookup_middle|].
  apply lookup_lt_Some in H'. rewrite length_app. cbn. lia.
Qed.

Lemma Invariant_new : Invariant RegisterSet.new.
Proof.
  split; try reflexivity.
  - apply evolved_refl.
  - repeat constructor.
  - unfold RegisterSet.new. cbn -[RegisterSet.initialized].
    repeat (apply map_Forall_insert_2;
            [split; [vm_compute; lia|intros H; vm_compute in H; lia]|]).
    apply map_Forall_empty.
Qed.

Lemma getNamed_Got (key : string) (this : RegisterSet.t) :
  Got key this (RegisterSet.getNamed key this).
Proof.
  unfold RegisterSet.getNamed. rewrite toLowerCase_idempotent.
  destruct (RegisterSet._named this !! toLowerCase key) as [register|] eqn:E.
  - now apply Got_named.
  - now apply Got_created.
Qed.

Lemma get_Got (key : string) (this : RegisterSet.t) :
  Got key this (RegisterSet.get key this).
Proof.
  destruct key as [|c [|c' key]]; try apply getNamed_Got.
  unfold RegisterSet.get.
  set (charCode := Ascii.nat_of_ascii c).
  repeat match goal with
         | |- context [if ?n =? ?m then _ else _] =>
             destruct (n =? m); [apply Got_field; cbn; tauto|]
         end.
  destruct (Nat.leb_spec 97 charCode), (Nat.leb_spec charCode 122); cbn [andb];
    try (apply Got_letter; lia);
    (destruct (Nat.leb_spec 65 charCode), (Nat.leb_spec charCode 90); cbn [andb];
     try (apply Got_letter; lia));
    (destruct (Nat.leb_spec 49 charCode), (Nat.leb_spec charCode 57); cbn [andb];
     try (apply Got_digit; lia));
    apply getNamed_Got.
Qed.

Lemma Invariant_heap_length (this : RegisterSet.t) :
  Invariant this -> 47 <= length (RegisterSet.heap this).
Proof.
  intros H. apply (evolved_length _ _ (Invariant_heap this H)).
Qed.

(** The invariant holds again when the registers of the set evolve and the
    other fields but [_lastMatches] stay as they are. *)
Lemma Invariant_evolved (this this' : RegisterSet.t) :
  Invariant this ->
  evolved (RegisterSet.heap this) (RegisterSet.heap this') ->
  RegisterSet._named this' = RegisterSet._named this ->
  RegisterSet._letters this' = RegisterSet._letters this ->
  RegisterSet._digits this' = RegisterSet._digits this ->
  fieldRegisters this' = fieldRegisters this ->
  Invariant this'.
Proof.
  intros [Hletters Hdigits Hfields Hheap Hlong Hnamed] Hevolved Hn Hl Hd Hf.
  pose proof (evolved_length _ _ Hevolved) as Hlen.
  split.
  - congruence.
  - congruence.
  - congruence.
  - now apply (evolved_trans _ (RegisterSet.heap this)).
  - now rewrite Hn.
  - rewrite Hn. eapply map_Forall_impl; [exact Hnamed|]. cbn beta.
    intros key register [Hrange Hobject]. split; [lia|].
    intros H. destruct (Hobject H) as (object & Hlookup & Hsame).
    destruct (Hevolved _ _ Hlookup) as (object' & Hlookup' & Hsame').
    exists object'. split; [exact Hlookup'|].
    now apply (sameRegister_trans _ object).
Qed.

Lemma Invariant_Got (key : string) (this : RegisterSet.t)
    (got : option nat * RegisterSet.t) :
  Invariant this -> Got key this got -> Invariant got.2.
Proof.
  intros Hinv. pose proof (Invariant_heap_length this Hinv) as Hlen.
  destruct 1 as [| | | |Hnone]; try exact Hinv.
  destruct Hinv as [Hletters Hdigits Hfields Hheap Hlong Hnamed].
  split; cbn [snd RegisterSet.setNamed RegisterSet.allocate RegisterSet.heap
              RegisterSet._named RegisterSet._letters RegisterSet._digits];
    try assumption.
  - apply (evolved_trans _ (RegisterSet.heap this)); [exact Hheap|apply evolved_app].
  - eapply Forall2_impl; [exact Hlong|]. cbn beta. intros longName register H.
    rewrite lookup_insert_ne; [exact H|]. intros <-. congruence.
  - apply map_Forall_insert_2.
    + rewrite length_app. cbn [length]. split; [lia|]. intros _.
      eexists. split; [now rewrite list_lookup_middle|apply sameRegister_refl].
    + eapply map_Forall_impl; [exact Hnamed|]. cbn beta.
      intros k register [Hrange Hobject]. rewrite length_app. cbn [length].
      split; [lia|]. intros H. rewrite lookup_app_l by lia. now apply Hobject.
Qed.

Lemma reachable_Invariant (this : RegisterSet.t) : reachable this -> Invariant this.
Proof.
  induction 1 as [|key this _ IH|matches this this' _ IH Hupdate
                  |register newline values this object object' _ IH Hobject Hwritten].
  - exact Invariant_new.
  - exact (Invariant_Got key this _ IH (get_Got key this)).
  - destruct matches as [|first rest]; [discriminate|].
    injection Hupdate as <-.
    apply (Invariant_evolved this); try reflexivity; [exact IH|apply evolved_refl].
  - apply (Invariant_evolved this); try reflexivity; [exact IH|].
    apply (evolved_insert _ _ object); [exact Hobject|].
    exact (written_sameRegister _ _ _ _ Hwritten).
Qed.

Lemma getNamed_again (key : string) (this : RegisterSet.t) :
  RegisterSet.getNamed key (RegisterSet.getNamed key this).2
  = RegisterSet.getNamed key this.
Proof.
  unfold RegisterSet.getNamed. rewrite toLowerCase_idempotent.
  destruct (RegisterSet._named this !! toLowerCase key) as [register|] eqn:E;
    cbn [snd RegisterSet.allocate RegisterSet.setNamed RegisterSet._named
         RegisterSet.heap].
  - now rewrite E.
  - now rewrite lookup_insert_eq.
Qed.

(** A key is answered from the fields and the arrays of the set, which [get]
    does not change, or from the names. *)
Lemma get_either (key : string) :
  (forall this, (RegisterSet.get key this).2 = this)
  \/ (forall this, RegisterSet.get key this = RegisterSet.getNamed key this).
Proof.
  destruct key as [|c [|c' key]]; try (right; reflexivity).
  unfold RegisterSet.get.
  repeat match goal with
         | |- context [if ?c then _ else _] =>
             destruct c; [left; reflexivity|]
         end.
  right. reflexivity.
Qed.

(** [get] does not depend on the case of the key, and asking again for a key
    gives the same register and leaves the set as the first call left it:
    a register is created once for a name. *)
Theorem get_again (key : string) (this : RegisterSet.t) :
  RegisterSet.get (toLowerCase key) this = RegisterSet.get key this
  /\ RegisterSet.get key (RegisterSet.get key this).2 = RegisterSet.get key this.
Proof.
  split.
  - destruct key as [|c [|c' key]].
    + reflexivity.
    + destruct c as [[] [] [] [] [] [] [] []]; reflexivity.
    + change (RegisterSet.getNamed (toLowerCase (String c (String c' key))) this
              = RegisterSet.getNamed (String c (String c' key)) this).
      unfold RegisterSet.getNamed. now rewrite !toLowerCase_idempotent.
  - destruct (get_either key) as [H|H].
    + now rewrite H.
    + rewrite !H. apply getNamed_again.
Qed.

Lemma letters_new (i : nat) :
  i < 26 ->
  exists register,
    RegisterSet._letters RegisterSet.new !! i = Some register
    /\ register < 47
    /\ ~ In register [0; 2; 3; 7; 15; 18; 20; 35]
    /\ exists object,
         RegisterSet.heap RegisterSet.new !! register = Some object
         /\ Register.name (asRegister object) = letterName i
         /\ Register.canWrite (asRegister object)
            = negb (bool_decide (i ∈ [2; 7; 20])).
Proof.
  intros Hi.
  do 26 (destruct i as [|i];
         [eexists; split; [vm_compute; reflexivity|];
          split; [lia|]; split; [cbn; lia|];
          eexists; split; [vm_compute; reflexivity|]; split; reflexivity|]).
  lia.
Qed.

(** On a set that the program can hold, [get] never returns [undefined]: it
    returns a register of the set after the call, in which the registers of
    the set before the call are as they were, and which is the set before
    the call unless the register is a new general-purpose register named by
    the key in small letters.  It never returns the general-purpose
    registers first created for the letters a, c, d, h, p, s and u, nor the
    tenth numbered register. *)
Theorem get_register (key : string) (this : RegisterSet.t) :
  reachable this ->
  exists register object,
    (RegisterSet.get key this).1 = Some register
    /\ RegisterSet.heap (RegisterSet.get key this).2 !! register = Some object
    /\ RegisterSet.heap this `prefix_of` RegisterSet.heap (RegisterSet.get key this).2
    /\ ~ In register [0; 2; 3; 7; 15; 18; 20; 35]
    /\ ((RegisterSet.get key this).2 = this
        \/ object = newGeneralPurposeRegister (toLowerCase key)
           /\ RegisterSet._named this !! toLowerCase key = None).
Proof.
  intros Hreach. pose proof (reachable_Invariant this Hreach) as Hinv.
  pose proof (Invariant_heap_length this Hinv) as Hlen.
  assert (Hold : forall register,
            register < length (RegisterSet.heap this) ->
            ~ In register [0; 2; 3; 7; 15; 18; 20; 35] ->
            exists register' object,
              Some register = Some register'
              /\ RegisterSet.heap this !! register' = Some object
              /\ RegisterSet.heap this `prefix_of` RegisterSet.heap this
              /\ ~ In register' [0; 2; 3; 7; 15; 18; 20; 35]
              /\ (this = this
                  \/ object = newGeneralPurposeRegister (toLowerCase key)
                     /\ RegisterSet._named this !! toLowerCase key = None)).
  { intros register Hlt Hdead.
    destruct (lookup_lt_is_Some_2 (RegisterSet.heap this) register Hlt)
      as [object H].
    exists register, object.
    repeat split; [exact H|reflexivity|exact Hdead|now left]. }
  destruct (get_Got key this) as [register Hin|i Hi|i Hi|register Hnamed|Hnone];
    cbn [fst snd].
  - rewrite (Invariant_fields this Hinv) in Hin. apply in_seq in Hin.
    apply Hold; [lia|]. cbn. lia.
  - rewrite (Invariant_letters this Hinv).
    destruct (letters_new i Hi) as (register & -> & Hlt & Hdead & _).
    apply Hold; [lia|exact Hdead].
  - rewrite (Invariant_digits this Hinv).
    change (RegisterSet._digits RegisterSet.new) with (seq 26 10).
    rewrite lookup_seq_lt by lia.
    apply Hold; [lia|]. cbn. lia.
  - destruct (Invariant_named this Hinv _ _ Hnamed) as [Hrange _].
    apply Hold; [lia|]. cbn. lia.
  - exists (length (RegisterSet.heap this)),
      (newGeneralPurposeRegister (toLowerCase key)).
    cbn [RegisterSet.setNamed RegisterSet.allocate RegisterSet.heap snd].
    repeat split.
    + now rewrite list_lookup_middle.
    + now apply prefix_app_r.
    + cbn. lia.
    + right. now split.
Qed.

Lemma get_register_witness :
  exists register object,
    (RegisterSet.get "Arobase" RegisterSet.new).1 = Some register
    /\ RegisterSet.heap (RegisterSet.get "Arobase" RegisterSet.new).2 !! register
       = Some object
    /\ RegisterSet.heap RegisterSet.new
         `prefix_of` RegisterSet.heap (RegisterSet.get "Arobase" RegisterSet.new).2
    /\ ~ In register [0; 2; 3; 7; 15; 18; 20; 35]
    /\ ((RegisterSet.get "Arobase" RegisterSet.new).2 = RegisterSet.new
        \/ object = newGeneralPurposeRegister (toLowerCase "Arobase")
           /\ RegisterSet._named RegisterSet.new !! toLowerCase "Arobase" = None).
Proof.
  apply (get_register "Arobase" RegisterSet.new). exact reachable_new.
Defined.

Lemma Invariant_old (this : RegisterSet.t) (register : nat) (object : RegisterObject) :
  Invariant this ->
  RegisterSet.heap RegisterSet.new !! register = Some object ->
  exists object',
    RegisterSet.heap this !! register = Some object'
    /\ sameRegister object object'.
Proof.
  intros Hinv H. exact (Invariant_heap this Hinv _ _ H).
Qed.

(** The aliases of the registers, on a set that the program can hold.  The
    small and the capital letter of index [i] give the same register, and
    leave the set as it is: the general-purpose register named by the small
    letter, except for a, c, d, h, p, s and u, which give the registers
    [@], [:], [.], [#], [%], [/] and [_]; the registers of c, h and u can
    therefore not be written.  Each long name gives the register of its
    symbol, and the empty name gives the [null] register. *)
Theorem get_aliases (this : RegisterSet.t) :
  reachable this ->
  (forall i,
     i < 26 ->
     RegisterSet.get (fromCharCode (65 + i)) this
     = RegisterSet.get (fromCharCode (97 + i)) this
     /\ exists register object,
          RegisterSet.get (fromCharCode (97 + i)) this = (Some register, this)
          /\ RegisterSet.heap this !! register = Some object
          /\ Register.name (asRegister object) = letterName i
          /\ Register.canWrite (asRegister object)
             = negb (bool_decide (i ∈ [2; 7; 20])))
  /\ Forall2 (fun longName symbol =>
                RegisterSet.get longName this = RegisterSet.get symbol this
                /\ exists register object,
                     RegisterSet.get longName this = (Some register, this)
                     /\ RegisterSet.heap this !! register = Some object
                     /\ Register.name (asRegister object)
                        = (if String.eqb symbol "" then longName else symbol))
       longNames symbols.
Proof.
  intros Hreach. pose proof (reachable_Invariant this Hreach) as Hinv. split.
  - intros i Hi.
    assert (Hget : RegisterSet.get (fromCharCode (65 + i)) this
                   = (RegisterSet._letters this !! i, this)
                   /\ RegisterSet.get (fromCharCode (97 + i)) this
                      = (RegisterSet._letters this !! i, this)).
    { do 26 (destruct i as [|i]; [split; reflexivity|]). lia. }
    destruct Hget as [-> ->]. split; [reflexivity|].
    rewrite (Invariant_letters this Hinv).
    destruct (letters_new i Hi) as (register & -> & _ & _ & object & Hobject & H).
    destruct (Invariant_old this _ _ Hinv Hobject) as (object' & Hobject' & Hsame).
    exists register, object'. split; [reflexivity|]. split; [exact Hobject'|].
    now rewrite (sameRegister_asRegister _ _ Hsame).
  - pose proof (Invariant_longNames this Hinv) as Hlong.
    pose proof (Invariant_fields this Hinv) as Hfields.
    injection Hfields as Hf0 Hf1 Hf2 Hf3 Hf4 Hf5 Hf6 Hf7 Hf8 Hf9 Hf10.
    assert (Hnamed : forall key register,
              RegisterSet._named this !! toLowerCase key = Some register ->
              RegisterSet.getNamed key this = (Some register, this)).
    { intros key register H. unfold RegisterSet.getNamed.
      now rewrite toLowerCase_idempotent, H. }
    unfold longNames, symbols in *. cbn [seq] in Hlong.
    repeat match goal with
           | H : Forall2 _ (_ :: _) (_ :: _) |- _ =>
               apply Forall2_cons_1 in H; destruct H as [? H]
           end.
    repeat match goal with
           | H : RegisterSet._named this !! ?k = Some ?r |- _ =>
               apply (Hnamed k r) in H;
               change (RegisterSet.get k this = (Some r, this)) in H
           end.
    repeat (constructor;
            [split;
             [etransitivity; [eassumption|];
              first [ symmetry; assumption
                    | match goal with
                      | H : _ = ?r |- (Some ?r, _) = _ => rewrite <- H
                      end; reflexivity ]
             |match goal with
              | H : RegisterSet.get ?longName this = (Some ?r, this)
                |- exists _ _, RegisterSet.get ?longName this = _ /\ _ =>
                  edestruct (Invariant_old this r) as (object' & Hobject' & Hsame);
                  [exact Hinv|vm_compute; reflexivity|];
                  exists r, object'; split; [exact H|]; split; [exact Hobject'|];
                  rewrite (sameRegister_asRegister _ _ Hsame); reflexivity
              end]
            |]).
    constructor.
Qed.

Lemma get_aliases_witness :
  RegisterSet.get "H" RegisterSet.new = RegisterSet.get "h" RegisterSet.new
  /\ exists register object,
       RegisterSet.get "h" RegisterSet.new = (Some register, RegisterSet.new)
       /\ RegisterSet.heap RegisterSet.new !! register = Some object
       /\ Register.name (asRegister object) = "#"%string
       /\ Register.canWrite (asRegister object) = false.
Proof.
  apply (proj1 (get_aliases RegisterSet.new reachable_new) 7). lia.
Defined.

Lemma strings_fmap (matches : list (list (option string))) (i : nat) :
  RegisterSet.strings matches i = RegisterSet.group i <$> matches.
Proof.
  induction matches as [|match_ matches IH]; [reflexivity|].
  cbn [RegisterSet.strings fmap list_fmap]. now rewrite IH.
Qed.

Lemma transposeLoop_lookup (matches : list (list (option string))) (remaining : nat) :
  forall i j,
    RegisterSet.transposeLoop matches i remaining !! j
    = if j <? remaining then Some (RegisterSet.group (i + j) <$> matches) else None.
Proof.
  induction remaining as [|remaining IH]; intros i j; [reflexivity|].
  cbn [RegisterSet.transposeLoop]. destruct j as [|j].
  - cbn. now rewrite strings_fmap, Nat.add_0_r.
  - cbn [lookup list_lookup]. rewrite IH.
    replace (S i + j) with (i + S j) by lia.
    change (S j <? S remaining) with (j <? remaining). reflexivity.
Qed.

(** The numbered registers after a search.  On a set that the program can
    hold, [updateRegExpMatches] on one match or more raises no error, and
    afterwards, for [k] from 1 to 9, the key [k] gives the read-only special
    register named [k], whose function yields, for each match in order, its
    group [k] when the first match has such a group, and [undefined] when it
    has not. *)
Theorem updateRegExpMatches_digits (this : RegisterSet.t)
    (first : list (option string)) (rest : list (list (option string))) (k : nat) :
  reachable this ->
  1 <= k <= 9 ->
  exists this',
    RegisterSet.updateRegExpMatches (first :: rest) this = Some this'
    /\ exists register,
         RegisterSet.get (toString k) this' = (Some register, this')
         /\ RegisterSet.heap this' !! register
            = Some (Special (mkSpecialRegister (toString k) (lastMatch (k - 1)) None))
         /\ RegisterSet.lastMatches (k - 1) this'
            = if k <? length first
              then Some (RegisterSet.group k <$> first :: rest)
              else None.
Proof.
  intros Hreach Hk. eexists. split; [reflexivity|].
  assert (Hreach' : reachable
            (RegisterSet.setLastMatches
               (RegisterSet.transposeLoop (first :: rest) 1 (length first - 1)) this))
    by (apply (reachable_updateRegExpMatches (first :: rest) this _ Hreach);
        reflexivity).
  pose proof (reachable_Invariant _ Hreach') as Hinv.
  set (this' := RegisterSet.setLastMatches _ this) in *.
  exists (25 + k). split; [|split].
  - assert (Hget : RegisterSet.get (toString k) this'
                   = (RegisterSet._digits this' !! (k - 1), this')).
    { destruct k as [|k]; [lia|].
      do 9 (destruct k as [|k]; [reflexivity|]). lia. }
    rewrite Hget, (Invariant_digits this' Hinv).
    change (RegisterSet._digits RegisterSet.new) with (seq 26 10).
    rewrite lookup_seq_lt by lia. do 2 f_equal. lia.
  - assert (Hnew : RegisterSet.heap RegisterSet.new !! (25 + k)
                   = Some (Special (mkSpecialRegister (toString k) (lastMatch (k - 1)) None))).
    { destruct k as [|k]; [lia|].
      do 9 (destruct k as [|k]; [reflexivity|]). lia. }
    destruct (Invariant_old this' _ _ Hinv Hnew) as (object' & -> & Hsame).
    destruct object'; cbn in Hsame; try contradiction. now subst.
  - unfold RegisterSet.lastMatches, this'. cbn [RegisterSet.setLastMatches RegisterSet._lastMatches].
    rewrite transposeLoop_lookup.
    replace (1 + (k - 1)) with k by lia.
    destruct (Nat.ltb_spec (k - 1) (length first - 1)), (Nat.ltb_spec k (length first));
      try reflexivity; lia.
Qed.

Lemma updateRegExpMatches_digits_witness :
  exists this',
    RegisterSet.updateRegExpMatches
      [[Some "ab"; Some "a"; Some "b"]; [Some "cd"; Some "c"; None]]%string
      RegisterSet.new = Some this'
    /\ exists register,
         RegisterSet.get (toString 2) this' = (Some register, this')
         /\ RegisterSet.heap this' !! register
            = Some (Special (mkSpecialRegister (toString 2) (lastMatch (2 - 1)) None))
         /\ RegisterSet.lastMatches (2 - 1) this'
            = if 2 <? length [Some "ab"; Some "a"; Some "b"]%string
              then Some (RegisterSet.group 2
                           <$> [[Some "ab"; Some "a"; Some "b"];
                                [Some "cd"; Some "c"; None]]%string)
              else None.
Proof.
  apply (updateRegExpMatches_digits RegisterSet.new); [exact reachable_new|lia].
Defined.




(** * Properties of the register of a command *)

Lemma getInstance_reachable (key : string) (registers : RegisterSet.t) :
  reachable registers -> reachable (getInstance key registers).2.
Proof.
  intros H. unfold getInstance.
  pose proof (reachable_get key registers H) as H'.
  now destruct (RegisterSet.get key registers).
Qed.

Lemma getInstance_home (key : string) (registers registers' : RegisterSet.t)
    (register : RegisterInstance) :
  getInstance key registers = (Some register, registers') ->
  exists address object,
    home register = Some address
    /\ RegisterSet.heap registers' !! address = Some object
    /\ members register = asRegister object.
Proof.
  unfold getInstance.
  destruct (RegisterSet.get key registers) as [[address|] registers1];
    [|discriminate].
  cbn [mbind option_bind].
  destruct (RegisterSet.heap registers1 !! address) as [object|] eqn:Hobject;
    [|discriminate].
  intros [= <- <-]. now exists address, object.
Qed.

(** [getRegister] keeps its promise.  For a set of the five declared flags:
    a [Register] instance given as the argument is taken as it is, wherever
    it lives, and returned when it has the required flags, the set of
    registers being left as it is; and on a set of registers that the
    program can hold, when [getRegister] returns a register, this register
    has the required flags, the argument holds it afterwards, and
    [getRegister] on this argument returns it again and changes nothing;
    when the argument was not a [Register] instance, the register returned
    is a register of the set. *)
Theorem getRegister_withFlags (defaultRegisterName : string) (requiredFlags : Z)
    (registers : RegisterSet.t) :
  reachable registers ->
  (0 <= requiredFlags < 32)%Z ->
  (forall given,
     Register.hasFlags (members given) requiredFlags = true ->
     getRegister (registerObject given) defaultRegisterName requiredFlags registers
     = (inl given, registerObject given, registers))
  /\ (forall argument argument' register registers',
        getRegister argument defaultRegisterName requiredFlags registers
        = (inl register, argument', registers') ->
        reachable registers'
        /\ argument' = registerObject register
        /\ Register.hasFlags (members register) requiredFlags = true
        /\ ((forall given, argument <> registerObject given) ->
            exists address object,
              home register = Some address
              /\ RegisterSet.heap registers' !! address = Some object
              /\ members register = asRegister object)
        /\ getRegister argument' defaultRegisterName requiredFlags registers'
           = (inl register, argument', registers')).
Proof.
  intros Hreach Hflags. split.
  - intros given Hgiven. unfold getRegister.
    apply (checkFlags_land (members given) requiredFlags Hflags) in Hgiven.
    now rewrite Hgiven.
  - intros argument argument' register registers'. unfold getRegister at 1.
    set (got := match argument with
                | registerName name => getInstance name registers
                | registerObject register => (Some register, registers)
                | registerOther => getInstance defaultRegisterName registers
                end).
    assert (Hgot : reachable got.2).
    { unfold got. destruct argument; cbn [snd]; try exact Hreach;
        now apply getInstance_reachable. }
    assert (Hhome : forall register registers',
              got = (Some register, registers') ->
              (forall given, argument <> registerObject given) ->
              exists address object,
                home register = Some address
                /\ RegisterSet.heap registers' !! address = Some object
                /\ members register = asRegister object).
    { unfold got. intros r rs Hr Hnot. destruct argument as [name|given|].
      - now apply (getInstance_home name registers).
      - now contradiction (Hnot given).
      - now apply (getInstance_home defaultRegisterName registers). }
    destruct got as [[r|] registers1]; [|discriminate].
    cbn [snd] in Hgot.
    destruct (Register.checkFlags (members r) requiredFlags) eqn:Hcheck;
      [|discriminate].
    intros [= <- <- <-].
    split; [exact Hgot|]. split; [reflexivity|]. split; [|split].
    + now apply (checkFlags_land (members r) requiredFlags Hflags).
    + now apply Hhome.
    + unfold getRegister. now rewrite Hcheck.
Qed.

Lemma getRegister_withFlags_witness :
  let registers := RegisterSet.new in
  let clipboard :=
    mkRegisterInstance (Some 36)
      (asRegister (Clipboard (mkClipboardRegister None None))) in
  let elsewhere :=
    mkRegisterInstance None (asRegister (newGeneralPurposeRegister "a")) in
  getRegister (registerObject elsewhere) "dquote" 3 registers
  = (inl elsewhere, registerObject elsewhere, registers)
  /\ reachable registers
  /\ registerObject clipboard = registerObject clipboard
  /\ Register.hasFlags (members clipboard) 3 = true
  /\ ((forall given, registerOther <> registerObject given) ->
      exists address object,
        home clipboard = Some address
        /\ RegisterSet.heap registers !! address = Some object
        /\ members clipboard = asRegister object)
  /\ getRegister (registerObject clipboard) "dquote" 3 registers
     = (inl clipboard, registerObject clipboard, registers).
Proof.
  intros registers clipboard elsewhere.
  assert (Hflags : (0 <= 3 < 32)%Z) by lia.
  pose proof (getRegister_withFlags "dquote" 3 registers reachable_new Hflags)
    as [Hgiven Hreturned].
  split.
  - apply Hgiven. reflexivity.
  - apply (Hreturned registerOther (registerObject clipboard) clipboard registers).
    reflexivity.
Defined.
